(** * urllib3.future: response streaming, promises and the traffic police

    A shallow embedding of
    - [urllib3/backend/_base.py]: [LowLevelResponse.read] and
      [ResponsePromise.__eq__];
    - [urllib3/util/_async/traffic_police.py]: [AsyncTrafficPolice].

    Python objects are modelled by records, Python's insertion-ordered
    [dict] by an association list, exceptions by an [outcome] type, the
    task-local context variables by functions from tasks, and Python's
    [float] by the binary64 numbers of the kernel. *)

From Stdlib Require Import Floats.PrimFloat.
From Stdlib.Strings Require Import String Ascii Byte.
From Stdlib Require Import List Bool Arith NArith ZArith Lia.
Import ListNotations.

Set Implicit Arguments.

(** ** Exceptions and results *)

Inductive exn : Type :=
| AtomicTraffic
| OverwhelmedTraffic
| UnavailableTraffic
| TimeoutError
| ValueError
| KeyError
| AssertionError.

(** What a call produces: a returned value or a raised exception. *)
Inductive outcome (A : Type) : Type :=
| Return (a : A)
| Raise (e : exn).

Arguments Return {A} a.
Arguments Raise {A} e.

Definition bytes := list byte.

(** ** Python slicing of a byte string, [b[:n]] and [b[n:]].
    A negative bound counts from the end, as in Python. *)

Definition slice_to (n : Z) (b : bytes) : bytes :=
  if (0 <=? n)%Z then firstn (Z.to_nat n) b
  else firstn (length b - Z.to_nat (- n)) b.

Definition slice_from (n : Z) (b : bytes) : bytes :=
  if (0 <=? n)%Z then skipn (Z.to_nat n) b
  else skipn (length b - Z.to_nat (- n)) b.

(** ** [LowLevelResponse] *)

Module LowLevelResponse.

(** The [body] callable handed to [__init__].  It is a closure over the
    protocol state machine, which "consume and render event regardless
    of your amt": it is modelled by the frames it has yet to deliver,
    one per call, the last one with the end-of-transmission flag. *)
Definition body_reader := list bytes.

(** [body(size, stream_id)]: the next frame, the flag, the reader left. *)
Definition call (rd : body_reader) (size : option Z) (stream_id : option Z)
  : (bytes * bool) * body_reader :=
  match rd with
  | [] => (([], true), [])
  | [f] => ((f, true), [])
  | f :: rest => ((f, false), rest)
  end.

Record t : Type := mk {
  status : Z;
  version : Z;
  reason : string;
  _method : string;
  internal_read_st : option body_reader;
  closed : bool;
  _eot : bool;
  _stream_id : option Z;
  buffer_excess : bytes
}.

Definition __init__ (method : string) (status version : Z) (reason : string)
           (body : option body_reader) (stream_id : option Z) : t :=
  {| status := status; version := version; reason := reason;
     _method := method;
     internal_read_st := body;
     closed := match body with None => true | Some _ => false end;
     _eot := match body with None => true | Some _ => false end;
     _stream_id := stream_id;
     buffer_excess := [] |}.

Definition set_reader (rd : option body_reader) (r : t) : t :=
  mk (status r) (version r) (reason r) (_method r) rd (closed r) (_eot r)
     (_stream_id r) (buffer_excess r).
Definition set_closed (b : bool) (r : t) : t :=
  mk (status r) (version r) (reason r) (_method r) (internal_read_st r) b
     (_eot r) (_stream_id r) (buffer_excess r).
Definition set_eot (b : bool) (r : t) : t :=
  mk (status r) (version r) (reason r) (_method r) (internal_read_st r)
     (closed r) b (_stream_id r) (buffer_excess r).
Definition set_buffer_excess (x : bytes) (r : t) : t :=
  mk (status r) (version r) (reason r) (_method r) (internal_read_st r)
     (closed r) (_eot r) (_stream_id r) x.

Definition isclosed (r : t) : bool := closed r.

Definition nonempty (b : bytes) : bool :=
  match b with [] => false | _ => true end.

(** [read(__size)] *)
Definition read (size : option Z) (r : t) : outcome bytes * t :=
  match closed r, internal_read_st r with
  | true, _ | _, None => (Raise ValueError, r)
  | false, Some rd =>
    match size with
    | Some 0%Z => (Return [], r)
    | _ =>
      (* fetch *)
      let '(data, r1) :=
        if negb (_eot r) then
          let '((data, eot), rd') := call rd size (_stream_id r) in
          let r1 := set_eot eot (set_reader (Some rd') r) in
          if nonempty (buffer_excess r1)
          then (buffer_excess r1 ++ data, set_buffer_excess [] r1)
          else (data, r1)
        else
          match size with
          | None => (buffer_excess r, r)
          | Some n =>
            (slice_to n (buffer_excess r),
             set_buffer_excess (slice_from n (buffer_excess r)) r)
          end in
      (* cut to size *)
      let '(data, r2) :=
        match size with
        | Some n =>
          if (n <? Z.of_nat (length data))%Z
          then (slice_to n data, set_buffer_excess (slice_from n data) r1)
          else (data, r1)
        | None => (data, r1)
        end in
      let r3 :=
        if _eot r2 && (length (buffer_excess r2) =? 0)
        then set_closed true r2 else r2 in
      (Return data, r3)
    end
  end.

Definition close (r : t) : t := set_closed true (set_reader None r).

(** Successive [read] calls until the response is closed, as the
    streaming loop of a caller does, the call number [k] asking for
    [sizes k] bytes; the values returned, in order.  [None] when [fuel]
    calls did not reach the end. *)
Fixpoint read_until_closed (fuel : nat) (sizes : nat -> Z) (k : nat) (r : t)
  : option (list bytes) :=
  if closed r then Some []
  else match fuel with
       | O => None
       | S fuel' =>
         match read (Some (sizes k)) r with
         | (Return data, r') =>
           match read_until_closed fuel' sizes (S k) r' with
           | Some l => Some (data :: l)
           | None => None
           end
         | (Raise _, _) => None
         end
       end.

(** The bytes of the body that no [read] has returned yet: the overflow
    buffer, then the frames the reader still holds. *)
Definition remaining (r : t) : bytes :=
  buffer_excess r ++
  (if _eot r then []
   else match internal_read_st r with
        | Some rd => concat rd
        | None => []
        end).

End LowLevelResponse.

(** ** [ResponsePromise] *)

Module ResponsePromise.

Definition b64_alphabet : string :=
  "ABCDEFGHIJKLMNOPQRSTUVWXYZabcdefghijklmnopqrstuvwxyz0123456789+/"%string.

Definition b64_char (n : N) : ascii :=
  match String.get (N.to_nat n) b64_alphabet with
  | Some c => c
  | None => "="%char
  end.

(** [base64.b64encode(...).decode("ascii")] *)
Fixpoint b64encode (l : bytes) : string :=
  match l with
  | [] => EmptyString
  | [a] =>
    let x := Byte.to_N a in
    String (b64_char (x / 4))
      (String (b64_char ((x mod 4) * 16)) "=="%string)
  | [a; b] =>
    let x := Byte.to_N a in
    let y := Byte.to_N b in
    String (b64_char (x / 4))
      (String (b64_char ((x mod 4) * 16 + y / 16))
        (String (b64_char ((y mod 16) * 4)) "="%string))
  | a :: b :: c :: rest =>
    let x := Byte.to_N a in
    let y := Byte.to_N b in
    let z := Byte.to_N c in
    String (b64_char (x / 4))
      (String (b64_char ((x mod 4) * 16 + y / 16))
        (String (b64_char ((y mod 16) * 4 + z / 64))
          (String (b64_char (z mod 64)) (b64encode rest))))
  end%N.

Record t : Type := mk {
  _uid : string;
  _conn : nat;
  _stream_id : Z;
  _response : option LowLevelResponse.t;
  _request_headers : list (bytes * bytes);
  _parameters : list (string * string)
}.

(** [__init__]; [token] is the draw of [secrets.token_bytes(16)]. *)
Definition __init__ (token : bytes) (conn : nat) (stream_id : Z)
           (request_headers : list (bytes * bytes))
           (parameters : list (string * string)) : t :=
  {| _uid := b64encode token;
     _conn := conn;
     _stream_id := stream_id;
     _response := None;
     _request_headers := request_headers;
     _parameters := parameters |}.

Definition uid (p : t) : string := _uid p.
Definition stream_id (p : t) : Z := _stream_id p.
Definition is_ready (p : t) : bool :=
  match _response p with Some _ => true | None => false end.

(** Any Python object a promise may be compared with. *)
Inductive object : Type :=
| Promise (p : t)
| Other.

(** [__eq__(self, other)] *)
Definition __eq__ (self : t) (other : object) : bool :=
  match other with
  | Other => false
  | Promise o => String.eqb (uid self) (uid o)
  end.

End ResponsePromise.

(** ** Python's [dict]: unique keys, kept in insertion order *)

Module Dict.
Section Ops.
Variables (K V : Type) (eqb : K -> K -> bool).

Definition t := list (K * V).

Definition keys (d : t) : list K := map fst d.

(** [d.get(k)] *)
Fixpoint get (k : K) (d : t) : option V :=
match d with
| [] => None
| (k', v) :: d' => if eqb k k' then Some v else get k d'
end.

(** [k in d] *)
Definition mem (k : K) (d : t) : bool :=
match get k d with Some _ => true | None => false end.

(** [d[k] = v]: a known key keeps its place, a new one goes last. *)
Fixpoint set (k : K) (v : V) (d : t) : t :=
match d with
| [] => [(k, v)]
| (k', v') :: d' =>
if eqb k k' then (k', v) :: d' else (k', v') :: set k v d'
end.

Fixpoint remove (k : K) (d : t) : t :=
match d with
| [] => []
| (k', v') :: d' => if eqb k k' then d' else (k', v') :: remove k d'
end.

(** [d.pop(k)]; [None] stands for [KeyError]. *)
Definition pop (k : K) (d : t) : option (V * t) :=
match get k d with
| Some v => Some (v, remove k d)
| None => None
end.

(** [del d[k]]; [None] stands for [KeyError]. *)
Definition del (k : K) (d : t) : option t :=
match get k d with
| Some _ => Some (remove k d)
| None => None
end.

(** [d.popitem()]: the pair inserted last; [None] stands for
[KeyError] on an empty dict. *)
Fixpoint popitem (d : t) : option ((K * V) * t) :=
match d with
| [] => None
| [kv] => Some (kv, [])
| kv :: d' =>
match popitem d' with
| Some (last, rest) => Some (last, kv :: rest)
| None => None
end
end.

(** [d1.update(d2)] *)
Definition update (d1 d2 : t) : t :=
fold_left (fun acc kv => set (fst kv) (snd kv) acc) d2 d1.

End Ops.
End Dict.

(** ** [ResponsePromise]: the parameters, a [dict] from names to values *)

Module ResponsePromiseParameters.
Import ResponsePromise.

(** [set_parameter(key, value)]: [self._parameters[key] = value] *)
Definition set_parameter (key value : string) (p : t) : t :=
  mk (_uid p) (_conn p) (_stream_id p) (_response p) (_request_headers p)
     (Dict.set String.eqb key value (_parameters p)).

(** [get_parameter(key)]:
    [self._parameters[key] if key in self._parameters else None] *)
Definition get_parameter (key : string) (p : t) : outcome (option string) :=
  if Dict.mem String.eqb key (_parameters p) then
    match Dict.get String.eqb key (_parameters p) with
    | Some value => Return (Some value)
    | None => Raise KeyError
    end
  else Return None.

End ResponsePromiseParameters.

(** ** [ResponsePromise]: the promises of a program

    A promise is a Python object, built by [__init__] and updated in
    place.  The objects of a program are kept in a heap, in the order
    in which they were built. *)

Module ResponsePromiseHeap.
Import ResponsePromise ResponsePromiseParameters.

(** [promise.response = value], the setter. *)
Definition set_response (value : LowLevelResponse.t) (p : t) : t :=
  mk (_uid p) (_conn p) (_stream_id p) (Some value) (_request_headers p)
     (_parameters p).

(** What a program does with promises: it builds one, [token] being the
    draw of [secrets.token_bytes(16)] that [__init__] makes, or it
    updates the promise built as number [i]. *)
Inductive step : Type :=
| New (token : bytes) (conn : nat) (stream_id : Z)
      (request_headers : list (bytes * bytes))
      (parameters : list (string * string))
| SetResponse (i : nat) (value : LowLevelResponse.t)
| SetParameter (i : nat) (key value : string).

(** The heap in which the object number [i] is updated by [f]. *)
Fixpoint update (i : nat) (f : t -> t) (heap : list t) : list t :=
  match heap, i with
  | [], _ => []
  | p :: heap', O => f p :: heap'
  | p :: heap', S i' => p :: update i' f heap'
  end.

Definition run_step (heap : list t) (st : step) : list t :=
  match st with
  | New token conn stream_id request_headers parameters =>
    heap ++ [__init__ token conn stream_id request_headers parameters]
  | SetResponse i value => update i (set_response value) heap
  | SetParameter i key value => update i (set_parameter key value) heap
  end.

(** The promises that exist once the program has run. *)
Definition run (program : list step) : list t :=
  fold_left run_step program [].

(** The draws of [token_bytes] that the program made, in order. *)
Definition draws (program : list step) : list bytes :=
  flat_map (fun st => match st with
                      | New token _ _ _ _ => [token]
                      | _ => []
                      end) program.

End ResponsePromiseHeap.

(** ** [AsyncTrafficPolice] *)

Module AsyncTrafficPolice.

(** A managed connection or pool is a reference to a Python object;
    [id] is the object's identity. *)
Definition ref := nat.
Definition id (r : ref) : nat := r.

(** Tasks: each one has its own copy of the context variables. *)
Definition task := nat.

(** Modelled from the spec: [TrafficState], declared in
    [urllib3/util/traffic_police.py]. *)
Inductive TrafficState : Type := IDLE | UNDER | SATURATED.

Definition TrafficState_eqb (a b : TrafficState) : bool :=
  match a, b with
  | IDLE, IDLE | UNDER, UNDER | SATURATED, SATURATED => true
  | _, _ => false
  end.

(** Modelled from the spec: [PoolKey], declared in
    [urllib3/poolmanager.py], a tuple of scheme, host, port. *)
Record PoolKey : Type := { key_scheme : string; key_host : string; key_port : Z }.

Definition PoolKey_eqb (a b : PoolKey) : bool :=
  String.eqb (key_scheme a) (key_scheme b)
  && String.eqb (key_host a) (key_host b)
  && Z.eqb (key_port a) (key_port b).

(** The classes of traffic indicators, [type(traffic_indicator)]. *)
Inductive pytype : Type :=
| AsyncHTTPResponse_t
| ResponsePromise_t
| PoolKey_t.

Definition pytype_is (a b : pytype) : bool :=
  match a, b with
  | AsyncHTTPResponse_t, AsyncHTTPResponse_t
  | ResponsePromise_t, ResponsePromise_t
  | PoolKey_t, PoolKey_t => true
  | _, _ => false
  end.

(** [MappableTraffic]: a response or a promise (an object, known by its
    identity) or a pool key (a tuple, known by its value). *)
Inductive MappableTraffic : Type :=
| Response (addr : nat)
| Promise (addr : nat)
| Key (k : PoolKey).

(** The keys of [_map] and [_map_types], [int | PoolKey]. *)
Inductive key : Type :=
| KId (n : nat)
| KTuple (k : PoolKey).

Definition key_eqb (a b : key) : bool :=
  match a, b with
  | KId n, KId m => Nat.eqb n m
  | KTuple k, KTuple l => PoolKey_eqb k l
  | _, _ => false
  end.

(** [traffic_indicator if isinstance(traffic_indicator, tuple)
     else id(traffic_indicator)] *)
Definition key_of (i : MappableTraffic) : key :=
  match i with
  | Response a | Promise a => KId a
  | Key k => KTuple k
  end.

Definition type_of (i : MappableTraffic) : pytype :=
  match i with
  | Response _ => AsyncHTTPResponse_t
  | Promise _ => ResponsePromise_t
  | Key _ => PoolKey_t
  end.

(** What the arbiter reads of a managed object: its [is_idle] and
    [is_saturated] properties and, for a pool whose [pool] attribute is
    an [AsyncTrafficPolice], the keys of that nested arbiter's [_map]
    ([None] when there is no such attribute). *)
Record obj : Type := {
  is_idle : bool;
  is_saturated : bool;
  pool : option (list key)
}.

(** Modelled from the spec: [traffic_state_of], declared in
    [urllib3/util/traffic_police.py]: IDLE iff [is_idle], SATURATED iff
    [is_saturated], else UNDER. *)
Definition traffic_state_of (o : obj) : TrafficState :=
  if is_idle o then IDLE
  else if is_saturated o then SATURATED
  else UNDER.

(** The arbiter, with the objects it refers to.  [ctx_cursor] and
    [ctx_wait_clock] are the two context variables, one value per task.
    [objects], [closed] and [sleeps] are the world around the arbiter:
    the state of each managed object, the objects on which [close()]
    was called, in order, and the number of 1 ms sleeps performed. *)
Record police : Type := mk {
  maxsize : option Z;
  concurrency : bool;
  _registry : Dict.t nat ref;
  _container : Dict.t nat ref;
  _map : Dict.t key ref;
  _map_types : Dict.t key pytype;
  _shutdown : bool;
  ctx_cursor : task -> option (nat * ref);
  ctx_wait_clock : task -> option float;
  objects : ref -> obj;
  closed : list ref;
  sleeps : nat
}.

(** [__init__(maxsize, concurrency)] *)
Definition __init__ (maxsize : option Z) (concurrency : bool)
           (objects : ref -> obj) : police :=
  {| maxsize := maxsize; concurrency := concurrency;
     _registry := []; _container := []; _map := []; _map_types := [];
     _shutdown := false;
     ctx_cursor := fun _ => None;
     ctx_wait_clock := fun _ => None;
     objects := objects; closed := []; sleeps := 0 |}.

Definition set_registry (x : Dict.t nat ref) (s : police) : police :=
  mk (maxsize s) (concurrency s) x (_container s) (_map s) (_map_types s)
     (_shutdown s) (ctx_cursor s) (ctx_wait_clock s) (objects s) (closed s)
     (sleeps s).
Definition set_container (x : Dict.t nat ref) (s : police) : police :=
  mk (maxsize s) (concurrency s) (_registry s) x (_map s) (_map_types s)
     (_shutdown s) (ctx_cursor s) (ctx_wait_clock s) (objects s) (closed s)
     (sleeps s).
Definition set_map (x : Dict.t key ref) (s : police) : police :=
  mk (maxsize s) (concurrency s) (_registry s) (_container s) x
     (_map_types s) (_shutdown s) (ctx_cursor s) (ctx_wait_clock s)
     (objects s) (closed s) (sleeps s).
Definition set_map_types (x : Dict.t key pytype) (s : police) : police :=
  mk (maxsize s) (concurrency s) (_registry s) (_container s) (_map s) x
     (_shutdown s) (ctx_cursor s) (ctx_wait_clock s) (objects s) (closed s)
     (sleeps s).
Definition set_shutdown (x : bool) (s : police) : police :=
  mk (maxsize s) (concurrency s) (_registry s) (_container s) (_map s)
     (_map_types s) x (ctx_cursor s) (ctx_wait_clock s) (objects s)
     (closed s) (sleeps s).
Definition set_ctx_cursor (x : task -> option (nat * ref)) (s : police)
  : police :=
  mk (maxsize s) (concurrency s) (_registry s) (_container s) (_map s)
     (_map_types s) (_shutdown s) x (ctx_wait_clock s) (objects s)
     (closed s) (sleeps s).
Definition set_ctx_wait_clock (x : task -> option float) (s : police) : police :=
  mk (maxsize s) (concurrency s) (_registry s) (_container s) (_map s)
     (_map_types s) (_shutdown s) (ctx_cursor s) x (objects s) (closed s)
     (sleeps s).
Definition set_closed (x : list ref) (s : police) : police :=
  mk (maxsize s) (concurrency s) (_registry s) (_container s) (_map s)
     (_map_types s) (_shutdown s) (ctx_cursor s) (ctx_wait_clock s)
     (objects s) x (sleeps s).
Definition set_sleeps (x : nat) (s : police) : police :=
  mk (maxsize s) (concurrency s) (_registry s) (_container s) (_map s)
     (_map_types s) (_shutdown s) (ctx_cursor s) (ctx_wait_clock s)
     (objects s) (closed s) x.
(** The managed objects move on: requests are sent, responses read. *)
Definition set_objects (x : ref -> obj) (s : police) : police :=
  mk (maxsize s) (concurrency s) (_registry s) (_container s) (_map s)
     (_map_types s) (_shutdown s) (ctx_cursor s) (ctx_wait_clock s)
     x (closed s) (sleeps s).

(** *** A state and exception monad

    The calls below run without a loop.  Those that close an item,
    [kill_cursor], [_sacrifice_first_idle], [put] and [clear], are
    suspended at [await conn_or_pool.close()], where the other tasks
    run: they take [env], what these tasks do meanwhile. *)

Definition M (A : Type) : Type := police -> outcome A * police.

Definition ret {A} (a : A) : M A := fun s => (Return a, s).
Definition raise {A} (e : exn) : M A := fun s => (Raise e, s).
Definition bind {A B} (m : M A) (k : A -> M B) : M B :=
  fun s =>
    match m s with
    | (Return a, s') => k a s'
    | (Raise e, s') => (Raise e, s')
    end.
Definition gets {A} (f : police -> A) : M A := fun s => (Return (f s), s).
Definition modify (f : police -> police) : M unit :=
  fun s => (Return tt, f s).

Declare Scope police_scope.
Delimit Scope police_scope with police.
Notation "x <- m ;; k" := (bind m (fun x => k))
  (at level 61, m at next level, right associativity) : police_scope.
Notation "m ;; k" := (bind m (fun _ => k))
  (at level 61, right associativity) : police_scope.
Local Open Scope police_scope.

Fixpoint for_each {A} (f : A -> M unit) (l : list A) : M unit :=
  match l with
  | [] => ret tt
  | x :: l' => f x ;; for_each f l'
  end.

Definition len {A} (l : list A) : Z := Z.of_nat (length l).

Definition state_of (s : police) (r : ref) : TrafficState :=
  traffic_state_of (objects s r).

(** [self._cursor], [self._wait_clock] and their setters, in task [t]. *)
Definition _cursor (t : task) : M (option (nat * ref)) :=
  gets (fun s => ctx_cursor s t).
Definition _wait_clock (t : task) : M (option float) :=
  gets (fun s => ctx_wait_clock s t).
Definition _set_cursor (t : task) (v : option (nat * ref)) : M unit :=
  modify (fun s =>
    set_ctx_cursor (fun t' => if Nat.eqb t' t then v else ctx_cursor s t') s).
Definition _set_wait_clock (t : task) (v : option float) : M unit :=
  modify (fun s =>
    set_ctx_wait_clock
      (fun t' => if Nat.eqb t' t then v else ctx_wait_clock s t') s).

Definition busy (t : task) : M bool :=
  c <- _cursor t ;;
  ret (match c with Some _ => true | None => false end).

Definition bag_only_idle : M bool :=
  gets (fun s =>
    forallb (fun kv => TrafficState_eqb (state_of s (snd kv)) IDLE)
            (_registry s)).

(** [del self._registry[k]] and the like; a missing key raises. *)
Definition del_registry (k : nat) : M unit :=
  fun s => match Dict.del Nat.eqb k (_registry s) with
           | Some d => (Return tt, set_registry d s)
           | None => (Raise KeyError, s)
           end.
Definition del_container (k : nat) : M unit :=
  fun s => match Dict.del Nat.eqb k (_container s) with
           | Some d => (Return tt, set_container d s)
           | None => (Raise KeyError, s)
           end.
Definition del_map (k : key) : M unit :=
  fun s => match Dict.del key_eqb k (_map s) with
           | Some d => (Return tt, set_map d s)
           | None => (Raise KeyError, s)
           end.
Definition del_map_types (k : key) : M unit :=
  fun s => match Dict.del key_eqb k (_map_types s) with
           | Some d => (Return tt, set_map_types d s)
           | None => (Raise KeyError, s)
           end.

(** [try: await conn_or_pool.close() / except Exception: pass]: the
    call is recorded, and the task is suspended while the item closes;
    [env] is what the other tasks do to the arbiter and its objects
    meanwhile. *)
Definition close (env : police -> police) (r : ref) : M unit :=
  modify (fun s => env (set_closed (closed s ++ [r]) s)).

(** [new_container = {obj_id: conn_or_pool};
     new_container.update(self._container);
     self._container = new_container] *)
Definition container_push_front (obj_id : nat) (conn_or_pool : ref) : M unit :=
  modify (fun s =>
    set_container
      (Dict.update Nat.eqb [(obj_id, conn_or_pool)] (_container s)) s).

Definition __len__ : M Z := gets (fun s => len (_registry s)).

Definition _map_clear (value : ref) : M unit :=
  let obj_id := id value in
  registry <- gets _registry ;;
  if negb (Dict.mem Nat.eqb obj_id registry) then ret tt
  else
    m <- gets _map ;;
    let outdated_keys :=
      map fst (filter (fun kv => Nat.eqb (id (snd kv)) obj_id) m) in
    for_each (fun k => del_map k ;; del_map_types k) outdated_keys.

Definition kill_cursor (env : police -> police) (t : task) : M unit :=
  c <- _cursor t ;;
  match c with
  | None => ret tt
  | Some (obj_id, conn_or_pool) =>
    _map_clear conn_or_pool ;;
    del_registry obj_id ;;
    close env conn_or_pool ;;
    _set_cursor t None
  end.

Definition _sacrifice_first_idle (env : police -> police) : M unit :=
  s <- gets (fun s => s) ;;
  if (len (_registry s) =? 0)%Z then ret tt
  else
    match find (fun kv =>
                  Dict.mem Nat.eqb (fst kv) (_container s)
                  && TrafficState_eqb (state_of s (snd kv)) IDLE)
               (_registry s) with
    | Some (eligible_obj_id, eligible_conn_or_pool) =>
      _map_clear eligible_conn_or_pool ;;
      del_registry eligible_obj_id ;;
      del_container eligible_obj_id ;;
      close env eligible_conn_or_pool
    | None => raise OverwhelmedTraffic
    end.

Definition memorize (t : task) (traffic_indicator : MappableTraffic)
           (conn_or_pool : option ref) : M unit :=
  c <- _cursor t ;;
  target <-
    match conn_or_pool with
    | None =>
      match c with
      | None => raise AtomicTraffic
      | Some (_, cur) => ret cur
      end
    | Some conn =>
      registry <- gets _registry ;;
      if negb (Dict.mem Nat.eqb (id conn) registry)
      then raise UnavailableTraffic
      else ret conn
    end ;;
  let k := key_of traffic_indicator in
  modify (fun s => set_map (Dict.set key_eqb k target (_map s)) s) ;;
  modify (fun s =>
    set_map_types
      (Dict.set key_eqb k (type_of traffic_indicator) (_map_types s)) s).

Definition forget (traffic_indicator : MappableTraffic) : M unit :=
  let k := key_of traffic_indicator in
  m <- gets _map ;;
  if negb (Dict.mem key_eqb k m) then ret tt
  else del_map k ;; del_map_types k.

Definition put (env : police -> police) (t : task) (conn_or_pool : ref)
           (traffic_indicators : list MappableTraffic)
           (block : bool) (immediately_unavailable : bool) : M unit :=
  shutdown <- gets _shutdown ;;
  if shutdown then
    kill_cursor env t ;;
    registry <- gets _registry ;;
    if (len registry =? 0)%Z then modify (set_shutdown false) else ret tt
  else
    s <- gets (fun s => s) ;;
    (match maxsize s with
     | Some m =>
       if (m <=? len (_registry s))%Z
          && negb (Dict.mem Nat.eqb (id conn_or_pool) (_registry s))
       then _sacrifice_first_idle env
       else ret tt
     | None => ret tt
     end) ;;
    let obj_id := id conn_or_pool in
    registry <- gets _registry ;;
    container <- gets _container ;;
    let registered_conn_or_pool := Dict.mem Nat.eqb obj_id registry in
    if registered_conn_or_pool && Dict.mem Nat.eqb obj_id container
    then ret tt
    else
      (if registered_conn_or_pool then
         c <- _cursor t ;;
         match c with
         | Some (taken_obj_id, _) =>
           if Nat.eqb taken_obj_id obj_id then _set_cursor t None else ret tt
         | None => ret tt
         end
       else
         modify (fun s =>
           set_registry (Dict.set Nat.eqb obj_id conn_or_pool (_registry s)) s)) ;;
      (if negb immediately_unavailable then
         container_push_front obj_id conn_or_pool
       else
         _set_cursor t (Some (obj_id, conn_or_pool)) ;;
         concurrency <- gets concurrency ;;
         if concurrency then container_push_front obj_id conn_or_pool
         else ret tt) ;;
      for_each (fun indicator => memorize t indicator (Some conn_or_pool))
               traffic_indicators.

Definition release (t : task) : M unit :=
  c <- _cursor t ;;
  match c with
  | Some (obj_id, conn_or_pool) =>
    concurrency <- gets concurrency ;;
    (if negb concurrency then container_push_front obj_id conn_or_pool
     else ret tt) ;;
    _set_cursor t None
  | None => ret tt
  end.

(** [iter_idle], up to its [yield]: the idle item handed to the caller,
    if there is one.  When the caller comes back the generator runs
    [release] and ends. *)
Definition iter_idle (t : task) : M (option ref) :=
  b <- busy t ;;
  if b then raise AtomicTraffic
  else
    s <- gets (fun s => s) ;;
    if (0 <? len (_container s))%Z then
      match find (fun kv => TrafficState_eqb (state_of s (snd kv)) IDLE)
                 (_container s) with
      | Some (obj_id, conn_or_pool) =>
        modify (fun s =>
          set_container (Dict.remove Nat.eqb obj_id (_container s)) s) ;;
        _set_cursor t (Some (obj_id, conn_or_pool)) ;;
        concurrency <- gets concurrency ;;
        (if concurrency then container_push_front obj_id conn_or_pool
         else ret tt) ;;
        ret (Some conn_or_pool)
      | None => ret None
      end
    else ret None.

Definition qsize : M Z := gets (fun s => len (_container s)).
Definition rsize : M Z := gets (fun s => len (_registry s)).

Definition clear (env : police -> police) (t : task) : M unit :=
  s <- gets (fun s => s) ;;
  let planned_removal :=
    map fst (filter (fun kv => TrafficState_eqb (state_of s (snd kv)) IDLE)
                    (_container s)) in
  for_each (fun obj_id =>
              fun s => match Dict.pop Nat.eqb obj_id (_container s) with
                       | Some (_, d) => (Return tt, set_container d s)
                       | None => (Raise KeyError, s)
                       end) planned_removal ;;
  registry <- gets _registry ;;
  (if (len planned_removal <? len registry)%Z
   then modify (set_shutdown true) else ret tt) ;;
  for_each (fun obj_id =>
              popped <- (fun s => match Dict.pop Nat.eqb obj_id (_registry s) with
                                  | Some (v, d) => (Return v, set_registry d s)
                                  | None => (Raise KeyError, s)
                                  end) ;;
              close env popped ;;
              _map_clear popped) planned_removal ;;
  c <- _cursor t ;;
  match c with
  | Some (cursor_obj_id, _) =>
    if existsb (Nat.eqb cursor_obj_id) planned_removal
    then _set_cursor t None else ret tt
  | None => ret tt
  end.

(** *** Calls that wait in a loop

    [await asyncio.sleep(0.001)] hands control to the other tasks, as
    [close()] does: [env] is what they do to the arbiter and its objects
    meanwhile.  A loop runs on [fuel], one unit per round; [None] is a
    call that is still waiting when the fuel is spent. *)

Definition B (A : Type) : Type := police -> option (outcome A * police).

Definition asyncio_sleep (env : police -> police) (s : police) : police :=
  set_sleeps (S (sleeps s)) (env s).

(** Durations in seconds are Python floats, binary64 numbers: sums are
    rounded, and [0.001] is the float closest to a thousandth. *)
#[local] Set Warnings "-inexact-float".
Definition quantum : float := 0.001%float.
#[local] Set Warnings "inexact-float".

(** [for obj_id, conn_or_pool in self._registry.items(): if ...: return] *)
Definition any_not_saturated_available (s : police) : bool :=
  existsb (fun kv =>
             negb (TrafficState_eqb (state_of s (snd kv)) SATURATED)
             && Dict.mem Nat.eqb (fst kv) (_container s))
          (_registry s).

Definition any_idle_available (s : police) : bool :=
  existsb (fun kv =>
             TrafficState_eqb (state_of s (snd kv)) IDLE
             && Dict.mem Nat.eqb (fst kv) (_container s))
          (_registry s).

(** The two [wait_for_*] loops differ by the test on the items only. *)
Fixpoint wait_for_slot (qualifies : police -> bool) (fuel : nat)
         (env : police -> police) (timeout : option float) (combined_wait : float)
  : B unit :=
  fun s =>
    match fuel with
    | O => None
    | S fuel' =>
      match maxsize s with
      | None => Some (Return tt, s)
      | Some m =>
        if (len (_registry s) <? m)%Z then Some (Return tt, s)
        else if qualifies s then Some (Return tt, s)
        else
          let s1 := asyncio_sleep env s in
          let combined_wait := (combined_wait + quantum)%float in
          match timeout with
          | Some _ =>
            if (combined_wait <=? combined_wait)%float
            then Some (Raise TimeoutError, s1)
            else wait_for_slot qualifies fuel' env timeout combined_wait s1
          | None =>
            wait_for_slot qualifies fuel' env timeout combined_wait s1
          end
      end
    end.

Definition wait_for_unallocated_or_available_slot
           (fuel : nat) (env : police -> police) (timeout : option float)
  : B unit :=
  wait_for_slot any_not_saturated_available fuel env timeout 0%float.

Definition wait_for_idle_or_available_slot
           (fuel : nat) (env : police -> police) (timeout : option float)
  : B unit :=
  wait_for_slot any_idle_available fuel env timeout 0%float.

(** The [for k, v in self._map_types.items()] pass of [_find_by]: what
    it returns, if it does, and [any_match]. *)
Fixpoint _find_by_scan (s : police) (traffic_type : pytype)
         (l : list (key * pytype)) (any_match : bool)
  : outcome (option ref) * bool :=
  match l with
  | [] => (Return None, any_match)
  | (k, v) :: l' =>
    if pytype_is v traffic_type then
      match Dict.get key_eqb k (_map s) with
      | None => (Raise KeyError, any_match)
      | Some conn_or_pool =>
        if is_idle (objects s conn_or_pool)
        then _find_by_scan s traffic_type l' any_match
        else if Dict.mem Nat.eqb (id conn_or_pool) (_container s)
             then (Return (Some conn_or_pool), true)
             else _find_by_scan s traffic_type l' true
      end
    else _find_by_scan s traffic_type l' any_match
  end.

Fixpoint _find_by (fuel : nat) (env : police -> police)
         (traffic_type : pytype) (block : bool) : B (option ref) :=
  fun s =>
    match fuel with
    | O => None
    | S fuel' =>
      match _find_by_scan s traffic_type (_map_types s) false with
      | (Raise e, _) => Some (Raise e, s)
      | (Return (Some conn_or_pool), _) => Some (Return (Some conn_or_pool), s)
      | (Return None, any_match) =>
        if negb block then Some (Return None, s)
        else if any_match
             then _find_by fuel' env traffic_type block (asyncio_sleep env s)
             else Some (Return None, s)
      end
    end.

(** The first [(obj_id, conn_or_pool)] of the container, in order, that
    a selective [get] accepts. *)
Definition first_not (avoid : TrafficState) (s : police)
  : option (nat * ref) :=
  find (fun kv => negb (TrafficState_eqb (state_of s (snd kv)) avoid))
       (_container s).

(** The selection step of [get], run when the container is not empty:
    the pair taken out of the container, if any. *)
Definition get_select (non_saturated_only not_idle_only : bool)
  : M (option (nat * ref)) :=
  fun s =>
    if non_saturated_only then
      match first_not SATURATED s with
      | Some (obj_id, conn_or_pool) =>
        (Return (Some (obj_id, conn_or_pool)),
         set_container (Dict.remove Nat.eqb obj_id (_container s)) s)
      | None => (Return None, s)
      end
    else if negb not_idle_only then
      match Dict.popitem (_container s) with
      | Some (kv, rest) => (Return (Some kv), set_container rest s)
      | None => (Raise KeyError, s)
      end
    else
      match first_not IDLE s with
      | Some (obj_id, conn_or_pool) =>
        (Return (Some (obj_id, conn_or_pool)),
         set_container (Dict.remove Nat.eqb obj_id (_container s)) s)
      | None => (Return None, s)
      end.

Fixpoint get_loop (fuel : nat) (env : police -> police) (t : task)
         (block : bool) (timeout : option float)
         (non_saturated_only not_idle_only : bool) : B (option ref) :=
  fun s =>
    match fuel with
    | O => None
    | S fuel' =>
      match ctx_cursor s t with
      | Some _ => Some (Raise AtomicTraffic, s)
      | None =>
        if (len (_container s) =? 0)%Z
           && match maxsize s with
              | Some m => (len (_registry s) <? m)%Z
              | None => false
              end
        then Some (Return None, s)
        else
          match (if (0 <? len (_container s))%Z
                 then get_select non_saturated_only not_idle_only s
                 else (Return None, s)) with
          | (Raise e, s1) => Some (Raise e, s1)
          | (Return (Some (obj_id, conn_or_pool)), s1) =>
            (* the cursor is set, the loop is left *)
            Some ((_set_cursor t (Some (obj_id, conn_or_pool)) ;;
                   concurrency <- gets concurrency ;;
                   (if concurrency
                    then container_push_front obj_id conn_or_pool
                    else ret tt) ;;
                   (match timeout with
                    | Some _ => _set_wait_clock t None
                    | None => ret tt
                    end) ;;
                   ret (Some conn_or_pool)) s1)
          | (Return None, s1) =>
            if block then
              let s2 := asyncio_sleep env s1 in
              match timeout with
              | Some tm =>
                match ctx_wait_clock s2 t with
                | None => Some (Raise AssertionError, s2)
                | Some w =>
                  let w' := (w + quantum)%float in
                  match _set_wait_clock t (Some w') s2 with
                  | (_, s3) =>
                    if (tm <=? w')%float
                    then Some ((_set_wait_clock t None ;;
                                raise UnavailableTraffic) s3)
                    else get_loop fuel' env t block timeout
                                  non_saturated_only not_idle_only s3
                  end
                end
              | None =>
                get_loop fuel' env t block timeout
                         non_saturated_only not_idle_only s2
              end
            else Some (Raise UnavailableTraffic, s1)
          end
      end
    end.

Definition get (fuel : nat) (env : police -> police) (t : task)
           (block : bool) (timeout : option float)
           (non_saturated_only not_idle_only : bool) : B (option ref) :=
  fun s =>
    let s0 := match timeout with
              | Some _ => snd (_set_wait_clock t (Some 0%float) s)
              | None => s
              end in
    get_loop fuel env t block timeout non_saturated_only not_idle_only s0.

Definition get_nowait (fuel : nat) (env : police -> police) (t : task)
           (non_saturated_only not_idle_only : bool) : B (option ref) :=
  get fuel env t false None non_saturated_only not_idle_only.

(** The sub police officer, if any, that knows the indicator: the first
    registered item whose nested arbiter has the key in its map. *)
Definition locate_by_beacon (k : key) (s : police) : option (nat * ref) :=
  find (fun kv =>
          match pool (objects s (snd kv)) with
          | Some sub_map_keys => existsb (key_eqb k) sub_map_keys
          | None => false
          end)
       (_registry s).

Fixpoint locate_loop (fuel : nat) (env : police -> police) (t : task)
         (obj_id : nat) (conn_or_pool : ref)
         (block : bool) (timeout : option float) : B (option ref) :=
  fun s =>
    match fuel with
    | O => None
    | S fuel' =>
      match ctx_cursor s t with
      | Some (cursor_obj_id, cursor_conn_or_pool) =>
        if Nat.eqb cursor_obj_id obj_id
        then Some (Return (Some cursor_conn_or_pool), s)
        else Some (Raise AtomicTraffic, s)
      | None =>
        if Dict.mem Nat.eqb obj_id (_container s) then
          Some (((if negb (concurrency s)
                  then modify (fun s =>
                         set_container
                           (Dict.remove Nat.eqb obj_id (_container s)) s)
                  else ret tt) ;;
                 _set_cursor t (Some (obj_id, conn_or_pool)) ;;
                 (match timeout with
                  | Some _ => _set_wait_clock t None
                  | None => ret tt
                  end) ;;
                 ret (Some conn_or_pool)) s)
        else if negb block then Some (Raise UnavailableTraffic, s)
        else
          let s2 := asyncio_sleep env s in
          match timeout with
          | Some tm =>
            match ctx_wait_clock s2 t with
            | None => Some (Raise AssertionError, s2)
            | Some w =>
              let w' := (w + quantum)%float in
              match _set_wait_clock t (Some w') s2 with
              | (_, s3) =>
                if (tm <=? w')%float
                then Some (Raise TimeoutError, s3)
                else locate_loop fuel' env t obj_id conn_or_pool
                                 block timeout s3
              end
            end
          | None =>
            locate_loop fuel' env t obj_id conn_or_pool block timeout s2
          end
      end
    end.

(** [locate]; its argument is an indicator or, wrongly, a class. *)
Definition locate (fuel : nat) (env : police -> police) (t : task)
           (traffic_indicator : MappableTraffic + pytype)
           (block : bool) (timeout : option float) : B (option ref) :=
  fun s =>
    let s0 := match timeout, ctx_wait_clock s t with
              | Some _, None => snd (_set_wait_clock t (Some 0%float) s)
              | _, _ => s
              end in
    match traffic_indicator with
    | inr _ => Some (Raise ValueError, s0)
    | inl indicator =>
      let k := key_of indicator in
      let found :=
        match Dict.get key_eqb k (_map s0) with
        | Some conn_or_pool => Some (id conn_or_pool, conn_or_pool)
        | None => locate_by_beacon k s0
        end in
      match found with
      | None => Some (Return None, s0)
      | Some (obj_id, conn_or_pool) =>
        locate_loop fuel env t obj_id conn_or_pool block timeout s0
      end
    end.

Definition beacon (fuel : nat) (env : police -> police)
           (traffic_indicator : MappableTraffic + pytype) : B bool :=
  fun s =>
    match traffic_indicator with
    | inl indicator =>
      Some (Return (Dict.mem key_eqb (key_of indicator) (_map s)), s)
    | inr traffic_type =>
      match _find_by fuel env traffic_type true s with
      | Some (Return found, s') =>
        Some (Return (match found with Some _ => true | None => false end), s')
      | Some (Raise e, s') => Some (Raise e, s')
      | None => None
      end
    end.

(** [borrow], up to its [yield]: the item handed to the [async with]
    block.  When the acquisition raises, the [finally] clause has run
    [release] before the exception leaves. *)
Definition borrow_enter (fuel : nat) (env : police -> police) (t : task)
           (traffic_indicator : option (MappableTraffic + pytype))
           (block : bool) (timeout : option float) (not_idle_only : bool)
  : B ref :=
  fun s =>
    let acquired : option (outcome (option ref) * police) :=
      match traffic_indicator with
      | Some (inr traffic_type) =>
        match _find_by fuel env traffic_type true s with
        | Some (Return (Some conn_or_pool), s1) =>
          let obj_id := id conn_or_pool in
          match ctx_cursor s1 t with
          | Some (cursor_obj_id, _) =>
            if negb (Nat.eqb cursor_obj_id obj_id)
            then Some (Raise AtomicTraffic, s1)
            else
              Some (((if negb (concurrency s1) then del_container obj_id
                      else ret tt) ;;
                     _set_cursor t (Some (obj_id, conn_or_pool)) ;;
                     ret (Some conn_or_pool)) s1)
          | None =>
            Some (((if negb (concurrency s1) then del_container obj_id
                    else ret tt) ;;
                   _set_cursor t (Some (obj_id, conn_or_pool)) ;;
                   ret (Some conn_or_pool)) s1)
          end
        | other => other
        end
      | Some (inl indicator) =>
        locate fuel env t (inl indicator) block timeout s
      | None =>
        (* simulate reentrant lock/borrow *)
        match ctx_cursor s t with
        | Some (_, conn_or_pool) => Some (Return (Some conn_or_pool), s)
        | None => get fuel env t block timeout false not_idle_only s
        end
      end in
    match acquired with
    | None => None
    | Some (Return (Some conn_or_pool), s1) => Some (Return conn_or_pool, s1)
    | Some (Return None, s1) =>
      Some (Raise UnavailableTraffic, snd (release t s1))
    | Some (Raise e, s1) => Some (Raise e, snd (release t s1))
    end.

(** Leaving the [async with] block: the [finally] clause. *)
Definition borrow_exit (t : task) : M unit := release t.

End AsyncTrafficPolice.

(** * Vocabulary of the properties *)

Module LowLevelResponseSpec.
Import LowLevelResponse.

(** What one [read] can draw on: the overflow buffer and, before the
    end of transmission, the frame the reader delivers next. *)
Definition available (r : t) : bytes :=
  buffer_excess r ++
  (if _eot r then []
   else match internal_read_st r with
        | Some rd => fst (fst (call rd None (_stream_id r)))
        | None => []
        end).

(** Bound on the number of reads still to come. *)
Definition reads_left (r : t) : nat :=
  length (remaining r) +
  (if _eot r then 0
   else match internal_read_st r with
        | Some rd => S (length rd)
        | None => 0
        end).

(** The response after a [read(n)], [n > 0], on an open response whose
    reader is [rd]. *)
Definition after_read (n : Z) (rd : body_reader) (r : t) : t :=
  let x := skipn (Z.to_nat n) (available r) in
  let eot' :=
    if _eot r then true else snd (fst (call rd (Some n) (_stream_id r))) in
  let rd' :=
    if _eot r then rd else snd (call rd (Some n) (_stream_id r)) in
  mk (status r) (version r) (reason r) (_method r) (Some rd')
     (eot' && (length x =? 0)) eot' (_stream_id r) x.

End LowLevelResponseSpec.

Module ResponsePromiseSpec.
Import ResponsePromise.

(** The place of a character in a string, counted from [i]. *)
Fixpoint index_from (i : N) (c : ascii) (s : string) : option N :=
  match s with
  | EmptyString => None
  | String c' s' => if Ascii.eqb c c' then Some i else index_from (i + 1) c s'
  end.

Definition b64_index (c : ascii) : option N := index_from 0 c b64_alphabet.

End ResponsePromiseSpec.

Module AsyncTrafficPoliceSpec.
Import AsyncTrafficPolice.
Local Open Scope police_scope.

(** The arbiter [s'] is [s] but for the two indicator maps. *)
Definition same_but_maps (s s' : police) : Prop :=
  s' = set_map_types (_map_types s') (set_map (_map s') s).

(** The keys of the two maps go together. *)
Definition maps_agree (s : police) : Prop :=
  Dict.keys (_map s) = Dict.keys (_map_types s).

(** The dicts of a well-formed arbiter have unique keys, an item is
    filed under its identity, and the two maps have the same keys. *)
Record well_formed (s : police) : Prop := {
  wf_registry : NoDup (Dict.keys (_registry s));
  wf_registry_ids : Forall (fun kv => fst kv = id (snd kv)) (_registry s);
  wf_container : NoDup (Dict.keys (_container s));
  wf_map : NoDup (Dict.keys (_map s));
  wf_maps_agree : maps_agree s
}.

(** An entry of the registry that [_sacrifice_first_idle] may take: the
    item is in the container and idle. *)
Definition disposable (s : police) (kv : nat * ref) : bool :=
  Dict.mem Nat.eqb (fst kv) (_container s)
  && TrafficState_eqb (state_of s (snd kv)) IDLE.

(** The arbiter once [x] is registered, if it was not. *)
Definition registered (x : ref) (s : police) : police :=
  if Dict.mem Nat.eqb (id x) (_registry s) then s
  else set_registry (Dict.set Nat.eqb (id x) x (_registry s)) s.

(** The end of [put], from [obj_id = id(conn_or_pool)] on: the item is
    registered if need be, made available or handed to the task, and
    the indicators are memorized. *)
Definition put_body (t : task) (conn_or_pool : ref)
           (traffic_indicators : list MappableTraffic)
           (immediately_unavailable : bool) : M unit :=
  let obj_id := id conn_or_pool in
  registry <- gets _registry ;;
  container <- gets _container ;;
  let registered_conn_or_pool := Dict.mem Nat.eqb obj_id registry in
  if registered_conn_or_pool && Dict.mem Nat.eqb obj_id container
  then ret tt
  else
    (if registered_conn_or_pool then
       c <- _cursor t ;;
       match c with
       | Some (taken_obj_id, _) =>
         if Nat.eqb taken_obj_id obj_id then _set_cursor t None else ret tt
       | None => ret tt
       end
     else
       modify (fun s =>
         set_registry (Dict.set Nat.eqb obj_id conn_or_pool (_registry s)) s)) ;;
    (if negb immediately_unavailable then
       container_push_front obj_id conn_or_pool
     else
       _set_cursor t (Some (obj_id, conn_or_pool)) ;;
       concurrency <- gets concurrency ;;
       if concurrency then container_push_front obj_id conn_or_pool
       else ret tt) ;;
    for_each (fun indicator => memorize t indicator (Some conn_or_pool))
             traffic_indicators.

(** A call keeps the arbiter well-formed, whatever it returns or
    raises. *)
Definition keeps {A : Type} (m : M A) : Prop :=
  forall s, well_formed s -> well_formed (snd (m s)).

(** The same for a call that waits in a loop, when it ends. *)
Definition keeps_when_done {A : Type} (b : B A) : Prop :=
  forall s r s', well_formed s -> b s = Some (r, s') -> well_formed s'.

(** What the other tasks do while a task sleeps, or closes an item,
    keeps the arbiter well-formed. *)
Definition fair (env : police -> police) : Prop :=
  forall s, well_formed s -> well_formed (env s).

(** The arbiters that calls can lead to, from a new one. *)
Inductive reachable : police -> Prop :=
| reach_init : forall maxsize concurrency world,
    reachable (__init__ maxsize concurrency world)
| reach_world : forall s world,
    reachable s -> reachable (set_objects world s)
| reach_put : forall s env t x indicators block immediately_unavailable,
    reachable s -> fair env ->
    reachable (snd (put env t x indicators block immediately_unavailable s))
| reach_release : forall s t,
    reachable s -> reachable (snd (release t s))
| reach_kill_cursor : forall s env t,
    reachable s -> fair env -> reachable (snd (kill_cursor env t s))
| reach_memorize : forall s t i conn_or_pool,
    reachable s -> reachable (snd (memorize t i conn_or_pool s))
| reach_forget : forall s i,
    reachable s -> reachable (snd (forget i s))
| reach_clear : forall s env t,
    reachable s -> fair env -> reachable (snd (clear env t s))
| reach_iter_idle : forall s t,
    reachable s -> reachable (snd (iter_idle t s))
| reach_get : forall s fuel env t block timeout nso nio r s',
    reachable s -> fair env ->
    get fuel env t block timeout nso nio s = Some (r, s') ->
    reachable s'
| reach_locate : forall s fuel env t i block timeout r s',
    reachable s -> fair env ->
    locate fuel env t i block timeout s = Some (r, s') ->
    reachable s'
| reach_borrow : forall s fuel env t i block timeout nio r s',
    reachable s -> fair env ->
    borrow_enter fuel env t i block timeout nio s = Some (r, s') ->
    reachable s'
| reach_beacon : forall s fuel env i r s',
    reachable s -> fair env ->
    beacon fuel env i s = Some (r, s') ->
    reachable s'
| reach_wait_unallocated : forall s fuel env timeout r s',
    reachable s -> fair env ->
    wait_for_unallocated_or_available_slot fuel env timeout s = Some (r, s') ->
    reachable s'
| reach_wait_idle : forall s fuel env timeout r s',
    reachable s -> fair env ->
    wait_for_idle_or_available_slot fuel env timeout s = Some (r, s') ->
    reachable s'.

End AsyncTrafficPoliceSpec.

Module AsyncTrafficPoliceTerms.
Import AsyncTrafficPolice.

(** The registry holds no more items than [maxsize] says, and one at
    most when [maxsize] is below one. *)
Definition within_capacity (s : police) : Prop :=
  forall m, maxsize s = Some m -> (len (_registry s) <= Z.max m 1)%Z.

(** The call leaves the part [f] of the arbiter as it is, whatever it
    returns or raises. *)
Definition leaves {A X : Type} (f : police -> X) (m : M A) : Prop :=
  forall s, f (snd (m s)) = f s.

(** What is under management: the registry, and the items closed so
    far. *)
Definition managed (s : police) : Dict.t nat ref * list ref :=
  (_registry s, closed s).

(** The call adds nothing to the registry, whatever it returns or
    raises, and leaves [maxsize] alone. *)
Definition registers_nothing {A : Type} (m : M A) : Prop :=
  forall s, maxsize (snd (m s)) = maxsize s
            /\ length (_registry (snd (m s))) <= length (_registry s).

(** The other tasks have no hand on the context variables of task [t]. *)
Definition private (t : task) (env : police -> police) : Prop :=
  forall s, ctx_cursor (env s) t = ctx_cursor s t
            /\ ctx_wait_clock (env s) t = ctx_wait_clock s t.

(** Idle, as [clear] and [iter_idle] test it on an entry. *)
Definition idle (s : police) (kv : nat * ref) : bool :=
  TrafficState_eqb (state_of s (snd kv)) IDLE.

(** Saturated, as [get] tests it on an entry. *)
Definition saturated (s : police) (kv : nat * ref) : bool :=
  TrafficState_eqb (state_of s (snd kv)) SATURATED.

(** The keys that [clear] plans to remove: the idle items of the
    container. *)
Definition planned_removal (s : police) : list nat :=
  map fst (filter (idle s) (_container s)).

(** The arbiter after [k] sleeps of 1 ms. *)
Fixpoint after_sleeps (k : nat) (env : police -> police) (s : police)
  : police :=
  match k with
  | O => s
  | S k' => after_sleeps k' env (asyncio_sleep env s)
  end.

(** What the [wait_for_*] loops wait for: no [maxsize], room in the
    registry, or an item that qualifies. *)
Definition has_slot (qualifies : police -> bool) (s : police) : bool :=
  match maxsize s with
  | None => true
  | Some m => (len (_registry s) <? m)%Z || qualifies s
  end.

(** The wait clock after [n] more sleeps, from [w]: [0.001] is added
    [n] times, and each sum is rounded to a float. *)
Fixpoint clock_after (n : nat) (w : float) : float :=
  match n with
  | O => w
  | S n' => clock_after n' (w + quantum)%float
  end.

(** [self._wait_clock >= timeout], the test of [get] and [locate]. *)
Definition expired (timeout w : float) : bool := (timeout <=? w)%float.

(** The number of sleeps after which a wait clock that starts at [w] has
    reached the timeout, when [fuel] sleeps are enough for that. *)
Fixpoint first_expiry (fuel : nat) (timeout w : float) : option nat :=
  match fuel with
  | O => None
  | S fuel' =>
    if expired timeout (w + quantum)%float then Some 1
    else option_map S (first_expiry fuel' timeout (w + quantum)%float)
  end.

(** The other tasks make no call on the arbiter while the caller is
    suspended: the managed objects move on, and nothing else. *)
Definition bystander (env : police -> police) : Prop :=
  forall s, env s = set_objects (objects (env s)) s.

(** The other tasks register no item while the caller is suspended. *)
Definition admits_nothing (env : police -> police) : Prop :=
  forall s, maxsize (env s) = maxsize s
            /\ length (_registry (env s)) <= length (_registry s).

(** Nothing for [get] to take: the container is empty, and the registry
    is full, so that [get] does not return [None] either. *)
Definition nothing_available (s : police) : Prop :=
  _container s = []
  /\ forall m, maxsize s = Some m -> (m <= len (_registry s))%Z.

End AsyncTrafficPoliceTerms.

(** ** Runs of calls *)

Module Runs.

(** [k] calls of [read(size)] in a row: what each one produced, in
    order, and the response they leave. *)
Fixpoint read_times (k : nat) (size : option Z) (r : LowLevelResponse.t)
  : list (outcome bytes) * LowLevelResponse.t :=
  match k with
  | O => ([], r)
  | S k' =>
    let '(o, r1) := LowLevelResponse.read size r in
    let '(os, r2) := read_times k' size r1 in
    (o :: os, r2)
  end.

End Runs.

(** * Concrete responses and arbiters, used as examples *)

Module Examples.

(** A response whose body arrives in two frames, [ab] then [cd]. *)
Definition two_frames : LowLevelResponse.t :=
  LowLevelResponse.__init__ "GET" 200 20 "OK"
           (Some [list_byte_of_string "ab"; list_byte_of_string "cd"])
           (Some 1%Z).

(** Sixteen bytes, the size of the random token. *)
Definition some_token : bytes := repeat "x"%byte 16.
Definition other_token : bytes := repeat "y"%byte 16.

(** A program that builds two promises, on streams 1 and 3, and sets a
    parameter of the first one. *)
Definition two_promises : list ResponsePromiseHeap.step :=
  [ResponsePromiseHeap.New some_token 1 1%Z [] [];
   ResponsePromiseHeap.New other_token 1 3%Z [] [];
   ResponsePromiseHeap.SetParameter 0 "start" "0"].

Import AsyncTrafficPolice.

Definition idle_item : obj :=
  {| is_idle := true; is_saturated := false; pool := None |}.
Definition used_item : obj :=
  {| is_idle := false; is_saturated := false; pool := None |}.
Definition saturated_item : obj :=
  {| is_idle := false; is_saturated := true; pool := None |}.

(** The arbiter in which task 0 has put [items] one after the other, as
    available, no other task running meanwhile; [world] is the state of
    the objects. *)
Definition arbiter_of (maxsize : option Z) (world : ref -> obj)
           (items : list ref) : police :=
  fold_left (fun s x => snd (put (fun s => s) 0 x [] false false s)) items
            (__init__ maxsize false world).

(** The arbiter after task [t] has taken an item with [get_nowait]. *)
Definition taken_by (t : task) (s : police) : police :=
  match get_nowait 1 (fun s => s) t false false s with
  | Some (_, s') => s'
  | None => s
  end.

(** One saturated connection, borrowed by task 1: a full pool. *)
Definition full_pool : police :=
  taken_by 1 (arbiter_of (Some 1%Z) (fun _ => saturated_item) [10]).

(** A task that made a connection and kept it for itself: the registry
    has room left, the container is empty, the task's cursor is set. *)
Definition holding_fresh_item : police :=
  snd (put (fun s => s) 0 10 [] false true
           (__init__ (Some 2%Z) false (fun _ => idle_item))).

(** Task 0 holds item 12; items 10 and 11 are available. *)
Definition holding_another_item : police :=
  snd (put (fun s => s) 0 12 [] false true
           (arbiter_of None (fun _ => used_item) [10; 11])).

(** The same after task 1 has called [clear]: the items are in use, none
    is closed, and the shutdown flag is set. *)
Definition shut_down_while_borrowed : police :=
  snd (clear (fun s => s) 1 holding_another_item).



(** Task 0 holds item 12, item 11 is bound to the promise 77, and task 1
    holds nothing. *)
Definition holding_with_promise : police :=
  snd (memorize 0 (Promise 77) (Some 11) holding_another_item).

(** A full arbiter on which [clear] was called while its three items
    were in use; they are idle by now. *)
Definition full_and_shut_down : police :=
  set_objects (fun _ => idle_item)
    (snd (clear (fun s => s) 0
                (arbiter_of (Some 3%Z) (fun _ => used_item) [10; 11; 12]))).


(** An arbiter that has no room at all. *)
Definition no_room_at_all : police :=
  __init__ (Some 0%Z) false (fun _ => idle_item).

End Examples.

Module MoreExamples.
Import Examples.

(** A response whose body arrives in one frame, [abcd]. *)
Definition one_frame : LowLevelResponse.t :=
  LowLevelResponse.__init__ "GET" 200 20 "OK"
           (Some [list_byte_of_string "abcd"]) (Some 1%Z).

(** The same after [read(3)]: [d] is in the overflow buffer and the
    reader has reported the end of the transmission. *)
Definition one_frame_cut : LowLevelResponse.t :=
  snd (LowLevelResponse.read (Some 3%Z) one_frame).

(** A promise with one parameter. *)
Definition some_promise : ResponsePromise.t :=
  ResponsePromise.__init__ some_token 1 1%Z []
    [("start"%string, "0"%string)].

Import AsyncTrafficPolice.

(** Item 12 is saturated, item 11 is in use, the others are idle. *)
Definition mixed_world (r : ref) : obj :=
  if Nat.eqb r 12 then saturated_item
  else if Nat.eqb r 11 then used_item
  else idle_item.

(** Items 10, 11 and 12 were put in that order: 12 is at the head of
    the container and 10 at its tail. *)
Definition mixed_pool : police := arbiter_of None mixed_world [10; 11; 12].

(** An arbiter with [concurrency] on, and item 10 available. *)
Definition shared_pool : police :=
  snd (put (fun s => s) 0 10 [] false false
           (__init__ None true (fun _ => used_item))).

(** What another task does while the caller sleeps: task 1 gives its
    item back, and the items have become idle. *)
Definition item_comes_back (s : police) : police :=
  set_objects (fun _ => idle_item) (snd (release 1 s)).

(** Task 0 holds item 12, to which the promise 77 is bound. *)
Definition promise_on_held_item : police :=
  snd (memorize 0 (Promise 77) (Some 12) holding_another_item).

(** The same after task 1 has tried to locate the promise for 2.5 ms. *)
#[local] Set Warnings "-inexact-float".
Definition after_locate_timeout : police :=
  match locate 3 (fun s => s) 1 (inl (Promise 77)) true
               (Some 0.0025%float) promise_on_held_item with
  | Some (_, s') => s'
  | None => promise_on_held_item
  end.
#[local] Set Warnings "inexact-float".

(** An arbiter with [concurrency] on and two idle items: task 1 holds
    item 10 and task 2 holds item 11, and both items are in the
    container still. *)
Definition shared_and_held : police :=
  taken_by 2
    (taken_by 1
       (fold_left (fun s x => snd (put (fun s => s) 0 x [] false false s))
                  [10; 11] (__init__ None true (fun _ => idle_item)))).

(** What another task does while the caller closes an item: task 1
    destroys the item it holds. *)
Definition another_kill (s : police) : police :=
  snd (kill_cursor (fun s => s) 1 s).

(** Two idle items in an arbiter that holds two at most. *)
Definition full_idle_pool : police :=
  arbiter_of (Some 2%Z) (fun _ => idle_item) [10; 11].

(** What another task does while the caller closes an item: task 1 puts
    the new item 14. *)
Definition another_put (s : police) : police :=
  snd (put (fun s => s) 1 14 [] false false s).

(** The same items, when only item 11 is in use. *)
Definition one_in_use : police :=
  arbiter_of None (fun r => if Nat.eqb r 11 then used_item else idle_item)
             [10; 11; 12].

End MoreExamples.

(** * Properties *)

(** ** Reading a response *)

Module LowLevelResponseFacts.
Import LowLevelResponse LowLevelResponseSpec.

Lemma slice_to_pos (n : Z) (x : bytes) :
  (0 < n)%Z -> slice_to n x = firstn (Z.to_nat n) x.
Proof.
  intros Hn. unfold slice_to.
  destruct (Z.leb_spec 0 n); [reflexivity | lia].
Qed.

Lemma slice_from_pos (n : Z) (x : bytes) :
  (0 < n)%Z -> slice_from n x = skipn (Z.to_nat n) x.
Proof.
  intros Hn. unfold slice_from.
  destruct (Z.leb_spec 0 n); [reflexivity | lia].
Qed.

(** Cutting [data] to [n] bytes, as the end of [read] does, is taking
    its first [n] bytes and keeping the others. *)
Lemma cut_to_size (n : Z) (data : bytes) (r1 : t) :
  (0 < n)%Z -> buffer_excess r1 = [] ->
  (if (n <? Z.of_nat (length data))%Z
   then (slice_to n data, set_buffer_excess (slice_from n data) r1)
   else (data, r1))
  = (firstn (Z.to_nat n) data,
     set_buffer_excess (skipn (Z.to_nat n) data) r1).
Proof.
  intros Hn Hx.
  destruct (Z.ltb_spec n (Z.of_nat (length data))) as [Hlt | Hge].
  - now rewrite slice_to_pos, slice_from_pos.
  - rewrite firstn_all2, skipn_all2 by lia.
    destruct r1; simpl in *; now subst.
Qed.

Lemma nonempty_false (x : bytes) : nonempty x = false -> x = [].
Proof. destruct x; [reflexivity | discriminate]. Qed.

Lemma read_sized_eq (r : t) (n : Z) (rd : body_reader) :
  closed r = false -> internal_read_st r = Some rd -> (0 < n)%Z ->
  read (Some n) r
  = (Return (firstn (Z.to_nat n) (available r)), after_read n rd r).
Proof.
  intros Hopen Hrd Hn.
  destruct r as [st ve re me irs cl eot sid ex]; simpl in Hopen, Hrd; subst.
  unfold read, after_read, available.
  cbn [closed internal_read_st _eot buffer_excess _stream_id status version
       reason _method].
  destruct n as [| p | p]; try lia.
  cbv iota.
  remember (Z.pos p) as n eqn:E; clear E p.
  destruct eot.
  - cbn [negb]. rewrite app_nil_r.
    rewrite !slice_to_pos, !slice_from_pos by assumption.
    assert (Hcut : (n <? Z.of_nat (length (firstn (Z.to_nat n) ex)))%Z = false).
    { apply Z.ltb_ge. rewrite length_firstn. lia. }
    rewrite Hcut. cbn [set_reader set_eot set_buffer_excess set_closed buffer_excess
              status version reason _method internal_read_st closed _eot
              _stream_id andb].
    destruct (length (skipn (Z.to_nat n) ex) =? 0); reflexivity.
  - cbn [negb].
    destruct rd as [| f [| g rest]]; cbn [call fst snd].
    all: cbn [set_reader set_eot set_buffer_excess set_closed buffer_excess
              status version reason _method internal_read_st closed _eot
              _stream_id andb].
    all: destruct (nonempty ex) eqn:Hne;
      [| apply nonempty_false in Hne; subst ex ].
    all: rewrite cut_to_size by (try assumption; reflexivity).
    all: cbn [set_reader set_eot set_buffer_excess set_closed buffer_excess
              status version reason _method internal_read_st closed _eot
              _stream_id andb]; rewrite ?app_nil_r; cbn [app].
    all: try match goal with
             | |- context [length ?l =? 0] => destruct (length l =? 0)
             end; reflexivity.
Qed.

Section AfterRead.
Variables (r : t) (n : Z) (rd : body_reader).
Hypothesis Hrd : internal_read_st r = Some rd.
Hypothesis Hn : (0 < n)%Z.

Lemma after_read_reader :
  exists rd', internal_read_st (after_read n rd r) = Some rd'.
Proof. unfold after_read; simpl; eauto. Qed.

Lemma after_read_remaining :
  remaining r
  = firstn (Z.to_nat n) (available r) ++ remaining (after_read n rd r).
Proof.
  unfold after_read, remaining, available; rewrite Hrd.
  cbn [buffer_excess _eot internal_read_st].
  set (N := Z.to_nat n).
  destruct (_eot r).
  - rewrite !app_nil_r. symmetry. apply firstn_skipn.
  - destruct rd as [| f [| g rest]]; cbn [call fst snd concat].
    all: rewrite ?app_nil_r.
    all: try (symmetry; apply firstn_skipn).
    rewrite app_assoc.
    rewrite <- (firstn_skipn N (buffer_excess r ++ f)) at 1.
    now rewrite <- app_assoc.
Qed.

Lemma after_read_closed :
  closed (after_read n rd r) = true -> remaining (after_read n rd r) = [].
Proof.
  unfold remaining, after_read.
  cbn [buffer_excess _eot internal_read_st closed].
  intros H. apply andb_prop in H as [He Hl]. rewrite He.
  apply Nat.eqb_eq in Hl. rewrite app_nil_r.
  now apply length_zero_iff_nil.
Qed.

Lemma after_read_progress :
  closed (after_read n rd r) = false ->
  reads_left (after_read n rd r) < reads_left r.
Proof.
  unfold after_read, reads_left, remaining, available; rewrite Hrd.
  cbn [buffer_excess _eot internal_read_st closed].
  set (N := Z.to_nat n). assert (0 < N) by (unfold N; lia).
  destruct (_eot r).
  - cbn [andb]. rewrite !app_nil_r. intros Hl.
    apply Nat.eqb_neq in Hl. rewrite length_skipn in *. lia.
  - destruct rd as [| f [| g rest]]; cbn [call fst snd concat andb].
    all: intros _; rewrite ?app_nil_r.
    all: rewrite ?length_app, ?length_skipn, ?length_app.
    all: cbn [length]; lia.
Qed.
End AfterRead.

(** Reading with positive sizes until the response closes ends, and
    hands out the remaining bytes, all of them and in order. *)
Lemma read_until_closed_spec (sizes : nat -> Z) :
  (forall k, 0 < sizes k)%Z ->
  forall (fuel k : nat) (r : t),
    (closed r = true -> remaining r = []) ->
    internal_read_st r <> None ->
    (closed r = false -> reads_left r < fuel) ->
    exists chunks,
      read_until_closed fuel sizes k r = Some chunks
      /\ concat chunks = remaining r.
Proof.
  intros Hn. induction fuel as [| fuel IH]; intros k r Hcl Hrd Hlt.
  { cbn [read_until_closed]. destruct (closed r) eqn:Hopen.
    - exists []. split; [reflexivity |]. symmetry; auto.
    - specialize (Hlt eq_refl). lia. }
  cbn [read_until_closed].
  destruct (closed r) eqn:Hopen.
  - exists []. split; [reflexivity |]. symmetry; auto.
  - destruct (internal_read_st r) as [rd |] eqn:Hr; [| congruence].
    rewrite (read_sized_eq r Hopen Hr (Hn k)).
    destruct (IH (S k) (after_read (sizes k) rd r)) as [chunks [Hrun Hcat]].
    + apply after_read_closed.
    + destruct (after_read_reader r (sizes k) rd) as [rd' E]. congruence.
    + intros Hc.
      pose proof (@after_read_progress r (sizes k) rd Hr (Hn k) Hc).
      specialize (Hlt eq_refl). lia.
    + rewrite Hrun. eexists; split; [reflexivity |].
      cbn [concat]. rewrite Hcat. symmetry.
      now apply after_read_remaining.
Qed.

(** Whatever the number of calls allowed, a run that reaches the end
    has handed out the remaining bytes. *)
Lemma read_until_closed_sound (sizes : nat -> Z) :
  (forall k, 0 < sizes k)%Z ->
  forall (fuel k : nat) (r : t) (chunks : list bytes),
    (closed r = true -> remaining r = []) ->
    internal_read_st r <> None ->
    read_until_closed fuel sizes k r = Some chunks ->
    concat chunks = remaining r.
Proof.
  intros Hn. induction fuel as [| fuel IH]; intros k r chunks Hcl Hrd;
    cbn [read_until_closed]; destruct (closed r) eqn:Hopen.
  - intros [= <-]. symmetry; auto.
  - discriminate.
  - intros [= <-]. symmetry; auto.
  - destruct (internal_read_st r) as [rd |] eqn:Hr; [| congruence].
    rewrite (read_sized_eq r Hopen Hr (Hn k)).
    destruct (read_until_closed fuel sizes (S k) (after_read (sizes k) rd r))
      as [l |] eqn:Hrun; [| discriminate].
    intros [= <-]. cbn [concat].
    destruct (after_read_reader r (sizes k) rd) as [rd' E].
    rewrite (IH (S k) (after_read (sizes k) rd r) l);
      [| | congruence | assumption].
    + symmetry. now apply after_read_remaining.
    + apply after_read_closed.
Qed.

(** A response just built from a body has all of it left to read. *)
Lemma remaining_init (method : string) (status version : Z) (reason : string)
      (frames : body_reader) (stream_id : option Z) :
  remaining (__init__ method status version reason (Some frames) stream_id)
  = concat frames.
Proof. reflexivity. Qed.

End LowLevelResponseFacts.

(** ** Promise identifiers *)

Module ResponsePromiseFacts.
Import ResponsePromise ResponsePromiseSpec.

Lemma b64_index_char (n : N) :
  (n < 64)%N -> b64_index (b64_char n) = Some n.
Proof.
  intros Hn.
  assert (Hall : forallb (fun m => match b64_index (b64_char m) with
                                   | Some k => N.eqb k m
                                   | None => false
                                   end)
                         (map N.of_nat (seq 0 64)) = true)
    by (vm_compute; reflexivity).
  rewrite forallb_forall in Hall. specialize (Hall n).
  destruct (b64_index (b64_char n)) as [k |].
  - f_equal. apply N.eqb_eq, Hall.
    apply in_map_iff. exists (N.to_nat n). split; [apply N2Nat.id |].
    apply in_seq. lia.
  - assert (false = true); [| discriminate].
    apply Hall. apply in_map_iff. exists (N.to_nat n).
    split; [apply N2Nat.id |]. apply in_seq. lia.
Qed.

Lemma b64_char_inj (n m : N) :
  (n < 64)%N -> (m < 64)%N -> b64_char n = b64_char m -> n = m.
Proof.
  intros Hn Hm H. apply b64_index_char in Hn, Hm.
  rewrite H in Hn. congruence.
Qed.

(** A digit is never the padding character. *)
Lemma b64_char_not_pad (n : N) : (n < 64)%N -> b64_char n <> "="%char.
Proof.
  intros Hn H. apply b64_index_char in Hn. rewrite H in Hn.
  vm_compute in Hn. discriminate.
Qed.

Lemma list_ind3 (A : Type) (P : list A -> Prop) :
  P [] -> (forall a, P [a]) -> (forall a b, P [a; b]) ->
  (forall a b c l, P l -> P (a :: b :: c :: l)) ->
  forall l, P l.
Proof.
  intros H0 H1 H2 H3.
  refine (fix go l := match l with
                      | [] => H0
                      | [a] => H1 a
                      | [a; b] => H2 a b
                      | a :: b :: c :: l' => H3 a b c l' (go l')
                      end).
Qed.

Lemma to_N_inj (a b : byte) : Byte.to_N a = Byte.to_N b -> a = b.
Proof.
  intros H. pose proof (Byte.of_to_N a) as Ha.
  rewrite H, Byte.of_to_N in Ha. congruence.
Qed.

Ltac byte_bounds :=
  repeat match goal with
         | x : byte |- _ =>
           lazymatch goal with
           | _ : (Byte.to_N x <= 255)%N |- _ => fail
           | _ => pose proof (Byte.to_N_bounded x)
           end
         end.

Ltac euclid := zify; Z.to_euclidean_division_equations; lia.

(** Two bytes with the same digits are the same byte. *)
Lemma same_first_byte (x x' y y' : N) :
  (y <= 255 -> y' <= 255 ->
   x / 4 = x' / 4 ->
   x mod 4 * 16 + y / 16 = x' mod 4 * 16 + y' / 16 ->
   x = x' /\ y / 16 = y' / 16)%N.
Proof. intros. euclid. Qed.

Lemma same_second_byte (y y' z z' : N) :
  (z <= 255 -> z' <= 255 ->
   y / 16 = y' / 16 ->
   y mod 16 * 4 + z / 64 = y' mod 16 * 4 + z' / 64 ->
   y = y' /\ z / 64 = z' / 64)%N.
Proof. intros. euclid. Qed.

Lemma same_third_byte (z z' : N) :
  (z / 64 = z' / 64 -> z mod 64 = z' mod 64 -> z = z')%N.
Proof. intros. euclid. Qed.

(** Distinct byte strings have distinct encodings. *)
Lemma b64encode_inj : forall l1 l2 : bytes,
  b64encode l1 = b64encode l2 -> l1 = l2.
Proof.
  induction l1 as [| a | a b | a b c l1 IH] using list_ind3;
    intros [| a' [| b' [| c' l2]]]; cbn [b64encode]; intros H;
    try discriminate; try reflexivity.
  all: injection H; clear H; intros; byte_bounds.
  (* a padding character facing a digit *)
  all: try match goal with
           | H : "="%char = b64_char _ |- _ =>
             exfalso; symmetry in H; revert H; apply b64_char_not_pad; euclid
           | H : b64_char _ = "="%char |- _ =>
             exfalso; revert H; apply b64_char_not_pad; euclid
           end.
  (* digits facing digits *)
  all: repeat match goal with
              | H : b64_char _ = b64_char _ |- _ =>
                apply b64_char_inj in H; [| euclid | euclid]
              end.
  - f_equal. apply to_N_inj.
    apply (@same_first_byte (Byte.to_N a) (Byte.to_N a') 0 0)%N;
      try assumption; try discriminate.
    now rewrite !N.add_0_r.
  - destruct (@same_first_byte (Byte.to_N a) (Byte.to_N a')
                               (Byte.to_N b) (Byte.to_N b'))
      as [Ea Eb]; try assumption.
    destruct (@same_second_byte (Byte.to_N b) (Byte.to_N b') 0 0)%N
      as [Eb' _]; try assumption; try discriminate.
    { now rewrite !N.add_0_r. }
    apply to_N_inj in Ea, Eb'. now subst.
  - destruct (@same_first_byte (Byte.to_N a) (Byte.to_N a')
                               (Byte.to_N b) (Byte.to_N b'))
      as [Ea Eb]; try assumption.
    destruct (@same_second_byte (Byte.to_N b) (Byte.to_N b')
                                (Byte.to_N c) (Byte.to_N c'))
      as [Eb' Ec]; try assumption.
    assert (Ec' : Byte.to_N c = Byte.to_N c')
      by (apply same_third_byte; assumption).
    apply to_N_inj in Ea, Eb', Ec'. subst.
    f_equal. f_equal. f_equal. auto.
Qed.

End ResponsePromiseFacts.

(** ** Ordered dictionaries *)

Module DictFacts.
Section KeyEq.
Variables (K V : Type) (eqb : K -> K -> bool).
Hypothesis eqb_eq : forall a b, eqb a b = true <-> a = b.

Implicit Types (k : K) (v : V) (d : Dict.t K V).

Lemma eqb_refl k : eqb k k = true.
Proof. now apply eqb_eq. Qed.

Lemma eqb_neq k k' : k <> k' -> eqb k k' = false.
Proof.
intros H. destruct (eqb k k') eqn:E; [| reflexivity].
apply eqb_eq in E. contradiction.
Qed.

Lemma get_none k d : Dict.get eqb k d = None <-> ~ In k (Dict.keys d).
Proof.
induction d as [| [k' v'] d IH]; simpl.
- tauto.
- destruct (eqb k k') eqn:E.
+ apply eqb_eq in E. subst. split; [discriminate | tauto].
+ rewrite IH. split.
  * intros H [H' | H']; [| tauto].
    subst. rewrite eqb_refl in E. discriminate.
  * tauto.
Qed.

Lemma mem_false k d : Dict.mem eqb k d = false <-> ~ In k (Dict.keys d).
Proof.
rewrite <- get_none. unfold Dict.mem.
destruct (Dict.get eqb k d); split; congruence.
Qed.

Lemma mem_true k d : Dict.mem eqb k d = true <-> In k (Dict.keys d).
Proof.
induction d as [| [k' v'] d IH]; unfold Dict.mem in *; simpl.
- split; [discriminate | tauto].
- destruct (eqb k k') eqn:E.
+ apply eqb_eq in E. subst. tauto.
+ rewrite IH. split; [tauto |].
  intros [H | H]; [| assumption].
  subst. rewrite eqb_refl in E. discriminate.
Qed.

Lemma mem_get k d :
Dict.mem eqb k d = true -> exists v, Dict.get eqb k d = Some v.
Proof.
unfold Dict.mem. destruct (Dict.get eqb k d); [eauto | discriminate].
Qed.

Lemma get_in k v d : Dict.get eqb k d = Some v -> In (k, v) d.
Proof.
induction d as [| [k' v'] d IH]; simpl; [discriminate |].
destruct (eqb k k') eqn:E.
- apply eqb_eq in E. intros [= ->]. subst. now left.
- auto.
Qed.

(** A new key goes last. *)
Lemma set_fresh k v d :
~ In k (Dict.keys d) -> Dict.set eqb k v d = d ++ [(k, v)].
Proof.
induction d as [| [k' v'] d IH]; simpl; intros H; [reflexivity |].
rewrite eqb_neq by (intros ->; tauto).
rewrite IH by tauto. reflexivity.
Qed.

Lemma get_set_same k v d : Dict.get eqb k (Dict.set eqb k v d) = Some v.
Proof.
induction d as [| [k' v'] d IH]; simpl.
- now rewrite eqb_refl.
- destruct (eqb k k') eqn:E; simpl; rewrite E; auto.
Qed.

Lemma get_set_other k k' v d :
k <> k' -> Dict.get eqb k' (Dict.set eqb k v d) = Dict.get eqb k' d.
Proof.
intros Hne. induction d as [| [k0 v0] d IH]; simpl.
- rewrite eqb_neq by congruence. reflexivity.
- destruct (eqb k k0) eqn:E; simpl.
+ apply eqb_eq in E. subst.
  rewrite (eqb_neq (k:=k') (k':=k0)) by congruence. reflexivity.
+ now rewrite IH.
Qed.

Lemma keys_set k v d :
Dict.keys (Dict.set eqb k v d)
= if Dict.mem eqb k d then Dict.keys d else Dict.keys d ++ [k].
Proof.
unfold Dict.mem.
induction d as [| [k0 v0] d IH]; simpl; [reflexivity |].
destruct (eqb k k0) eqn:E; simpl; [reflexivity |].
rewrite IH. now destruct (Dict.get eqb k d).
Qed.

(** Folding a dict with fresh keys into another appends it. *)
Lemma update_fresh d1 d2 :
NoDup (Dict.keys d2) ->
(forall k, In k (Dict.keys d2) -> ~ In k (Dict.keys d1)) ->
Dict.update eqb d1 d2 = d1 ++ d2.
Proof.
unfold Dict.update. revert d1.
induction d2 as [| [k v] d2 IH]; simpl; intros d1 Hnd Hfresh.
- now rewrite app_nil_r.
- inversion Hnd as [| ? ? Hk Hnd']; subst.
rewrite set_fresh by (apply Hfresh; now left).
rewrite IH; [now rewrite <- app_assoc | assumption |].
intros k' Hin. unfold Dict.keys. rewrite map_app, in_app_iff. simpl.
intros [H | [H | []]].
+ now apply (Hfresh k'); [right |].
+ subst. contradiction.
Qed.

(** [popitem] takes the pair at the end. *)
Lemma popitem_snoc d kv : Dict.popitem (d ++ [kv]) = Some (kv, d).
Proof.
induction d as [| x d IH]; simpl; [reflexivity |].
rewrite IH. destruct (d ++ [kv]) eqn:E; [| reflexivity].
destruct d; discriminate.
Qed.

Lemma popitem_last d kv0 :
d <> [] -> Dict.popitem d = Some (last d kv0, removelast d).
Proof.
intros H. destruct (exists_last H) as [d' [kv ->]].
now rewrite popitem_snoc, last_last, removelast_last.
Qed.

Lemma remove_fresh k d : ~ In k (Dict.keys d) -> Dict.remove eqb k d = d.
Proof.
induction d as [| [k' v'] d IH]; simpl; intros H; [reflexivity |].
rewrite eqb_neq by (intros ->; tauto). rewrite IH by tauto. reflexivity.
Qed.

Lemma remove_middle k v l1 l2 :
~ In k (Dict.keys l1) ->
Dict.remove eqb k (l1 ++ (k, v) :: l2) = l1 ++ l2.
Proof.
induction l1 as [| [k' v'] l1 IH]; simpl; intros H.
- now rewrite eqb_refl.
- rewrite eqb_neq by (intros ->; tauto). rewrite IH by tauto. reflexivity.
Qed.

Lemma get_middle k v l1 l2 :
~ In k (Dict.keys l1) ->
Dict.get eqb k (l1 ++ (k, v) :: l2) = Some v.
Proof.
induction l1 as [| [k' v'] l1 IH]; simpl; intros H.
- now rewrite eqb_refl.
- rewrite eqb_neq by (intros ->; tauto). apply IH. tauto.
Qed.

Lemma keys_remove_incl k d k' :
In k' (Dict.keys (Dict.remove eqb k d)) -> In k' (Dict.keys d).
Proof.
induction d as [| [k0 v0] d IH]; simpl; [tauto |].
destruct (eqb k k0); simpl; tauto.
Qed.

Lemma remove_nodup k d :
NoDup (Dict.keys d) -> NoDup (Dict.keys (Dict.remove eqb k d)).
Proof.
induction d as [| [k0 v0] d IH]; simpl; intros H; [constructor |].
inversion H; subst.
destruct (eqb k k0); simpl; [assumption |].
constructor; [| auto].
intros Hin. apply keys_remove_incl in Hin. contradiction.
Qed.

Lemma get_remove_same k d :
NoDup (Dict.keys d) -> Dict.get eqb k (Dict.remove eqb k d) = None.
Proof.
induction d as [| [k0 v0] d IH]; simpl; intros H; [reflexivity |].
inversion H; subst.
destruct (eqb k k0) eqn:E; simpl.
- apply eqb_eq in E. subst. now apply get_none.
- rewrite E. auto.
Qed.

Lemma get_remove_other k k' d :
k <> k' -> Dict.get eqb k' (Dict.remove eqb k d) = Dict.get eqb k' d.
Proof.
intros Hne. induction d as [| [k0 v0] d IH]; simpl; [reflexivity |].
destruct (eqb k k0) eqn:E; simpl.
- apply eqb_eq in E. subst. rewrite eqb_neq by congruence. reflexivity.
- now rewrite IH.
Qed.

Lemma keys_remove k d :
NoDup (Dict.keys d) ->
Dict.keys (Dict.remove eqb k d)
= filter (fun k' => negb (eqb k k')) (Dict.keys d).
Proof.
induction d as [| [k0 v0] d IH]; simpl; intros H; [reflexivity |].
inversion H as [| ? ? Hk Hnd]; subst.
destruct (eqb k k0) eqn:E; simpl.
- apply eqb_eq in E. subst.
symmetry. apply forallb_filter_id. apply forallb_forall.
intros x Hx. rewrite eqb_neq; [reflexivity |]. intros ->. contradiction.
- now rewrite IH.
Qed.

Lemma set_nodup k v d :
  NoDup (Dict.keys d) -> NoDup (Dict.keys (Dict.set eqb k v d)).
Proof.
  intros H. rewrite keys_set.
  destruct (Dict.mem eqb k d) eqn:E; [assumption |].
  apply mem_false in E.
  apply NoDup_app; [assumption | repeat constructor; intros [] |].
  intros a Ha [<- | []]. contradiction.
Qed.

Lemma update_nodup d2 : forall d1,
  NoDup (Dict.keys d1) -> NoDup (Dict.keys (Dict.update eqb d1 d2)).
Proof.
  unfold Dict.update.
  induction d2 as [| [k v] d2 IH]; simpl; intros d1 H; [assumption |].
  apply IH. now apply set_nodup.
Qed.

Lemma popitem_some d : forall kv rest,
  Dict.popitem d = Some (kv, rest) -> d = rest ++ [kv].
Proof.
  induction d as [| x d IH]; intros kv rest; [discriminate |].
  cbn [Dict.popitem]. destruct d as [| y d].
  - now intros [= <- <-].
  - destruct (Dict.popitem (y :: d)) as [[last rest'] |] eqn:E;
      [| discriminate].
    intros [= <- <-]. cbn [app]. f_equal. now apply IH.
Qed.

Lemma popitem_nodup d kv rest :
  Dict.popitem d = Some (kv, rest) ->
  NoDup (Dict.keys d) -> NoDup (Dict.keys rest).
Proof.
  intros H Hnd. apply popitem_some in H. subst d.
  unfold Dict.keys in *. rewrite map_app in Hnd.
  now apply NoDup_app_remove_r in Hnd.
Qed.

End KeyEq.
End DictFacts.

(** ** The traffic police *)

Module AsyncTrafficPoliceFacts.
Import AsyncTrafficPolice AsyncTrafficPoliceSpec.
Local Open Scope police_scope.

Lemma PoolKey_eqb_eq (a b : PoolKey) : PoolKey_eqb a b = true <-> a = b.
Proof.
  unfold PoolKey_eqb. destruct a as [s1 h1 p1], b as [s2 h2 p2]; simpl.
  rewrite !andb_true_iff, !String.eqb_eq, Z.eqb_eq.
  split.
  - intros [[-> ->] ->]. reflexivity.
  - intros [= -> -> ->]. auto.
Qed.

Lemma key_eqb_eq (a b : key) : key_eqb a b = true <-> a = b.
Proof.
  destruct a as [n | k], b as [m | l]; simpl.
  - rewrite Nat.eqb_eq. split; [congruence | intros [= ->]; reflexivity].
  - split; discriminate.
  - split; discriminate.
  - rewrite PoolKey_eqb_eq. split; [congruence | intros [= ->]; reflexivity].
Qed.

(** The monad's operations, unfolded in one go; the fields of an
    updated arbiter, read off. *)
Ltac unfold_monad :=
  cbv [bind ret raise gets modify _cursor _wait_clock
       _set_cursor _set_wait_clock close container_push_front
       del_registry del_container del_map del_map_types].

Ltac fields :=
  cbn [maxsize concurrency _registry _container _map _map_types _shutdown
       ctx_cursor ctx_wait_clock objects closed sleeps
       set_registry set_container set_map set_map_types set_shutdown
       set_ctx_cursor set_ctx_wait_clock set_closed set_sleeps set_objects
       fst snd].

Ltac fields_in H :=
  cbn [maxsize concurrency _registry _container _map _map_types _shutdown
       ctx_cursor ctx_wait_clock objects closed sleeps
       set_registry set_container set_map set_map_types set_shutdown
       set_ctx_cursor set_ctx_wait_clock set_closed set_sleeps set_objects
       fst snd] in H.

Lemma same_but_maps_refl (s : police) : same_but_maps s s.
Proof. destruct s; reflexivity. Qed.

Lemma same_but_maps_trans (s1 s2 s3 : police) :
  same_but_maps s1 s2 -> same_but_maps s2 s3 -> same_but_maps s1 s3.
Proof.
  unfold same_but_maps. intros H12 H23.
  rewrite H23 at 1. rewrite H12 at 1. destruct s1; reflexivity.
Qed.

(** Memorizing an indicator for a registered item cannot fail: both
    maps get the key. *)
Lemma memorize_registered (t : task) (i : MappableTraffic) (conn : ref)
      (s : police) :
  Dict.mem Nat.eqb (id conn) (_registry s) = true ->
  memorize t i (Some conn) s
  = (Return tt,
     set_map_types
       (Dict.set key_eqb (key_of i) (type_of i) (_map_types s))
       (set_map (Dict.set key_eqb (key_of i) conn (_map s)) s)).
Proof.
  intros H. unfold memorize. unfold_monad. rewrite H. reflexivity.
Qed.

Lemma keys_set_agree (V W : Type) (k : key) (v : V) (w : W)
      (d : Dict.t key V) (e : Dict.t key W) :
  Dict.keys d = Dict.keys e ->
  Dict.keys (Dict.set key_eqb k v d) = Dict.keys (Dict.set key_eqb k w e).
Proof.
  revert e. induction d as [| [k1 v1] d IH]; intros [| [k2 w2] e]; simpl;
    try discriminate; [reflexivity |].
  intros [= -> H]. destruct (key_eqb k k2); simpl; [congruence |].
  f_equal. auto.
Qed.

Lemma keys_remove_agree (V W : Type) (k : key)
      (d : Dict.t key V) (e : Dict.t key W) :
  Dict.keys d = Dict.keys e ->
  Dict.keys (Dict.remove key_eqb k d) = Dict.keys (Dict.remove key_eqb k e).
Proof.
  revert e. induction d as [| [k1 v1] d IH]; intros [| [k2 w2] e]; simpl;
    try discriminate; [reflexivity |].
  intros [= -> H]. destruct (key_eqb k k2); simpl; [congruence |].
  f_equal. auto.
Qed.

Lemma mem_agree (V W : Type) (k : key)
      (d : Dict.t key V) (e : Dict.t key W) :
  Dict.keys d = Dict.keys e ->
  Dict.mem key_eqb k d = Dict.mem key_eqb k e.
Proof.
  unfold Dict.mem.
  revert e. induction d as [| [k1 v1] d IH]; intros [| [k2 w2] e]; simpl;
    try discriminate; [reflexivity |].
  intros [= -> H]. destruct (key_eqb k k2); auto.
Qed.

(** Memorizing a list of indicators for a registered item: only the
    maps change, their keys still agree, and a key is bound to [conn]
    or as it was. *)
Lemma memorize_all (t : task) (conn : ref) (inds : list MappableTraffic) :
  forall s : police,
    Dict.mem Nat.eqb (id conn) (_registry s) = true ->
    exists s',
      for_each (fun i => memorize t i (Some conn)) inds s = (Return tt, s')
      /\ same_but_maps s s'
      /\ (maps_agree s -> maps_agree s')
      /\ (forall k v, Dict.get key_eqb k (_map s') = Some v ->
                      v = conn \/ Dict.get key_eqb k (_map s) = Some v).
Proof.
  induction inds as [| i inds IH]; intros s Hreg; simpl.
  - exists s. unfold_monad.
    repeat split; auto using same_but_maps_refl.
  - unfold bind at 1. rewrite memorize_registered by assumption.
    set (s1 := set_map_types _ _).
    destruct (IH s1) as [s' [Hrun [Hsame [Hagree Hval]]]];
      [exact Hreg |].
    exists s'. split; [exact Hrun |]. split; [| split].
    + eapply same_but_maps_trans; [| exact Hsame].
      unfold same_but_maps, s1. destruct s; reflexivity.
    + intros Ha. apply Hagree. unfold maps_agree, s1; simpl.
      now apply keys_set_agree.
    + intros k v Hk. destruct (Hval k v Hk) as [-> | Hk1]; [now left |].
      unfold s1 in Hk1; simpl in Hk1.
      destruct (key_eqb (key_of i) k) eqn:E.
      * apply key_eqb_eq in E. subst k.
        rewrite (DictFacts.get_set_same key_eqb key_eqb_eq) in Hk1.
        left. congruence.
      * right.
        rewrite (DictFacts.get_set_other key_eqb key_eqb_eq) in Hk1;
          [assumption |].
        intros Heq. apply key_eqb_eq in Heq. congruence.
Qed.

Lemma well_formed_init (maxsize : option Z) (concurrency : bool)
      (world : ref -> obj) :
  well_formed (__init__ maxsize concurrency world).
Proof. split; simpl; constructor. Qed.

(** Membership after [d1.update(d2)]. *)
Lemma mem_set (k k' : nat) (v : ref) (d : Dict.t nat ref) :
  Dict.mem Nat.eqb k' (Dict.set Nat.eqb k v d)
  = Nat.eqb k' k || Dict.mem Nat.eqb k' d.
Proof.
  unfold Dict.mem. destruct (Nat.eqb_spec k' k) as [-> | Hne].
  - now rewrite (DictFacts.get_set_same Nat.eqb Nat.eqb_eq).
  - rewrite (DictFacts.get_set_other Nat.eqb Nat.eqb_eq) by congruence.
    reflexivity.
Qed.

Lemma mem_update (k' : nat) (d2 d1 : Dict.t nat ref) :
  Dict.mem Nat.eqb k' (Dict.update Nat.eqb d1 d2)
  = Dict.mem Nat.eqb k' d1 || Dict.mem Nat.eqb k' d2.
Proof.
  unfold Dict.update. revert d1.
  induction d2 as [| [k v] d2 IH]; intros d1; simpl.
  - now rewrite orb_false_r.
  - rewrite IH, mem_set. unfold Dict.mem at 4. simpl.
    destruct (Nat.eqb k' k); simpl.
    + now rewrite orb_true_r.
    + reflexivity.
Qed.

(** Deleting a list of known keys from both maps. *)
Lemma forget_keys (ks : list key) :
  forall s : police,
    maps_agree s -> NoDup (Dict.keys (_map s)) -> NoDup ks ->
    (forall k, In k ks -> In k (Dict.keys (_map s))) ->
    exists s',
      for_each (fun k => del_map k ;; del_map_types k) ks s = (Return tt, s')
      /\ same_but_maps s s'
      /\ maps_agree s'
      /\ NoDup (Dict.keys (_map s'))
      /\ (forall k, In k ks -> Dict.get key_eqb k (_map s') = None)
      /\ (forall k, ~ In k ks ->
                    Dict.get key_eqb k (_map s') = Dict.get key_eqb k (_map s)).
Proof.
  induction ks as [| k ks IH]; intros s Hag Hnd Hks Hin; cbn [for_each].
  - exists s. unfold_monad.
    repeat split; auto using same_but_maps_refl. intros k [].
  - assert (Hk : Dict.mem key_eqb k (_map s) = true)
      by (apply (DictFacts.mem_true key_eqb key_eqb_eq); apply Hin; now left).
    assert (Hk' : Dict.mem key_eqb k (_map_types s) = true)
      by (now rewrite <- (@mem_agree _ _ k _ _ Hag)).
    apply (DictFacts.mem_get) in Hk as [v Hv], Hk' as [w Hw].
    set (s1 := set_map_types (Dict.remove key_eqb k (_map_types s))
                 (set_map (Dict.remove key_eqb k (_map s)) s)).
    inversion Hks as [| ? ? Hk Hks']; subst.
    destruct (IH s1) as [s' [Hrun [Hsame [Hag' [Hnd' [Hgone Hkept]]]]]].
    + unfold maps_agree, s1; simpl. now apply keys_remove_agree.
    + unfold s1; simpl. now apply (DictFacts.remove_nodup).
    + assumption.
    + intros k' Hk'. unfold s1; simpl.
      apply (DictFacts.mem_true key_eqb key_eqb_eq).
      unfold Dict.mem.
      rewrite (DictFacts.get_remove_other key_eqb key_eqb_eq)
        by (intros ->; contradiction).
      apply (DictFacts.mem_true key_eqb key_eqb_eq). apply Hin. now right.
    + exists s'. split.
      * unfold_monad. unfold Dict.del. rewrite Hv. fields.
        rewrite Hw. exact Hrun.
      * split; [| split; [| split; [| split]]]; try assumption.
        -- intros k' [<- | Hk'].
           ++ rewrite Hkept by assumption. unfold s1; simpl.
              now apply (DictFacts.get_remove_same key_eqb key_eqb_eq).
           ++ now apply Hgone.
        -- intros k' Hk'. simpl in Hk'.
           rewrite Hkept by tauto. unfold s1; simpl.
           apply (DictFacts.get_remove_other key_eqb key_eqb_eq). tauto.
Qed.

Lemma same_but_maps_fields (s s' : police) :
  same_but_maps s s' ->
  maxsize s' = maxsize s /\ concurrency s' = concurrency s
  /\ _registry s' = _registry s /\ _container s' = _container s
  /\ _shutdown s' = _shutdown s /\ ctx_cursor s' = ctx_cursor s
  /\ ctx_wait_clock s' = ctx_wait_clock s /\ objects s' = objects s
  /\ closed s' = closed s /\ sleeps s' = sleeps s.
Proof. unfold same_but_maps. intros ->. repeat split. Qed.

Lemma key_eq_dec (a b : key) : {a = b} + {a <> b}.
Proof.
  destruct (key_eqb a b) eqn:E.
  - left. now apply key_eqb_eq.
  - right. intros H. apply key_eqb_eq in H. congruence.
Qed.

Lemma NoDup_keys_filter (V : Type) (p : key * V -> bool) (d : Dict.t key V) :
  NoDup (Dict.keys d) -> NoDup (Dict.keys (filter p d)).
Proof.
  induction d as [| kv d IH]; simpl; intros H; [constructor |].
  inversion H as [| ? ? Hk Hd]; subst.
  destruct (p kv); simpl; [| auto].
  constructor; [| auto].
  intros Hin. apply Hk. unfold Dict.keys in *.
  apply in_map_iff in Hin as [x [Hx Hin]]. apply filter_In in Hin as [Hin _].
  apply in_map_iff. eauto.
Qed.

(** [_map_clear] of a registered item: the keys bound to it leave both
    maps, the other bindings stay. *)
Lemma map_clear_registered (r : ref) (s : police) :
  maps_agree s -> NoDup (Dict.keys (_map s)) ->
  Dict.mem Nat.eqb (id r) (_registry s) = true ->
  exists s',
    _map_clear r s = (Return tt, s')
    /\ same_but_maps s s'
    /\ maps_agree s'
    /\ NoDup (Dict.keys (_map s'))
    /\ (forall k v, Dict.get key_eqb k (_map s') = Some v ->
                    v <> r /\ Dict.get key_eqb k (_map s) = Some v).
Proof.
  intros Hag Hnd Hreg.
  set (ks := map fst (filter (fun kv => Nat.eqb (id (snd kv)) (id r)) (_map s))).
  destruct (@forget_keys ks s Hag Hnd)
    as [s' [Hrun [Hsame [Hag' [Hnd' [Hgone Hkept]]]]]].
  - now apply NoDup_keys_filter.
  - intros k Hk. unfold ks in Hk. apply in_map_iff in Hk as [kv [<- Hkv]].
    apply filter_In in Hkv as [Hkv _]. now apply in_map.
  - exists s'. split.
    + unfold _map_clear. unfold bind at 1. unfold gets at 1.
      rewrite Hreg. cbn [negb]. exact Hrun.
    + repeat split; try assumption.
      * intros ->. destruct (in_dec key_eq_dec k ks) as [Hin | Hout].
        -- rewrite Hgone in H by assumption. discriminate.
        -- rewrite Hkept in H by assumption.
           apply Hout. unfold ks.
           apply (DictFacts.get_in key_eqb key_eqb_eq) in H.
           apply in_map_iff. exists (k, r). split; [reflexivity |].
           apply filter_In. split; [assumption |]. apply Nat.eqb_refl.
      * destruct (in_dec key_eq_dec k ks) as [Hin | Hout].
        -- rewrite Hgone in H by assumption. discriminate.
        -- now rewrite Hkept in H.
Qed.


(** [put] on an arbiter that is not shut down. *)
Lemma put_running (env : police -> police) (t : task) (x : ref)
      (inds : list MappableTraffic) (block iu : bool) (s : police) :
  _shutdown s = false ->
  put env t x inds block iu s
  = ((match maxsize s with
      | Some m =>
        if (m <=? len (_registry s))%Z
           && negb (Dict.mem Nat.eqb (id x) (_registry s))
        then _sacrifice_first_idle env
        else ret tt
      | None => ret tt
      end) ;; put_body t x inds iu) s.
Proof.
  intros H. unfold put. unfold bind at 1. unfold gets at 1. rewrite H.
  reflexivity.
Qed.

(** [put] on an arbiter that is shut down. *)
Lemma put_shut_down (env : police -> police) (t : task) (x : ref)
      (inds : list MappableTraffic) (block iu : bool) (s : police) :
  _shutdown s = true ->
  put env t x inds block iu s
  = (kill_cursor env t ;;
     registry <- gets _registry ;;
     if (len registry =? 0)%Z then modify (set_shutdown false) else ret tt) s.
Proof.
  intros H. unfold put. unfold bind at 1. unfold gets at 1. rewrite H.
  reflexivity.
Qed.

Lemma mem_remove_same (k : nat) (d : Dict.t nat ref) :
  NoDup (Dict.keys d) ->
  Dict.mem Nat.eqb k (Dict.remove Nat.eqb k d) = false.
Proof.
  intros H. unfold Dict.mem.
  now rewrite (DictFacts.get_remove_same Nat.eqb Nat.eqb_eq).
Qed.

Lemma mem_remove_other (k k' : nat) (d : Dict.t nat ref) :
  k <> k' ->
  Dict.mem Nat.eqb k' (Dict.remove Nat.eqb k d) = Dict.mem Nat.eqb k' d.
Proof.
  intros H. unfold Dict.mem.
  now rewrite (DictFacts.get_remove_other Nat.eqb Nat.eqb_eq).
Qed.

(** Putting a fresh key in front of a dict. *)
Lemma push_front_fresh (k : nat) (v : ref) (d : Dict.t nat ref) :
  NoDup (Dict.keys d) -> Dict.mem Nat.eqb k d = false ->
  Dict.update Nat.eqb [(k, v)] d = (k, v) :: d.
Proof.
  intros Hnd Hk.
  apply (DictFacts.update_fresh Nat.eqb Nat.eqb_eq [(k, v)] d Hnd).
  intros k' Hin [<- | []].
  apply (DictFacts.mem_false Nat.eqb Nat.eqb_eq) in Hk. contradiction.
Qed.

Lemma registered_mem (x : ref) (s : police) :
  Dict.mem Nat.eqb (id x) (_registry (registered x s)) = true.
Proof.
  unfold registered. destruct (Dict.mem Nat.eqb (id x) (_registry s)) eqn:E.
  - exact E.
  - cbn [_registry set_registry]. rewrite mem_set, Nat.eqb_refl. reflexivity.
Qed.

(** Admitting, as available, an item that is not in the container, for a
    task that holds nothing: the item goes to the head of the container. *)
Lemma put_body_available (t : task) (x : ref) (inds : list MappableTraffic)
      (s : police) :
  ctx_cursor s t = None ->
  Dict.mem Nat.eqb (id x) (_container s) = false ->
  NoDup (Dict.keys (_container s)) ->
  exists s',
    put_body t x inds false s = (Return tt, s')
    /\ same_but_maps
         (set_container ((id x, x) :: _container s) (registered x s)) s'
    /\ (maps_agree s -> maps_agree s')
    /\ (forall k v, Dict.get key_eqb k (_map s') = Some v ->
                    v = x \/ Dict.get key_eqb k (_map s) = Some v).
Proof.
  intros Hcur Hfresh Hnd.
  set (s1 := set_container ((id x, x) :: _container s) (registered x s)).
  destruct (@memorize_all t x inds s1) as [s' [Hrun [Hsame [Hag Hval]]]].
  { unfold s1. cbn [_registry set_container]. apply registered_mem. }
  exists s'. split; [| split; [exact Hsame | split]].
  - unfold put_body. unfold_monad. rewrite Hfresh, andb_false_r.
    unfold registered in s1.
    destruct (Dict.mem Nat.eqb (id x) (_registry s)) eqn:Hreg.
    + rewrite Hcur. cbn [negb]. fields.
      rewrite push_front_fresh by assumption. exact Hrun.
    + cbn [negb]. fields.
      rewrite push_front_fresh by assumption. exact Hrun.
  - intros H. apply Hag. unfold maps_agree, s1, registered in *.
    now destruct (Dict.mem Nat.eqb (id x) (_registry s)).
  - intros k v Hk. destruct (Hval k v Hk) as [-> | Hk1]; [now left | right].
    unfold s1, registered in Hk1.
    now destruct (Dict.mem Nat.eqb (id x) (_registry s)).
Qed.

Lemma last_map_snd (d : Dict.t nat ref) (a : nat * ref) (x : ref) :
  d <> [] -> snd (last d a) = last (map snd d) x.
Proof.
  induction d as [| kv d IH]; [congruence |]. intros _.
  destruct d as [| kv' d]; [reflexivity |].
  change (snd (last (kv' :: d) a) = last (map snd (kv' :: d)) x).
  apply IH. discriminate.
Qed.

Lemma snd_last (x : ref) (d : Dict.t nat ref) (k : nat) :
  snd (last ((k, x) :: d) (k, x)) = last (map snd d) x.
Proof.
  destruct d as [| kv d]; [reflexivity |].
  change (snd (last (kv :: d) (k, x)) = last (map snd (kv :: d)) x).
  apply last_map_snd. discriminate.
Qed.

(** A plain [get] by a task that holds nothing, on a container that is
    not empty: the pair at the end of the container is taken, without
    waiting. *)
Lemma get_takes_last (fuel : nat) (env : police -> police) (t : task)
      (block : bool) (timeout : option float) (s : police) (kv : nat * ref) :
  ctx_cursor s t = None ->
  _container s <> [] ->
  exists s',
    get (S fuel) env t block timeout false false s
    = Some (Return (Some (snd (last (_container s) kv))), s')
    /\ ctx_cursor s' t = Some (last (_container s) kv)
    /\ (forall t', t' <> t -> ctx_cursor s' t' = ctx_cursor s t')
    /\ _registry s' = _registry s
    /\ sleeps s' = sleeps s
    /\ (concurrency s = false -> _container s' = removelast (_container s)).
Proof.
  intros Hcur Hne.
  assert (Hlen : (len (_container s) =? 0)%Z = false).
  { destruct (_container s); [congruence | reflexivity]. }
  assert (Hpos : (0 <? len (_container s))%Z = true).
  { destruct (_container s); [congruence | reflexivity]. }
  pose proof (DictFacts.popitem_last kv Hne) as Hpop.
  destruct (last (_container s) kv) as [k v] eqn:Hlast.
  unfold get.
  destruct timeout as [tm |]; cbn [get_loop]; unfold_monad; fields.
  all: rewrite ?Nat.eqb_refl; rewrite Hcur, Hlen, Hpos; cbn [andb].
  all: unfold get_select; cbn [negb]; fields; rewrite Hpop; fields.
  all: destruct (concurrency s) eqn:Hconc; fields.
  all: eexists; split; [reflexivity |]; fields.
  all: rewrite ?Nat.eqb_refl.
  all: repeat split; try discriminate; try reflexivity.
  all: intros t' Ht'; apply Nat.eqb_neq in Ht'; now rewrite Ht'.
Qed.



(** [forget]: the key leaves both maps, if it was there. *)
Lemma forget_spec (i : MappableTraffic) (s : police) :
  maps_agree s -> NoDup (Dict.keys (_map s)) ->
  exists s',
    forget i s = (Return tt, s')
    /\ same_but_maps s s'
    /\ Dict.get key_eqb (key_of i) (_map s') = None.
Proof.
  intros Hag Hnd. unfold forget. unfold_monad. unfold Dict.del.
  pose proof (@mem_agree _ _ (key_of i) _ _ Hag) as Hmem.
  unfold Dict.mem in *.
  destruct (Dict.get key_eqb (key_of i) (_map s)) as [v |] eqn:Hv.
  - cbn [negb]. cbv beta. rewrite Hv. fields.
    destruct (Dict.get key_eqb (key_of i) (_map_types s)) eqn:Hw;
      [| discriminate].
    eexists. split; [reflexivity |]. split.
    + unfold same_but_maps. destruct s; reflexivity.
    + fields. now apply (DictFacts.get_remove_same key_eqb key_eqb_eq).
  - cbn [negb]. exists s. repeat split; auto using same_but_maps_refl.
Qed.


Lemma find_first (A : Type) (p : A -> bool) (l1 l2 : list A) (x : A) :
  Forall (fun a => p a = false) l1 -> p x = true ->
  find p (l1 ++ x :: l2) = Some x.
Proof.
  induction 1 as [| a l1 Ha _ IH]; simpl; intros Hx.
  - now rewrite Hx.
  - rewrite Ha. auto.
Qed.

Lemma find_nothing (A : Type) (p : A -> bool) (l : list A) :
  Forall (fun a => p a = false) l -> find p l = None.
Proof.
  induction 1 as [| a l Ha _ IH]; simpl; [reflexivity |]. now rewrite Ha.
Qed.

Lemma keys_app (V : Type) (l1 l2 : Dict.t nat V) :
  Dict.keys (l1 ++ l2) = Dict.keys l1 ++ Dict.keys l2.
Proof. apply map_app. Qed.

(** [_sacrifice_first_idle] when the registry has a disposable entry:
    the first one goes, and the other tasks run while it closes. *)
Lemma sacrifice_evicts (env : police -> police) (s : police)
      (l1 l2 : Dict.t nat ref) (oid : nat) (r : ref) :
  well_formed s ->
  _registry s = l1 ++ (oid, r) :: l2 ->
  Forall (fun kv => disposable s kv = false) l1 ->
  disposable s (oid, r) = true ->
  exists s1,
    same_but_maps s s1
    /\ maps_agree s1
    /\ (forall k v, Dict.get key_eqb k (_map s1) = Some v ->
                    v <> r /\ Dict.get key_eqb k (_map s) = Some v)
    /\ _sacrifice_first_idle env s
       = (Return tt,
          env (set_closed (closed s ++ [r])
                 (set_container (Dict.remove Nat.eqb oid (_container s))
                    (set_registry (l1 ++ l2) s1)))).
Proof.
  intros Hwf Hreg Hl1 Hr.
  pose proof (wf_registry Hwf) as Hnd. pose proof (wf_registry_ids Hwf) as Hids.
  rewrite Hreg in Hnd, Hids.
  assert (Hoid : oid = id r).
  { rewrite Forall_app in Hids. destruct Hids as [_ Hids].
    inversion Hids; subst. assumption. }
  assert (Hout : ~ In oid (Dict.keys l1)).
  { rewrite keys_app in Hnd. apply NoDup_remove_2 in Hnd.
    intros Hin. apply Hnd. apply in_or_app. now left. }
  assert (Hmem : Dict.mem Nat.eqb (id r) (_registry s) = true).
  { unfold Dict.mem. rewrite Hreg, <- Hoid.
    now rewrite (DictFacts.get_middle Nat.eqb Nat.eqb_eq). }
  destruct (@map_clear_registered r s (wf_maps_agree Hwf) (wf_map Hwf) Hmem)
    as (s1 & Hrun & Hsame & Hag1 & _ & Hval).
  destruct (same_but_maps_fields Hsame)
    as (_ & _ & Er & Ect & _ & _ & _ & _ & Ecl & _).
  exists s1. split; [assumption | split; [assumption | split; [assumption |]]].
  unfold _sacrifice_first_idle. unfold bind at 1. unfold gets at 1.
  assert (Hlen : (len (_registry s) =? 0)%Z = false).
  { rewrite Hreg. unfold len. rewrite length_app. simpl length.
    apply Z.eqb_neq. lia. }
  rewrite Hlen.
  change (fun kv : nat * ref =>
            Dict.mem Nat.eqb (fst kv) (_container s)
            && TrafficState_eqb (state_of s (snd kv)) IDLE)
    with (disposable s).
  rewrite Hreg, (find_first _ _ _ Hl1 Hr).
  unfold bind at 1. rewrite Hrun.
  unfold_monad. unfold Dict.del. rewrite Er.
  rewrite Hreg. rewrite (DictFacts.get_middle Nat.eqb Nat.eqb_eq) by assumption.
  rewrite (DictFacts.remove_middle Nat.eqb Nat.eqb_eq) by assumption.
  fields. rewrite Ect.
  apply andb_prop in Hr as [Hc _]. cbn [fst] in Hc.
  apply DictFacts.mem_get in Hc as [v Hv]. rewrite Hv. fields.
  now rewrite Ecl.
Qed.

(** [_sacrifice_first_idle] when nothing in a registry that is not empty
    is disposable. *)
Lemma sacrifice_overwhelmed (env : police -> police) (s : police) :
  _registry s <> [] ->
  Forall (fun kv => disposable s kv = false) (_registry s) ->
  _sacrifice_first_idle env s = (Raise OverwhelmedTraffic, s).
Proof.
  intros Hne Hall.
  unfold _sacrifice_first_idle. unfold bind at 1. unfold gets at 1.
  assert (Hlen : (len (_registry s) =? 0)%Z = false).
  { destruct (_registry s); [congruence | reflexivity]. }
  rewrite Hlen.
  change (fun kv : nat * ref =>
            Dict.mem Nat.eqb (fst kv) (_container s)
            && TrafficState_eqb (state_of s (snd kv)) IDLE)
    with (disposable s).
  now rewrite (find_nothing _ Hall).
Qed.

(** Memorizing a list of indicators for a registered item binds each
    of them to the item, and leaves the other keys as they are. *)
Lemma memorize_all_binds (t : task) (conn : ref)
      (inds : list MappableTraffic) :
  forall s : police,
    Dict.mem Nat.eqb (id conn) (_registry s) = true ->
    (forall k, In k (map key_of inds) ->
               Dict.get key_eqb k
                        (_map (snd (for_each
                                      (fun i => memorize t i (Some conn))
                                      inds s)))
               = Some conn)
    /\ (forall k, ~ In k (map key_of inds) ->
                  Dict.get key_eqb k
                           (_map (snd (for_each
                                         (fun i => memorize t i (Some conn))
                                         inds s)))
                  = Dict.get key_eqb k (_map s)
                  /\ Dict.get key_eqb k
                              (_map_types
                                 (snd (for_each
                                         (fun i => memorize t i (Some conn))
                                         inds s)))
                     = Dict.get key_eqb k (_map_types s)).
Proof.
  induction inds as [| i inds IH]; intros s Hreg; cbn [for_each map].
  - split; [intros k [] | intros k _; split; reflexivity].
  - unfold bind. rewrite memorize_registered by assumption.
    set (s1 := set_map_types _ _).
    destruct (IH s1 Hreg) as [Hin Hout].
    split.
    + intros k Hk.
      destruct (in_dec key_eq_dec k (map key_of inds)) as [Hk' | Hk'];
        [now apply Hin |].
      destruct Hk as [<- | Hk]; [| contradiction].
      destruct (Hout _ Hk') as [-> _]. unfold s1; fields.
      apply (DictFacts.get_set_same key_eqb key_eqb_eq).
    + intros k Hk.
      assert (Hne : key_of i <> k) by (intros E; apply Hk; now left).
      assert (Hk' : ~ In k (map key_of inds))
        by (intros E; apply Hk; now right).
      destruct (Hout _ Hk') as [-> ->]. unfold s1; fields.
      split; apply (DictFacts.get_set_other key_eqb key_eqb_eq); assumption.
Qed.

(** Admitting an item that the registry does not know, in full: the
    item is registered last; it goes to the head of the container, or
    to the cursor of the task when it is wanted at once; and every
    indicator is bound to it. *)
Lemma put_body_admits (t : task) (x : ref) (inds : list MappableTraffic)
      (iu : bool) (s : police) :
  Dict.mem Nat.eqb (id x) (_registry s) = false ->
  exists s',
    put_body t x inds iu s = (Return tt, s')
    /\ _registry s' = _registry s ++ [(id x, x)]
    /\ closed s' = closed s
    /\ _container s'
       = (if negb iu || concurrency s
          then Dict.update Nat.eqb [(id x, x)] (_container s)
          else _container s)
    /\ ctx_cursor s' t = (if iu then Some (id x, x) else ctx_cursor s t)
    /\ (forall t', t' <> t -> ctx_cursor s' t' = ctx_cursor s t')
    /\ (forall i, In i inds ->
                  Dict.get key_eqb (key_of i) (_map s') = Some x)
    /\ (forall k, ~ In k (map key_of inds) ->
                  Dict.get key_eqb k (_map s') = Dict.get key_eqb k (_map s)
                  /\ Dict.get key_eqb k (_map_types s')
                     = Dict.get key_eqb k (_map_types s))
    /\ (maps_agree s -> maps_agree s').
Proof.
  intros Hnew.
  assert (Hset : Dict.set Nat.eqb (id x) x (_registry s)
                 = _registry s ++ [(id x, x)]).
  { apply (DictFacts.set_fresh Nat.eqb Nat.eqb_eq).
    now apply (DictFacts.mem_false Nat.eqb Nat.eqb_eq). }
  unfold put_body. unfold_monad. rewrite Hnew. cbn [andb negb]. fields.
  rewrite Hset.
  destruct iu; cbn [negb orb]; fields; [destruct (concurrency s); fields |].
  all: match goal with
       | |- context [for_each _ ?l ?s0] =>
         assert (Hreg0 : Dict.mem Nat.eqb (id x) (_registry s0) = true)
           by (fields; unfold Dict.mem;
               rewrite (DictFacts.get_middle Nat.eqb Nat.eqb_eq (id x) x
                                             (_registry s) []);
               [reflexivity |
                now apply (DictFacts.mem_false Nat.eqb Nat.eqb_eq)]);
         destruct (@memorize_all t x l s0 Hreg0)
           as (s' & Hrun & Hsame & Hag & _);
         destruct (@memorize_all_binds t x l s0 Hreg0) as [Hin Hout];
         rewrite Hrun in Hin, Hout; cbn [snd] in Hin, Hout;
         destruct (same_but_maps_fields Hsame)
           as (_ & _ & Er & Ect & _ & Ec & _ & _ & Ecl & _);
         exists s'; split; [exact Hrun |];
         rewrite Er, Ect, Ecl, Ec; fields
       end.
  all: rewrite ?Nat.eqb_refl.
  all: repeat split; auto.
  all: try (intros t' Ht'; apply Nat.eqb_neq in Ht'; now rewrite Ht').
  all: try (intros i Hi; apply Hin; now apply in_map).
  all: match goal with
       | Hk : ~ In ?k (map key_of _) |- _ =>
         destruct (Hout k Hk) as [E1 E2]; fields_in E1; fields_in E2;
           assumption
       end.
Qed.

End AsyncTrafficPoliceFacts.

(** ** Every arbiter that calls lead to is well-formed *)

Module AsyncTrafficPoliceInvariant.
Import AsyncTrafficPolice AsyncTrafficPoliceSpec AsyncTrafficPoliceFacts.
Local Open Scope police_scope.

(** Well-formedness looks at the four dicts only. *)
Lemma well_formed_dicts (s s' : police) :
  _registry s' = _registry s -> _container s' = _container s ->
  _map s' = _map s -> _map_types s' = _map_types s ->
  well_formed s -> well_formed s'.
Proof.
  intros Er Ec Em Et [H1 H2 H3 H4 H5].
  split; unfold maps_agree in *; congruence.
Qed.

Lemma keeps_ret (A : Type) (a : A) : keeps (ret a).
Proof. intros s H. exact H. Qed.

Lemma keeps_raise (A : Type) (e : exn) : keeps (@raise A e).
Proof. intros s H. exact H. Qed.

Lemma keeps_gets (A : Type) (f : police -> A) : keeps (gets f).
Proof. intros s H. exact H. Qed.

Lemma keeps_bind (A B' : Type) (m : M A) (k : A -> M B') :
  keeps m -> (forall a, keeps (k a)) -> keeps (bind m k).
Proof.
  intros Hm Hk s H. unfold bind. specialize (Hm s H).
  destruct (m s) as [[a | e] s1]; cbn [snd] in *; [| exact Hm].
  now apply Hk.
Qed.

Lemma keeps_set_cursor (t : task) (v : option (nat * ref)) :
  keeps (_set_cursor t v).
Proof.
  intros s H. apply (@well_formed_dicts s); [reflexivity .. | exact H].
Qed.

Lemma keeps_set_wait_clock (t : task) (v : option float) :
  keeps (_set_wait_clock t v).
Proof.
  intros s H. apply (@well_formed_dicts s); [reflexivity .. | exact H].
Qed.

Lemma keeps_close (env : police -> police) (r : ref) :
  fair env -> keeps (close env r).
Proof.
  intros Henv s H. apply Henv.
  apply (@well_formed_dicts s); [reflexivity .. | exact H].
Qed.

Lemma keeps_set_shutdown (b : bool) : keeps (modify (set_shutdown b)).
Proof.
  intros s H. apply (@well_formed_dicts s); [reflexivity .. | exact H].
Qed.

Lemma keeps_push_front (k : nat) (v : ref) : keeps (container_push_front k v).
Proof.
  intros s [H1 H2 H3 H4 H5]. split; cbn; try assumption.
  apply (DictFacts.update_nodup Nat.eqb Nat.eqb_eq).
  repeat constructor. intros [].
Qed.

Lemma ids_remove (k : nat) (d : Dict.t nat ref) :
  Forall (fun kv => fst kv = id (snd kv)) d ->
  Forall (fun kv => fst kv = id (snd kv)) (Dict.remove Nat.eqb k d).
Proof.
  induction 1 as [| [k' v'] d Hx Hd IH]; simpl; [constructor |].
  destruct (Nat.eqb k k'); [assumption | now constructor].
Qed.

Lemma ids_set (x : ref) (d : Dict.t nat ref) :
  Forall (fun kv => fst kv = id (snd kv)) d ->
  Forall (fun kv => fst kv = id (snd kv)) (Dict.set Nat.eqb (id x) x d).
Proof.
  induction 1 as [| [k' v'] d Hx Hd IH]; simpl.
  - repeat constructor.
  - destruct (Nat.eqb_spec (id x) k') as [E | E]; constructor;
      try assumption. cbn [fst snd]. now symmetry.
Qed.

Lemma well_formed_less_registry (k : nat) (s : police) :
  well_formed s ->
  well_formed (set_registry (Dict.remove Nat.eqb k (_registry s)) s).
Proof.
  intros [H1 H2 H3 H4 H5]. split; cbn; try assumption.
  - now apply DictFacts.remove_nodup.
  - now apply ids_remove.
Qed.

Lemma well_formed_less_container (k : nat) (s : police) :
  well_formed s ->
  well_formed (set_container (Dict.remove Nat.eqb k (_container s)) s).
Proof.
  intros [H1 H2 H3 H4 H5]. split; cbn; try assumption.
  now apply DictFacts.remove_nodup.
Qed.

Lemma keeps_del_registry (k : nat) : keeps (del_registry k).
Proof.
  intros s H. unfold del_registry, Dict.del.
  destruct (Dict.get Nat.eqb k (_registry s)); [| exact H].
  now apply well_formed_less_registry.
Qed.

Lemma keeps_del_container (k : nat) : keeps (del_container k).
Proof.
  intros s H. unfold del_container, Dict.del.
  destruct (Dict.get Nat.eqb k (_container s)); [| exact H].
  now apply well_formed_less_container.
Qed.

Lemma keeps_for_each (A : Type) (f : A -> M unit) (l : list A) :
  (forall a, keeps (f a)) -> keeps (for_each f l).
Proof.
  intros Hf. induction l as [| a l IH]; cbn [for_each].
  - apply keeps_ret.
  - apply keeps_bind; auto.
Qed.

(** A key leaves the two maps together. *)
Lemma keeps_del_maps (k : key) : keeps (del_map k ;; del_map_types k).
Proof.
  intros s Hwf. pose proof Hwf as [H1 H2 H3 H4 H5].
  pose proof (@mem_agree _ _ k _ _ H5) as Hmem. unfold Dict.mem in Hmem.
  unfold_monad. unfold Dict.del.
  destruct (Dict.get key_eqb k (_map s)) eqn:Ev; [| exact Hwf].
  fields. destruct (Dict.get key_eqb k (_map_types s)) eqn:Ew;
    [| discriminate].
  split; cbn; try assumption.
  - now apply DictFacts.remove_nodup.
  - now apply keys_remove_agree.
Qed.

Lemma keeps_map_clear (r : ref) : keeps (_map_clear r).
Proof.
  unfold _map_clear. apply keeps_bind; [apply keeps_gets | intros registry].
  destruct (negb _); [apply keeps_ret |].
  apply keeps_bind; [apply keeps_gets | intros m].
  apply keeps_for_each. intros k. apply keeps_del_maps.
Qed.

(** The pieces above, put together along the text of a call. *)
Ltac keeps_step :=
  first
    [ apply keeps_ret | apply keeps_raise | apply keeps_gets
    | apply keeps_set_cursor | apply keeps_set_wait_clock
    | apply keeps_close; assumption
    | apply keeps_set_shutdown | apply keeps_push_front
    | apply keeps_del_registry | apply keeps_del_container
    | apply keeps_map_clear | apply keeps_del_maps
    | apply keeps_for_each; intros ?
    | apply keeps_bind; [| intros ?]
    | match goal with
      | |- keeps (if ?b then _ else _) => destruct b
      | |- keeps (match ?x with _ => _ end) => destruct x
      end ].

Lemma keeps_kill_cursor (env : police -> police) (t : task) :
  fair env -> keeps (kill_cursor env t).
Proof. intros Henv. unfold kill_cursor, _cursor. repeat keeps_step. Qed.

Lemma keeps_release (t : task) : keeps (release t).
Proof. unfold release, _cursor. repeat keeps_step. Qed.

Lemma keeps_sacrifice (env : police -> police) :
  fair env -> keeps (_sacrifice_first_idle env).
Proof. intros Henv. unfold _sacrifice_first_idle. repeat keeps_step. Qed.

Lemma keeps_memorize (t : task) (i : MappableTraffic) (c : option ref) :
  keeps (memorize t i c).
Proof.
  intros s Hwf. pose proof Hwf as [H1 H2 H3 H4 H5].
  assert (Hset : forall x,
             well_formed
               (set_map_types
                  (Dict.set key_eqb (key_of i) (type_of i) (_map_types s))
                  (set_map (Dict.set key_eqb (key_of i) x (_map s)) s))).
  { intros x. split; cbn; try assumption.
    - now apply (DictFacts.set_nodup key_eqb key_eqb_eq).
    - now apply keys_set_agree. }
  unfold memorize. unfold_monad.
  destruct c as [conn |].
  - destruct (negb _); [exact Hwf | apply Hset].
  - destruct (ctx_cursor s t) as [[k cur] |]; [apply Hset | exact Hwf].
Qed.

Lemma keeps_forget (i : MappableTraffic) : keeps (forget i).
Proof. unfold forget. repeat keeps_step. Qed.

Lemma keeps_register (x : ref) :
  keeps (modify (fun s =>
                   set_registry (Dict.set Nat.eqb (id x) x (_registry s)) s)).
Proof.
  intros s [H1 H2 H3 H4 H5]. split; cbn; try assumption.
  - now apply (DictFacts.set_nodup Nat.eqb Nat.eqb_eq).
  - now apply ids_set.
Qed.

Lemma keeps_put (env : police -> police) (t : task) (x : ref)
      (inds : list MappableTraffic) (block iu : bool) :
  fair env -> keeps (put env t x inds block iu).
Proof.
  intros Henv. unfold put, _cursor.
  repeat first [ apply keeps_kill_cursor; assumption
               | apply keeps_sacrifice; assumption
               | apply keeps_memorize | apply keeps_register | keeps_step ].
Qed.

Lemma keeps_container_remove (k : nat) :
  keeps (modify (fun s =>
                   set_container (Dict.remove Nat.eqb k (_container s)) s)).
Proof. intros s H. now apply well_formed_less_container. Qed.

Lemma keeps_container_pop (k : nat) :
  keeps (fun s => match Dict.pop Nat.eqb k (_container s) with
                  | Some (_, d) => (Return tt, set_container d s)
                  | None => (Raise KeyError, s)
                  end).
Proof.
  intros s H. unfold Dict.pop.
  destruct (Dict.get Nat.eqb k (_container s)); [| exact H].
  now apply well_formed_less_container.
Qed.

Lemma keeps_registry_pop (k : nat) :
  keeps (fun s => match Dict.pop Nat.eqb k (_registry s) with
                  | Some (v, d) => (Return v, set_registry d s)
                  | None => (Raise KeyError, s)
                  end).
Proof.
  intros s H. unfold Dict.pop.
  destruct (Dict.get Nat.eqb k (_registry s)); [| exact H].
  now apply well_formed_less_registry.
Qed.

Lemma keeps_clear (env : police -> police) (t : task) :
  fair env -> keeps (clear env t).
Proof.
  intros Henv. unfold clear, _cursor.
  repeat first [ apply keeps_container_pop | apply keeps_registry_pop
               | keeps_step ].
Qed.

Lemma keeps_iter_idle (t : task) : keeps (iter_idle t).
Proof.
  unfold iter_idle, busy, _cursor.
  repeat first [ apply keeps_container_remove | keeps_step ].
Qed.

Lemma keeps_get_select (nso nio : bool) : keeps (get_select nso nio).
Proof.
  intros s H. unfold get_select.
  destruct nso; [| destruct nio; cbn [negb]].
  - destruct (first_not SATURATED s) as [[k v] |]; [| exact H].
    now apply well_formed_less_container.
  - destruct (first_not IDLE s) as [[k v] |]; [| exact H].
    now apply well_formed_less_container.
  - destruct (Dict.popitem (_container s)) as [[kv rest] |] eqn:E; [| exact H].
    destruct H as [H1 H2 H3 H4 H5]. split; cbn; try assumption.
    exact (DictFacts.popitem_nodup _ E H3).
Qed.

(** *** Calls that wait in a loop *)

Lemma fair_sleep (env : police -> police) (s : police) :
  fair env -> well_formed s -> well_formed (asyncio_sleep env s).
Proof.
  intros Henv H. apply (@well_formed_dicts (env s)); [reflexivity .. |].
  now apply Henv.
Qed.

Lemma keeps_wait_for_slot (qualifies : police -> bool)
      (env : police -> police) (timeout : option float) :
  fair env ->
  forall fuel combined_wait,
    keeps_when_done (wait_for_slot qualifies fuel env timeout combined_wait).
Proof.
  intros Henv. induction fuel as [| fuel IH]; intros cw s r s' Hwf;
    cbn [wait_for_slot]; [discriminate |].
  destruct (maxsize s) as [m |]; [| now intros [= _ <-]].
  destruct (len (_registry s) <? m)%Z; [now intros [= _ <-] |].
  destruct (qualifies s); [now intros [= _ <-] |].
  pose proof (fair_sleep Henv Hwf) as Hwf1.
  destruct timeout as [tm |].
  - destruct ((_ <=? _)%float); [now intros [= _ <-] |].
    now apply IH.
  - now apply IH.
Qed.

Lemma keeps_find_by (env : police -> police) (ty : pytype) (block : bool) :
  fair env ->
  forall fuel, keeps_when_done (_find_by fuel env ty block).
Proof.
  intros Henv. induction fuel as [| fuel IH]; intros s r s' Hwf;
    cbn [_find_by]; [discriminate |].
  destruct (_find_by_scan s ty (_map_types s) false) as [[[c |] | e] any].
  - now intros [= _ <-].
  - destruct (negb block); [now intros [= _ <-] |].
    destruct any; [| now intros [= _ <-]].
    apply IH. now apply fair_sleep.
  - now intros [= _ <-].
Qed.

(** A call that ends with calls that run without a loop keeps what
    they keep. *)
Lemma keeps_done (A : Type) (m : M A) (s : police) (r : outcome A)
      (s' : police) :
  keeps m -> well_formed s -> Some (m s) = Some (r, s') -> well_formed s'.
Proof.
  intros Hm Hwf [= E]. specialize (Hm s Hwf). now rewrite E in Hm.
Qed.

Lemma keeps_get_loop (env : police -> police) (t : task) (block : bool)
      (timeout : option float) (nso nio : bool) :
  fair env ->
  forall fuel, keeps_when_done (get_loop fuel env t block timeout nso nio).
Proof.
  intros Henv. induction fuel as [| fuel IH]; intros s r s' Hwf;
    cbn [get_loop]; [discriminate |].
  destruct (ctx_cursor s t); [now intros [= _ <-] |].
  destruct (_ && _); [now intros [= _ <-] |].
  assert (Hsel : well_formed
                   (snd (if (0 <? len (_container s))%Z
                         then get_select nso nio s else (Return None, s)))).
  { destruct (0 <? len (_container s))%Z; [| exact Hwf].
    now apply keeps_get_select. }
  destruct (if (0 <? len (_container s))%Z
            then get_select nso nio s else (Return None, s))
    as [[[[k v] |] | e] s1]; cbn [snd] in Hsel.
  - apply keeps_done; [| exact Hsel]. repeat keeps_step.
  - destruct block; [| now intros [= _ <-]].
    pose proof (fair_sleep Henv Hsel) as Hwf2.
    destruct timeout as [tm |]; [| now apply IH].
    destruct (ctx_wait_clock (asyncio_sleep env s1) t) as [w |];
      [| now intros [= _ <-]].
    pose proof (keeps_set_wait_clock t (Some (w + quantum)%float) Hwf2) as Hwf3.
    destruct (_set_wait_clock t (Some (w + quantum)%float) (asyncio_sleep env s1))
      as [o s3]; cbn [snd] in Hwf3.
    destruct ((_ <=? _)%float); [| now apply IH].
    apply keeps_done; [| exact Hwf3]. repeat keeps_step.
  - now intros [= _ <-].
Qed.

Lemma keeps_get (env : police -> police) (t : task) (block : bool)
      (timeout : option float) (nso nio : bool) (fuel : nat) :
  fair env -> keeps_when_done (get fuel env t block timeout nso nio).
Proof.
  intros Henv s r s' Hwf. unfold get.
  apply keeps_get_loop; [assumption |].
  destruct timeout; [| exact Hwf]. now apply keeps_set_wait_clock.
Qed.

Lemma keeps_locate_loop (env : police -> police) (t : task) (k : nat)
      (c : ref) (block : bool) (timeout : option float) :
  fair env ->
  forall fuel, keeps_when_done (locate_loop fuel env t k c block timeout).
Proof.
  intros Henv. induction fuel as [| fuel IH]; intros s r s' Hwf;
    cbn [locate_loop]; [discriminate |].
  destruct (ctx_cursor s t) as [[ck cc] |].
  - destruct (Nat.eqb ck k); now intros [= _ <-].
  - destruct (Dict.mem Nat.eqb k (_container s)).
    + apply keeps_done; [| exact Hwf].
      repeat first [ apply keeps_container_remove | keeps_step ].
    + destruct (negb block); [now intros [= _ <-] |].
      pose proof (fair_sleep Henv Hwf) as Hwf2.
      destruct timeout as [tm |]; [| now apply IH].
      destruct (ctx_wait_clock (asyncio_sleep env s) t) as [w |];
        [| now intros [= _ <-]].
      pose proof (keeps_set_wait_clock t (Some (w + quantum)%float) Hwf2) as Hwf3.
      destruct (_set_wait_clock t (Some (w + quantum)%float) (asyncio_sleep env s))
        as [o s3]; cbn [snd] in Hwf3.
      destruct ((_ <=? _)%float); [now intros [= _ <-] | now apply IH].
Qed.

Lemma keeps_locate (env : police -> police) (t : task)
      (i : MappableTraffic + pytype) (block : bool) (timeout : option float)
      (fuel : nat) :
  fair env -> keeps_when_done (locate fuel env t i block timeout).
Proof.
  intros Henv s r s' Hwf. unfold locate.
  set (s0 := match timeout, ctx_wait_clock s t with
             | Some _, None => snd (_set_wait_clock t (Some 0%float) s)
             | _, _ => s
             end).
  assert (Hwf0 : well_formed s0).
  { unfold s0. destruct timeout; [| exact Hwf].
    destruct (ctx_wait_clock s t); [exact Hwf |].
    now apply keeps_set_wait_clock. }
  destruct i as [i | ty]; [| now intros [= _ <-]].
  destruct (match Dict.get key_eqb (key_of i) (_map s0) with
            | Some c => Some (id c, c)
            | None => locate_by_beacon (key_of i) s0
            end) as [[k c] |]; [| now intros [= _ <-]].
  now apply keeps_locate_loop.
Qed.

Lemma keeps_beacon (env : police -> police) (i : MappableTraffic + pytype)
      (fuel : nat) :
  fair env -> keeps_when_done (beacon fuel env i).
Proof.
  intros Henv s r s' Hwf. unfold beacon.
  destruct i as [i | ty]; [now intros [= _ <-] |].
  destruct (_find_by fuel env ty true s) as [[[found | e] s1] |] eqn:E;
    [| | discriminate].
  - intros [= _ <-]. eapply keeps_find_by; eassumption.
  - intros [= _ <-]. eapply keeps_find_by; eassumption.
Qed.

Lemma keeps_borrow_enter (env : police -> police) (t : task)
      (i : option (MappableTraffic + pytype)) (block : bool)
      (timeout : option float) (nio : bool) (fuel : nat) :
  fair env -> keeps_when_done (borrow_enter fuel env t i block timeout nio).
Proof.
  intros Henv s r s' Hwf. unfold borrow_enter.
  match goal with
  | |- match ?acq with _ => _ end = _ -> _ =>
    assert (Hacq : forall r1 s1, acq = Some (r1, s1) -> well_formed s1);
      [| destruct acq as [[[[c |] | e] s1] |]; [| | | discriminate];
         intros [= _ <-]; specialize (Hacq _ _ eq_refl);
         try exact Hacq; now apply keeps_release ]
  end.
  intros r1 s1. destruct i as [[i | ty] |].
  - now apply keeps_locate.
  - destruct (_find_by fuel env ty true s) as [[[[c |] | e] s2] |] eqn:E;
      try discriminate.
    + pose proof (keeps_find_by ty true Henv fuel Hwf E) as Hwf2.
      destruct (ctx_cursor s2 t) as [[ck cc] |].
      * destruct (negb _); [now intros [= _ <-] |].
        apply keeps_done; [| exact Hwf2]. repeat keeps_step.
      * apply keeps_done; [| exact Hwf2]. repeat keeps_step.
    + intros [= _ <-]. exact (keeps_find_by ty true Henv fuel Hwf E).
    + intros [= _ <-]. exact (keeps_find_by ty true Henv fuel Hwf E).
  - destruct (ctx_cursor s t) as [[ck cc] |]; [now intros [= _ <-] |].
    now apply keeps_get.
Qed.

(** Every arbiter that calls lead to is well-formed. *)
Theorem reachable_well_formed (s : police) :
  reachable s -> well_formed s.
Proof.
  induction 1.
  - apply well_formed_init.
  - apply (@well_formed_dicts s); [reflexivity .. | assumption].
  - now apply keeps_put.
  - now apply keeps_release.
  - now apply keeps_kill_cursor.
  - now apply keeps_memorize.
  - now apply keeps_forget.
  - now apply keeps_clear.
  - now apply keeps_iter_idle.
  - eapply keeps_get; eassumption.
  - eapply keeps_locate; eassumption.
  - eapply keeps_borrow_enter; eassumption.
  - eapply keeps_beacon; eassumption.
  - unfold wait_for_unallocated_or_available_slot in *.
    eapply keeps_wait_for_slot; eassumption.
  - unfold wait_for_idle_or_available_slot in *.
    eapply keeps_wait_for_slot; eassumption.
Qed.

End AsyncTrafficPoliceInvariant.

(** * The specification, property by property *)

(** ** Responses and promises *)

Section Responses.
Import LowLevelResponse LowLevelResponseSpec LowLevelResponseFacts Examples.

(** C6 (amended).  For every open response and every positive [n],
    [read(n)] returns the first [n] bytes of what is at hand, the
    overflow buffer followed by the one frame that the body reader
    delivers: exactly [n] bytes when there are that many, the excess
    going to the overflow buffer, and all of them otherwise.  Reading on
    with positive sizes, the same or not, until the response closes
    takes finitely many calls, and the values returned, put end to end,
    are the body that was left. *)
Theorem read_sized_returns_prefix_and_streams_body :
  forall (r : LowLevelResponse.t) (n : Z) (sizes : nat -> Z),
    closed r = false -> internal_read_st r <> None -> (0 < n)%Z ->
    (forall k, 0 < sizes k)%Z ->
    exists data r',
      read (Some n) r = (Return data, r')
      /\ data = firstn (Z.to_nat n) (available r)
      /\ length data = Nat.min (Z.to_nat n) (length (available r))
      /\ buffer_excess r' = skipn (Z.to_nat n) (available r)
      /\ (exists fuel chunks, read_until_closed fuel sizes 0 r = Some chunks)
      /\ (forall fuel chunks,
            read_until_closed fuel sizes 0 r = Some chunks ->
            concat chunks = remaining r).
Proof.
  intros r n sizes Hopen Hrd Hn Hsizes.
  destruct (internal_read_st r) as [rd |] eqn:Hr; [clear Hrd | congruence].
  exists (firstn (Z.to_nat n) (available r)), (after_read n rd r).
  split; [now apply read_sized_eq |].
  split; [reflexivity |].
  split; [apply length_firstn |].
  split; [reflexivity |].
  split.
  - destruct (@read_until_closed_spec sizes Hsizes (S (reads_left r)) 0 r)
      as [chunks [Hrun _]]; try congruence.
    + intros _. lia.
    + eauto.
  - intros fuel chunks Hrun.
    apply (@read_until_closed_sound sizes Hsizes fuel 0 r chunks);
      congruence.
Qed.

(** The body [abcd], in frames [ab] and [cd], read three bytes at a
    time: [ab], [cd]. *)
Lemma read_sized_returns_prefix_and_streams_body_witness :
  exists data r',
    read (Some 3%Z) two_frames = (Return data, r')
    /\ data = list_byte_of_string "ab"
    /\ length data = 2
    /\ buffer_excess r' = []
    /\ (exists fuel chunks,
          read_until_closed fuel (fun _ => 3%Z) 0 two_frames = Some chunks)
    /\ (forall fuel chunks,
          read_until_closed fuel (fun _ => 3%Z) 0 two_frames = Some chunks ->
          concat chunks = list_byte_of_string "abcd").
Proof.
  apply (@read_sized_returns_prefix_and_streams_body
           two_frames 3%Z (fun _ => 3%Z));
    [reflexivity | discriminate | lia | intros; lia].
Defined.

(** C6, as stated, fails when the reader delivers a frame shorter than
    [n]: four bytes are left, [read(3)] returns the two of the first
    frame. *)
Lemma read_short_frame_counterexample :
  closed two_frames = false
  /\ length (remaining two_frames) = 4
  /\ fst (read (Some 3%Z) two_frames) = Return (list_byte_of_string "ab")
  /\ length (list_byte_of_string "ab")
     <> Nat.min 3 (length (remaining two_frames)).
Proof. repeat split. vm_compute. discriminate. Qed.

End Responses.

Section Promises.
Import ResponsePromise ResponsePromiseParameters ResponsePromiseHeap.
Import ResponsePromiseFacts Examples.

Lemma uid_update (i : nat) (f : t -> t) (heap : list t) :
  (forall p, _uid (f p) = _uid p) ->
  map _uid (update i f heap) = map _uid heap.
Proof.
  intros Hf. revert i.
  induction heap as [| p heap IH]; intros [| i]; cbn; try reflexivity.
  - now rewrite Hf.
  - now rewrite IH.
Qed.

(** The uids of the promises of a program are the encoded draws, in
    order. *)
Lemma uid_run (program : list step) :
  forall heap : list t,
    map _uid (fold_left run_step program heap)
    = map _uid heap ++ map b64encode (draws program).
Proof.
  induction program as [| st program IH]; intros heap; cbn [fold_left draws flat_map].
  - now rewrite app_nil_r.
  - rewrite IH. destruct st as [token conn sid hs ps | i v | i k v];
      cbn [run_step].
    + rewrite map_app, map_app, <- app_assoc. reflexivity.
    + now rewrite uid_update.
    + now rewrite uid_update.
Qed.

Lemma NoDup_map_inj (A B' : Type) (f : A -> B') (l : list A) :
  (forall x y, f x = f y -> x = y) -> NoDup l -> NoDup (map f l).
Proof.
  intros Hf. induction 1 as [| a l Ha Hl IH]; cbn; constructor; [| exact IH].
  intros Hin. apply in_map_iff in Hin as [x [Hx Hin]].
  apply Hf in Hx. now subst.
Qed.

(** C7.  Two promises compare equal iff their uids match, and a promise
    equals no object of another class.  The uid of a promise is the
    encoding of the token that [__init__] drew for it, and no later
    call changes it, nor the stream id.  So, in a program whose draws of
    [token_bytes(16)] are pairwise distinct, which is what makes the uid
    of the spec globally unique, two promises that compare equal are one
    object, and their stream ids are equal as their uids are. *)
Theorem promise_eq_iff_same_uid :
  forall (program : list step) (i j : nat) (p1 p2 : ResponsePromise.t),
    NoDup (draws program) ->
    nth_error (run program) i = Some p1 ->
    nth_error (run program) j = Some p2 ->
    (__eq__ p1 (Promise p2) = true <-> uid p1 = uid p2)
    /\ (__eq__ p1 (Promise p2) = true ->
        uid p1 = uid p2 /\ stream_id p1 = stream_id p2)
    /\ (__eq__ p1 (Promise p2) = true <-> i = j)
    /\ __eq__ p1 Other = false
    /\ (forall (token1 token2 : bytes) (conn1 conn2 : nat) (sid1 sid2 : Z)
               (headers1 headers2 : list (bytes * bytes))
               (params1 params2 : list (string * string)),
           __eq__ (__init__ token1 conn1 sid1 headers1 params1)
                  (Promise (__init__ token2 conn2 sid2 headers2 params2))
           = true
           <-> token1 = token2).
Proof.
  intros program i j p1 p2 Hdraws H1 H2.
  assert (Huids : NoDup (map _uid (run program))).
  { unfold run. rewrite uid_run. cbn [map app].
    apply NoDup_map_inj; [exact b64encode_inj | exact Hdraws]. }
  assert (Hsame : uid p1 = uid p2 -> i = j).
  { intros E. rewrite NoDup_nth_error in Huids. apply Huids.
    - rewrite length_map. apply nth_error_Some. congruence.
    - rewrite !nth_error_map, H1, H2. cbn. unfold uid in E. congruence. }
  assert (Heq : __eq__ p1 (Promise p2) = true <-> uid p1 = uid p2)
    by apply String.eqb_eq.
  split; [exact Heq |]. split; [| split; [| split; [reflexivity |]]].
  - intros E. apply Heq in E. split; [exact E |].
    apply Hsame in E. subst j. congruence.
  - split.
    + intros E. apply Hsame. now apply Heq.
    + intros ->. apply Heq. congruence.
  - intros. unfold __eq__. split.
    + intros H. apply String.eqb_eq in H. now apply b64encode_inj.
    + intros ->. apply String.eqb_eq. reflexivity.
Qed.

(** Two promises are built, on streams 1 and 3, and the first one gets
    a parameter: it equals itself, and not the other one. *)
Lemma promise_eq_iff_same_uid_witness :
  (__eq__ (set_parameter "start" "0" (__init__ some_token 1 1%Z [] []))
          (Promise (set_parameter "start" "0"
                                  (__init__ some_token 1 1%Z [] [])))
   = true <-> 0 = 0)
  /\ (__eq__ (set_parameter "start" "0" (__init__ some_token 1 1%Z [] []))
             (Promise (__init__ other_token 1 3%Z [] []))
      = true <-> 0 = 1).
Proof.
  assert (Hdraws : NoDup (draws two_promises))
    by (repeat constructor; simpl; intuition discriminate).
  split.
  - apply (@promise_eq_iff_same_uid two_promises 0 0 _ _ Hdraws eq_refl eq_refl).
  - apply (@promise_eq_iff_same_uid two_promises 0 1 _ _ Hdraws eq_refl eq_refl).
Defined.

End Promises.


Import AsyncTrafficPolice AsyncTrafficPoliceSpec AsyncTrafficPoliceFacts Examples.
Local Open Scope police_scope.

(** ** Waiting for a slot *)

(** C2 (what the code does).  On a full registry with no qualifying
    item, a [wait_for_*_slot] call with a finite timeout [t] raises
    [TimeoutError] right after its first 1 ms sleep, whatever [t] is: the
    test that ends the wait compares [combined_wait] with itself. *)
Theorem wait_for_slot_times_out_after_one_sleep :
  forall (fuel : nat) (env : police -> police) (t : float) (m : Z)
         (s : police),
    maxsize s = Some m ->
    (m <= len (_registry s))%Z ->
    (any_not_saturated_available s = false ->
     wait_for_unallocated_or_available_slot (S fuel) env (Some t) s
     = Some (Raise TimeoutError, asyncio_sleep env s))
    /\ (any_idle_available s = false ->
        wait_for_idle_or_available_slot (S fuel) env (Some t) s
        = Some (Raise TimeoutError, asyncio_sleep env s))
    /\ sleeps (asyncio_sleep env s) = S (sleeps s).
Proof.
  intros fuel env t m s Hmax Hfull.
  assert (Hlt : (len (_registry s) <? m)%Z = false) by (apply Z.ltb_ge; lia).
  unfold wait_for_unallocated_or_available_slot,
         wait_for_idle_or_available_slot.
  repeat split.
  - intros Hq. cbn [wait_for_slot]. rewrite Hmax, Hlt, Hq. reflexivity.
  - intros Hq. cbn [wait_for_slot]. rewrite Hmax, Hlt, Hq. reflexivity.
Qed.

(** A five-second timeout on a full pool: both calls give up after
    1 ms. *)
Lemma wait_for_slot_times_out_after_one_sleep_witness :
  wait_for_unallocated_or_available_slot 1 (fun s => s) (Some 5%float)
                                         full_pool
  = Some (Raise TimeoutError, asyncio_sleep (fun s => s) full_pool)
  /\ wait_for_idle_or_available_slot 1 (fun s => s) (Some 5%float)
                                      full_pool
     = Some (Raise TimeoutError, asyncio_sleep (fun s => s) full_pool)
  /\ sleeps (asyncio_sleep (fun s => s) full_pool) = 1.
Proof.
  destruct (@wait_for_slot_times_out_after_one_sleep
              0 (fun s => s) 5%float 1%Z full_pool)
    as [H1 [H2 H3]].
  - reflexivity.
  - vm_compute. discriminate.
  - split; [apply H1; reflexivity | split; [apply H2; reflexivity | exact H3]].
Defined.

(** ** [get] on an arbiter with room left *)

(** C9 (amended).  With [maxsize] set, an empty container and a registry
    below [maxsize], [get] called by a task that holds no item returns
    [None] at once: nothing is raised, no sleep is taken, and the arbiter
    is left as it is, but for the wait clock started by a timeout. *)
Theorem get_returns_none_when_room_left :
  forall (fuel : nat) (env : police -> police) (t : task)
         (block : bool) (timeout : option float)
         (non_saturated_only not_idle_only : bool) (m : Z) (s : police),
    maxsize s = Some m ->
    _container s = [] ->
    (len (_registry s) < m)%Z ->
    ctx_cursor s t = None ->
    get (S fuel) env t block timeout non_saturated_only not_idle_only s
    = Some (Return None,
            match timeout with
            | Some _ => snd (_set_wait_clock t (Some 0%float) s)
            | None => s
            end).
Proof.
  intros fuel env t block timeout nso nio m s Hmax Hc Hlt Hcur.
  apply Z.ltb_lt in Hlt.
  unfold get. destruct timeout as [tm |]; cbn [get_loop].
  - unfold_monad. fields. now rewrite Hcur, Hc, Hmax, Hlt.
  - now rewrite Hcur, Hc, Hmax, Hlt.
Qed.

Lemma get_returns_none_when_room_left_witness :
  get 1 (fun s => s) 0 true None false false
      (arbiter_of (Some 2%Z) (fun _ => idle_item) [])
  = Some (Return None, arbiter_of (Some 2%Z) (fun _ => idle_item) []).
Proof.
  apply (@get_returns_none_when_room_left
           0 (fun s => s) 0 true None false false 2%Z
           (arbiter_of (Some 2%Z) (fun _ => idle_item) []));
    [reflexivity | reflexivity | vm_compute; reflexivity | reflexivity].
Defined.

(** C9, as stated, fails for a task that holds an item: [get] raises
    [AtomicTraffic] before it looks at the container. *)
Lemma get_with_room_left_counterexample :
  maxsize holding_fresh_item = Some 2%Z
  /\ _container holding_fresh_item = []
  /\ (len (_registry holding_fresh_item) < 2)%Z
  /\ get 1 (fun s => s) 0 true None false false holding_fresh_item
     = Some (Raise AtomicTraffic, holding_fresh_item).
Proof. repeat split. Qed.

(** ** [put] of an item that is already available *)

(** C10 (amended).  Unless the arbiter is shut down and the calling task
    holds an item, [put] of a registered item that is in the container
    returns with the arbiter unchanged: registry, container, cursor and
    both indicator maps; the indicators given are not memorized. *)
Theorem put_available_item_is_noop :
  forall (env : police -> police) (t : task) (item : ref)
         (indicators : list MappableTraffic)
         (block immediately_unavailable : bool) (s : police),
    _shutdown s = false \/ ctx_cursor s t = None ->
    Dict.mem Nat.eqb (id item) (_registry s) = true ->
    Dict.mem Nat.eqb (id item) (_container s) = true ->
    put env t item indicators block immediately_unavailable s
    = (Return tt, s).
Proof.
  intros env t item inds block iu s Hgate Hreg Hcont.
  unfold put, kill_cursor. unfold_monad.
  destruct (_shutdown s) eqn:Hsh.
  - destruct Hgate as [Habs | Hcur]; [discriminate |].
    rewrite Hcur.
    destruct (_registry s) as [| kv reg] eqn:E; [discriminate |].
    reflexivity.
  - destruct (maxsize s) as [m |].
    + rewrite Hreg, andb_false_r. cbn [negb]. now rewrite Hreg, Hcont.
    + now rewrite Hreg, Hcont.
Qed.

Lemma put_available_item_is_noop_witness :
  put (fun s => s) 0 10 [Promise 77] false false
      (arbiter_of None (fun _ => idle_item) [10; 11])
  = (Return tt, arbiter_of None (fun _ => idle_item) [10; 11]).
Proof.
  apply (@put_available_item_is_noop
           (fun s => s) 0 10 [Promise 77] false false
           (arbiter_of None (fun _ => idle_item) [10; 11]));
    [left; reflexivity | reflexivity | reflexivity].
Defined.

(** C10, as stated, fails on an arbiter that is shut down: [put] of the
    available item 10 destroys the item the task holds, 12, which leaves
    the registry and the cursor. *)
Lemma put_available_item_counterexample :
  Dict.mem Nat.eqb (id 10) (_registry shut_down_while_borrowed) = true
  /\ Dict.mem Nat.eqb (id 10) (_container shut_down_while_borrowed) = true
  /\ _registry shut_down_while_borrowed = [(10, 10); (11, 11); (12, 12)]
  /\ ctx_cursor shut_down_while_borrowed 0 = Some (12, 12)
  /\ fst (put (fun s => s) 0 10 [] false false shut_down_while_borrowed)
     = Return tt
  /\ _registry (snd (put (fun s => s) 0 10 [] false false
                         shut_down_while_borrowed))
     = [(10, 10); (11, 11)]
  /\ ctx_cursor (snd (put (fun s => s) 0 10 [] false false
                          shut_down_while_borrowed)) 0
     = None.
Proof. repeat split. Qed.

(** ** [put] on an arbiter that is shut down *)




(** ** [put] then [get] *)

(** C1 (what the code does).  After a task that holds nothing has put
    [x] as available, with no eviction called for, [x] is at the head of
    the container and the task's next plain [get] returns the item at
    the other end, the one that has been in the container longest:
    [popitem] takes the last pair.  It is [x] only when the container was
    empty before.  This holds with [concurrency] off, and with it on. *)
Theorem get_after_put_returns_container_tail :
  forall (fuel : nat) (env env' : police -> police) (t : task) (x : ref)
         (indicators : list MappableTraffic) (block block' : bool)
         (timeout : option float) (s : police),
    _shutdown s = false ->
    ctx_cursor s t = None ->
    (forall m, maxsize s = Some m -> (len (_registry s) < m)%Z) ->
    NoDup (Dict.keys (_container s)) ->
    Dict.mem Nat.eqb (id x) (_container s) = false ->
    exists s1 s2,
      put env' t x indicators block false s = (Return tt, s1)
      /\ _container s1 = (id x, x) :: _container s
      /\ get (S fuel) env t block' timeout false false s1
         = Some (Return (Some (last (map snd (_container s)) x)), s2).
Proof.
  intros fuel env env' t x inds block block' timeout s
         Hsh Hcur Hroom Hnd Hfresh.
  destruct (put_body_available t x inds s Hcur Hfresh Hnd)
    as [s1 [Hbody [Hsame _]]].
  destruct (same_but_maps_fields Hsame)
    as (_ & _ & _ & Ect & _ & Ecur & _).
  cbn [_container set_container] in Ect.
  assert (Hcur1 : ctx_cursor s1 t = None).
  { rewrite Ecur. unfold registered.
    destruct (Dict.mem Nat.eqb (id x) (_registry s)); exact Hcur. }
  assert (Hne : _container s1 <> []) by (rewrite Ect; discriminate).
  destruct (@get_takes_last fuel env t block' timeout s1 (id x, x) Hcur1 Hne)
    as [s2 [Hget _]].
  exists s1, s2. split; [| split; [exact Ect |]].
  - rewrite put_running by assumption.
    unfold bind at 1.
    destruct (maxsize s) as [m |] eqn:Hmax.
    + specialize (Hroom m eq_refl).
      assert (E : (m <=? len (_registry s))%Z = false) by (apply Z.leb_gt; lia).
      rewrite E. cbn [andb]. exact Hbody.
    + exact Hbody.
  - rewrite Hget, Ect. now rewrite snd_last.
Qed.

(** Item 10 is available; 11 is put, and the next [get] returns 10. *)
Lemma get_after_put_returns_container_tail_witness :
  exists s1 s2,
    put (fun s => s) 0 11 [] false false
        (arbiter_of None (fun _ => idle_item) [10])
    = (Return tt, s1)
    /\ _container s1 = [(11, 11); (10, 10)]
    /\ get 1 (fun s => s) 0 true None false false s1
       = Some (Return (Some 10), s2).
Proof.
  apply (@get_after_put_returns_container_tail
           0 (fun s => s) (fun s => s) 0 11 [] false true None
           (arbiter_of None (fun _ => idle_item) [10])).
  - reflexivity.
  - reflexivity.
  - intros m H. discriminate H.
  - vm_compute. repeat constructor. simpl. tauto.
  - reflexivity.
Defined.

(** ** Indicators: [memorize], [locate], [forget] *)




(** ** One borrow per task *)

(** C4 (amended).  For a task that holds an item: [borrow] with no
    traffic indicator is re-entrant, it hands out the item held, raises
    nothing and changes nothing; [borrow] by an indicator bound to
    another item raises [AtomicTraffic], and so does [get].  A sibling
    task that holds nothing borrows with success as soon as the
    container is not empty, and the first task keeps its item. *)
Theorem second_borrow_reentrant_or_atomic :
  forall (fuel : nat) (env : police -> police) (t : task)
         (obj_id : nat) (held : ref) (block : bool) (timeout : option float)
         (non_saturated_only not_idle_only : bool) (s : police),
    ctx_cursor s t = Some (obj_id, held) ->
    borrow_enter fuel env t None block timeout not_idle_only s
    = Some (Return held, s)
    /\ (forall (i : MappableTraffic) (other : ref),
           Dict.get key_eqb (key_of i) (_map s) = Some other ->
           id other <> obj_id ->
           exists s',
             borrow_enter (S fuel) env t (Some (inl i)) block timeout
                          not_idle_only s
             = Some (Raise AtomicTraffic, s'))
    /\ (exists s',
           get (S fuel) env t block timeout non_saturated_only not_idle_only s
           = Some (Raise AtomicTraffic, s'))
    /\ (forall t' : task,
           ctx_cursor s t' = None ->
           _container s <> [] ->
           exists (item : ref) (s' : police),
             borrow_enter (S fuel) env t' None block timeout false s
             = Some (Return item, s')
             /\ ctx_cursor s' t' = Some (last (_container s) (obj_id, held))
             /\ item = snd (last (_container s) (obj_id, held))
             /\ ctx_cursor s' t = Some (obj_id, held)).
Proof.
  intros fuel env t obj_id held block timeout nso nio s Hcur.
  split; [| split; [| split]].
  - unfold borrow_enter. now rewrite Hcur.
  - intros i other Hmap Hother.
    assert (Hne : Nat.eqb obj_id (id other) = false)
      by (apply Nat.eqb_neq; congruence).
    unfold borrow_enter, locate.
    destruct timeout as [tm |]; [destruct (ctx_wait_clock s t) |].
    all: unfold_monad; fields; rewrite Hmap; cbn [locate_loop]; fields.
    all: rewrite Hcur, Hne; eexists; reflexivity.
  - unfold get. destruct timeout as [tm |]; cbn [get_loop].
    all: unfold_monad; fields; rewrite Hcur; eexists; reflexivity.
  - intros t' Hcur' Hne.
    assert (Htt : t <> t') by (intros ->; congruence).
    destruct (@get_takes_last fuel env t' block timeout s (obj_id, held)
                              Hcur' Hne)
      as (s' & Hget & Hc' & Hframe & _).
    exists (snd (last (_container s) (obj_id, held))), s'.
    unfold borrow_enter. rewrite Hcur', Hget.
    repeat split; try assumption.
    rewrite Hframe by assumption. exact Hcur.
Qed.

Lemma second_borrow_reentrant_or_atomic_witness :
  borrow_enter 1 (fun s => s) 0 None true None false holding_with_promise
  = Some (Return 12, holding_with_promise)
  /\ (exists s',
         borrow_enter 1 (fun s => s) 0 (Some (inl (Promise 77))) true None
                      false holding_with_promise
         = Some (Raise AtomicTraffic, s'))
  /\ (exists s',
         get 1 (fun s => s) 0 true None false false holding_with_promise
         = Some (Raise AtomicTraffic, s'))
  /\ (exists (item : ref) (s' : police),
         borrow_enter 1 (fun s => s) 1 None true None false
                      holding_with_promise
         = Some (Return item, s')
         /\ ctx_cursor s' 1 = Some (10, 10)
         /\ item = 10
         /\ ctx_cursor s' 0 = Some (12, 12)).
Proof.
  destruct (@second_borrow_reentrant_or_atomic
              0 (fun s => s) 0 12 12 true None false false
              holding_with_promise eq_refl)
    as (H1 & H2 & H3 & H4).
  split; [exact H1 |]. split; [| split; [exact H3 |]].
  - apply (H2 (Promise 77) 11); [reflexivity | discriminate].
  - apply (H4 1); [reflexivity | discriminate].
Defined.

(** C4, as stated, fails for the plain [borrow]: the task that holds
    item 12 borrows again and is handed item 12, with no exception. *)
Lemma second_borrow_counterexample :
  ctx_cursor holding_another_item 0 = Some (12, 12)
  /\ option_map fst
       (borrow_enter 1 (fun s => s) 0 None true None false
                     holding_another_item)
     = Some (Return 12).
Proof. split; reflexivity. Qed.

(** ** Eviction on overflow *)

(** C3 (amended).  On an arbiter that is not shut down, with [maxsize]
    set and reached, [put] of an item that the registry does not know
    evicts the first entry of the registry, in insertion order, that is
    both in the container and idle: that item leaves both indicator
    maps, the registry and the container, where the other items stay as
    they are, and it is closed.  The other tasks run while it closes,
    and [put] then admits the new item on the arbiter as they left it:
    the item is registered last, it goes to the head of the container,
    or to the cursor of the calling task when it is wanted at once
    (and to the container too when [concurrency] is on), and every
    indicator given is bound to it.  When the registry is not empty and
    none of its entries is both in the container and idle, [put] raises
    [OverwhelmedTraffic] and leaves the arbiter as it was. *)
Theorem put_at_capacity_evicts_first_idle :
  forall (env : police -> police) (t : task) (item : ref)
         (indicators : list MappableTraffic)
         (block immediately_unavailable : bool) (m : Z) (s : police),
    _shutdown s = false ->
    well_formed s ->
    maxsize s = Some m ->
    (m <= len (_registry s))%Z ->
    Dict.mem Nat.eqb (id item) (_registry s) = false ->
    (forall (l1 l2 : Dict.t nat ref) (obj_id : nat) (evicted : ref),
        _registry s = l1 ++ (obj_id, evicted) :: l2 ->
        Forall (fun kv => disposable s kv = false) l1 ->
        disposable s (obj_id, evicted) = true ->
        exists s1,
          (* the eviction: [s1] is the arbiter when [close()] is
             awaited *)
          closed s1 = closed s ++ [evicted]
          /\ _registry s1 = l1 ++ l2
          /\ Dict.mem Nat.eqb (id item) (_registry s1) = false
          /\ _container s1 = Dict.remove Nat.eqb obj_id (_container s)
          /\ Dict.mem Nat.eqb obj_id (_container s1) = false
          /\ (forall k, k <> obj_id ->
                        Dict.mem Nat.eqb k (_container s1)
                        = Dict.mem Nat.eqb k (_container s))
          /\ (forall k, Dict.get key_eqb k (_map s1) <> Some evicted)
          /\ maps_agree s1
          /\ ctx_cursor s1 = ctx_cursor s
          (* the admission, on what the other tasks made of [s1] *)
          /\ put env t item indicators block immediately_unavailable s
             = put_body t item indicators immediately_unavailable (env s1)
          /\ (Dict.mem Nat.eqb (id item) (_registry (env s1)) = false ->
              exists s',
                put env t item indicators block immediately_unavailable s
                = (Return tt, s')
                /\ closed s' = closed (env s1)
                /\ _registry s' = _registry (env s1) ++ [(id item, item)]
                /\ _container s'
                   = (if negb immediately_unavailable
                         || concurrency (env s1)
                      then Dict.update Nat.eqb [(id item, item)]
                                       (_container (env s1))
                      else _container (env s1))
                /\ (negb immediately_unavailable || concurrency (env s1)
                    = true ->
                    Dict.mem Nat.eqb (id item) (_container s') = true)
                /\ ctx_cursor s' t
                   = (if immediately_unavailable then Some (id item, item)
                      else ctx_cursor (env s1) t)
                /\ (forall t', t' <> t ->
                               ctx_cursor s' t' = ctx_cursor (env s1) t')
                /\ (forall i, In i indicators ->
                              Dict.get key_eqb (key_of i) (_map s')
                              = Some item)
                /\ (forall k, ~ In k (map key_of indicators) ->
                              Dict.get key_eqb k (_map s')
                              = Dict.get key_eqb k (_map (env s1))
                              /\ Dict.get key_eqb k (_map_types s')
                                 = Dict.get key_eqb k (_map_types (env s1)))
                /\ (maps_agree (env s1) -> maps_agree s')))
    /\ (_registry s <> [] ->
        Forall (fun kv => disposable s kv = false) (_registry s) ->
        put env t item indicators block immediately_unavailable s
        = (Raise OverwhelmedTraffic, s)).
Proof.
  intros env t item inds block iu m s Hsh Hwf Hmax Hfull Hnew.
  assert (Hgate : (m <=? len (_registry s))%Z
                  && negb (Dict.mem Nat.eqb (id item) (_registry s)) = true).
  { rewrite Hnew. apply andb_true_intro. split; [now apply Z.leb_le | reflexivity]. }
  split.
  - intros l1 l2 obj_id evicted Hreg Hl1 Hev.
    destruct (@sacrifice_evicts env s l1 l2 obj_id evicted Hwf Hreg Hl1 Hev)
      as (s0 & Hsame & Hag0 & Hval0 & Hrun).
    destruct (same_but_maps_fields Hsame)
      as (_ & _ & Er & Ect & _ & Ec & _ & _ & Ecl & _).
    set (s1 := set_closed (closed s ++ [evicted])
                 (set_container (Dict.remove Nat.eqb obj_id (_container s))
                    (set_registry (l1 ++ l2) s0))) in *.
    assert (Hin : forall k, In k (Dict.keys (l1 ++ l2)) ->
                            In k (Dict.keys (_registry s))).
    { intros k. rewrite Hreg. unfold Dict.keys. rewrite !map_app, !in_app_iff.
      simpl. tauto. }
    assert (Hnew1 : Dict.mem Nat.eqb (id item) (_registry s1) = false).
    { unfold s1; fields. apply (DictFacts.mem_false Nat.eqb Nat.eqb_eq).
      intros H. apply Hin in H.
      now apply (DictFacts.mem_false Nat.eqb Nat.eqb_eq) in Hnew. }
    assert (Hput : put env t item inds block iu s
                   = put_body t item inds iu (env s1)).
    { rewrite put_running by assumption. rewrite Hmax, Hgate.
      unfold bind at 1. now rewrite Hrun. }
    exists s1. unfold s1 at 1 2 4 5 6 7 8 9. fields.
    split; [reflexivity |]. split; [reflexivity |]. split; [exact Hnew1 |].
    split; [reflexivity |].
    split; [apply mem_remove_same, (wf_container Hwf) |].
    split; [intros k Hk; apply mem_remove_other; congruence |].
    split; [intros k Hk; now apply Hval0 in Hk |].
    split; [exact Hag0 |]. split; [exact Ec |]. split; [exact Hput |].
    intros Hnew'.
    destruct (@put_body_admits t item inds iu (env s1) Hnew')
      as (s' & Hbody & Hr' & Hcl' & Hc' & Hcur' & Hoth' & Hind' & Hkeep' & Hag').
    exists s'. rewrite Hput.
    split; [exact Hbody |]. split; [exact Hcl' |]. split; [exact Hr' |].
    split; [exact Hc' |].
    split; [| split; [exact Hcur' |]; split; [exact Hoth' |];
              split; [exact Hind' |]; split; [exact Hkeep' | exact Hag']].
    intros Hhead. rewrite Hc', Hhead, mem_update.
    unfold Dict.mem at 1. cbn [Dict.get]. now rewrite Nat.eqb_refl.
  - intros Hne Hall. rewrite put_running by assumption.
    rewrite Hmax, Hgate. unfold bind at 1.
    now rewrite sacrifice_overwhelmed.
Qed.

(** [maxsize = 3]: A, B, C are put idle, in that order, then D is put
    with a promise, no other task running meanwhile: A is closed and
    goes, D is registered last, heads the container and is bound to the
    promise.  When A, B, C are in use, the [put] is refused. *)
Lemma put_at_capacity_evicts_first_idle_witness :
  (exists s',
      put (fun s => s) 0 13 [Promise 77] false false
          (arbiter_of (Some 3%Z) (fun _ => idle_item) [10; 11; 12])
      = (Return tt, s')
      /\ closed s' = [10]
      /\ _registry s' = [(11, 11); (12, 12); (13, 13)]
      /\ _container s' = [(13, 13); (12, 12); (11, 11)]
      /\ ctx_cursor s' 0 = None
      /\ Dict.get key_eqb (KId 77) (_map s') = Some 13)
  /\ put (fun s => s) 0 13 [] false false
         (arbiter_of (Some 3%Z) (fun _ => used_item) [10; 11; 12])
     = (Raise OverwhelmedTraffic,
        arbiter_of (Some 3%Z) (fun _ => used_item) [10; 11; 12]).
Proof.
  split.
  - destruct (@put_at_capacity_evicts_first_idle
                (fun s => s) 0 13 [Promise 77] false false 3%Z
                (arbiter_of (Some 3%Z) (fun _ => idle_item) [10; 11; 12]))
      as [H _].
    + reflexivity.
    + split; vm_compute; repeat constructor; simpl; intuition discriminate.
    + reflexivity.
    + vm_compute. discriminate.
    + reflexivity.
    + destruct (H [] [(11, 11); (12, 12)] 10 10 eq_refl (Forall_nil _) eq_refl)
        as (s1 & Hcl & Hr & Hnew & Hc & _ & _ & _ & _ & Hcur & _ & Hadm).
      destruct (Hadm Hnew)
        as (s' & Hput & Hcl' & Hr' & Hc' & _ & Hcur' & _ & Hind & _).
      exists s'. split; [exact Hput |].
      cbv beta in Hcl', Hr', Hc', Hcur'.
      rewrite Hcl', Hcl, Hr', Hr, Hc', Hc, Hcur', Hcur.
      repeat split. apply (Hind (Promise 77)). now left.
  - destruct (@put_at_capacity_evicts_first_idle
                (fun s => s) 0 13 [] false false 3%Z
                (arbiter_of (Some 3%Z) (fun _ => used_item) [10; 11; 12]))
      as [_ H].
    + reflexivity.
    + split; vm_compute; repeat constructor; simpl; intuition discriminate.
    + reflexivity.
    + vm_compute. discriminate.
    + reflexivity.
    + apply H; [discriminate | repeat constructor].
Defined.

(** C3, as stated, fails twice.  On an arbiter that is shut down nothing
    is evicted: the idle item 10 stays registered and open.  With
    [maxsize = 0] the registry holds [maxsize] items, none of them
    disposable, and the new item is admitted with no exception. *)
Lemma put_at_capacity_counterexample :
  (maxsize full_and_shut_down = Some 3%Z
   /\ len (_registry full_and_shut_down) = 3%Z
   /\ Dict.mem Nat.eqb (id 13) (_registry full_and_shut_down) = false
   /\ disposable full_and_shut_down (10, 10) = true
   /\ fst (put (fun s => s) 0 13 [] false false full_and_shut_down)
      = Return tt
   /\ _registry (snd (put (fun s => s) 0 13 [] false false
                          full_and_shut_down))
      = [(10, 10); (11, 11); (12, 12)]
   /\ closed (snd (put (fun s => s) 0 13 [] false false
                       full_and_shut_down)) = [])
  /\ (maxsize no_room_at_all = Some 0%Z
      /\ len (_registry no_room_at_all) = 0%Z
      /\ _shutdown no_room_at_all = false
      /\ fst (put (fun s => s) 0 13 [] false false no_room_at_all)
         = Return tt
      /\ _registry (snd (put (fun s => s) 0 13 [] false false
                             no_room_at_all))
         = [(13, 13)]).
Proof. repeat split. Qed.

(** * Further properties of the code *)

(** ** Reading without a size, and reading what is closed *)

Section UnsizedReads.
Import LowLevelResponse LowLevelResponseSpec LowLevelResponseFacts Runs.
Import Examples MoreExamples.

(** X1.  Before the end of the transmission, [read()] with no size asks
    the body reader for one frame and returns the overflow buffer
    followed by that frame, all of it: the overflow buffer is left empty,
    no byte of the body is lost or handed out twice, and the response is
    closed exactly when the reader said that the frame was the last. *)
Theorem read_unsized_returns_what_is_at_hand :
  forall (r : LowLevelResponse.t) (rd : body_reader),
    closed r = false -> internal_read_st r = Some rd -> _eot r = false ->
    exists r',
      read None r = (Return (available r), r')
      /\ available r
         = buffer_excess r ++ fst (fst (call rd None (_stream_id r)))
      /\ buffer_excess r' = []
      /\ internal_read_st r' = Some (snd (call rd None (_stream_id r)))
      /\ closed r' = snd (fst (call rd None (_stream_id r)))
      /\ _eot r' = closed r'
      /\ remaining r = available r ++ remaining r'.
Proof.
  intros r rd Hopen Hrd Heot.
  destruct r as [st ve re me irs cl eot sid ex]; simpl in Hopen, Hrd, Heot.
  subst. unfold read, available, remaining.
  cbn [closed internal_read_st _eot buffer_excess _stream_id negb].
  destruct rd as [| f [| g rest]]; cbn [call fst snd].
  all: cbn [set_reader set_eot set_buffer_excess set_closed buffer_excess
            status version reason _method internal_read_st closed _eot
            _stream_id].
  all: destruct ex as [| b ex]; cbn [nonempty app length Nat.eqb andb].
  all: cbn [set_reader set_eot set_buffer_excess set_closed buffer_excess
            status version reason _method internal_read_st closed _eot
            _stream_id].
  all: eexists; split; [reflexivity |].
  all: cbn [buffer_excess internal_read_st closed _eot concat app].
  all: rewrite ?app_nil_r; repeat split; try reflexivity.
  all: now rewrite <- ?app_assoc, ?app_comm_cons.
Qed.

Lemma read_unsized_returns_what_is_at_hand_witness :
  exists r',
    read None two_frames = (Return (list_byte_of_string "ab"), r')
    /\ list_byte_of_string "ab" = [] ++ list_byte_of_string "ab"
    /\ buffer_excess r' = []
    /\ internal_read_st r' = Some [list_byte_of_string "cd"]
    /\ closed r' = false
    /\ _eot r' = closed r'
    /\ list_byte_of_string "abcd" = list_byte_of_string "ab" ++ remaining r'.
Proof.
  apply (@read_unsized_returns_what_is_at_hand
           two_frames [list_byte_of_string "ab"; list_byte_of_string "cd"]);
    reflexivity.
Defined.

(** X2.  After the end of the transmission, [read()] with no size returns
    the overflow buffer and does not empty it: as long as bytes are left
    there, the response stays open and as it was, and each further
    [read()] returns the same bytes once more. *)
Theorem read_unsized_at_end_keeps_overflow :
  forall (r : LowLevelResponse.t) (k : nat),
    closed r = false -> internal_read_st r <> None -> _eot r = true ->
    buffer_excess r <> [] ->
    read_times k None r = (repeat (Return (buffer_excess r)) k, r).
Proof.
  intros r k Hopen Hrd Heot Hex.
  assert (Hone : read None r = (Return (buffer_excess r), r)).
  { destruct r as [st ve re me irs cl eot sid ex]; simpl in *; subst.
    destruct irs as [rd |]; [| congruence].
    destruct ex as [| b ex]; [congruence |]. reflexivity. }
  induction k as [| k IH]; cbn [read_times repeat]; [reflexivity |].
  now rewrite Hone, IH.
Qed.

(** The body [abcd] came in one frame and [read(3)] has returned [abc]:
    [read()] returns [d], and [d] again. *)
Lemma read_unsized_at_end_keeps_overflow_witness :
  read_times 2 None one_frame_cut
  = ([Return (list_byte_of_string "d"); Return (list_byte_of_string "d")],
     one_frame_cut).
Proof.
  apply (@read_unsized_at_end_keeps_overflow one_frame_cut 2);
    [reflexivity | discriminate | reflexivity | discriminate].
Defined.

(** X3.  A closed response refuses every [read], whatever the size, zero
    included: the call raises [ValueError] and the response is left as it
    is.  That is the case after [close()] and for a response built
    without a body.  On an open response [read(0)] returns no byte and
    consumes nothing. *)
Theorem read_on_closed_response_raises :
  forall (size : option Z) (r : LowLevelResponse.t)
         (method reason : string) (status version : Z) (sid : option Z),
    (closed r = true -> read size r = (Raise ValueError, r))
    /\ isclosed (close r) = true
    /\ read size (close r) = (Raise ValueError, close r)
    /\ read size (__init__ method status version reason None sid)
       = (Raise ValueError, __init__ method status version reason None sid)
    /\ (closed r = false -> internal_read_st r <> None ->
        read (Some 0%Z) r = (Return [], r)).
Proof.
  intros size r method reason status version sid.
  split; [| split; [| split; [| split]]]; try reflexivity.
  - intros H. unfold read. now rewrite H.
  - intros Hopen Hrd. unfold read. rewrite Hopen.
    destruct (internal_read_st r); [reflexivity | congruence].
Qed.

(** A response that was closed before its body was read, and an open
    one asked for no byte. *)
Lemma read_on_closed_response_raises_witness :
  read (Some 3%Z) (close two_frames) = (Raise ValueError, close two_frames)
  /\ read (Some 0%Z) two_frames = (Return [], two_frames).
Proof.
  destruct (@read_on_closed_response_raises
              (Some 3%Z) two_frames "GET"%string "OK"%string 200%Z 20%Z None)
    as (_ & _ & H3 & _ & H5).
  split; [exact H3 | apply H5; [reflexivity | discriminate]].
Defined.

End UnsizedReads.

(** ** The parameters of a promise *)

Section PromiseParameters.
Import ResponsePromise ResponsePromiseParameters Examples MoreExamples.

(** X4.  [get_parameter] never raises: it returns the value stored
    under the key, and [None] for a key that was never set.  After
    [set_parameter(key, value)] it returns [value] for [key] and what it
    returned before for every other key; the promise keeps its uid, so
    it still compares equal to what it was. *)
Theorem set_parameter_then_get_parameter :
  forall (p : ResponsePromise.t) (key value other : string),
    get_parameter key (set_parameter key value p) = Return (Some value)
    /\ (other <> key ->
        get_parameter other (set_parameter key value p)
        = get_parameter other p)
    /\ (exists found, get_parameter key p = Return found)
    /\ (Dict.mem String.eqb key (_parameters p) = false ->
        get_parameter key p = Return None)
    /\ __eq__ (set_parameter key value p) (Promise p) = true.
Proof.
  intros p key value other.
  unfold get_parameter, set_parameter, Dict.mem.
  cbn [_parameters].
  split; [| split; [| split; [| split]]].
  - now rewrite (DictFacts.get_set_same String.eqb String.eqb_eq).
  - intros Hne.
    rewrite (DictFacts.get_set_other String.eqb String.eqb_eq)
      by congruence.
    reflexivity.
  - destruct (Dict.get String.eqb key (_parameters p)); eauto.
  - intros H. now rewrite H.
  - unfold __eq__, uid. cbn [_uid]. apply String.eqb_refl.
Qed.

Lemma set_parameter_then_get_parameter_witness :
  get_parameter "start" (set_parameter "start" "1" some_promise)
  = Return (Some "1"%string)
  /\ get_parameter "retries" (set_parameter "start" "1" some_promise)
     = get_parameter "retries" some_promise
  /\ get_parameter "retries" some_promise = Return None.
Proof.
  destruct (@set_parameter_then_get_parameter
              some_promise "start"%string "1"%string "retries"%string)
    as (H1 & H2 & _).
  destruct (@set_parameter_then_get_parameter
              some_promise "retries"%string "1"%string "start"%string)
    as (_ & _ & _ & H4 & _).
  split; [exact H1 |].
  split; [apply H2; discriminate | apply H4; reflexivity].
Defined.

End PromiseParameters.

(** ** More on the traffic police *)

Module AsyncTrafficPoliceMoreFacts.
Import AsyncTrafficPolice AsyncTrafficPoliceSpec AsyncTrafficPoliceTerms.
Import AsyncTrafficPoliceFacts.
Local Open Scope police_scope.

(** [{k: x}] updated with a dict [c]: [k] comes first, with the value
    that [c] gives it if it has one, then the rest of [c] in order. *)
Lemma push_front_acc (k : nat) (c : Dict.t nat ref) :
  forall (acc : Dict.t nat ref) (x0 : ref),
    NoDup (Dict.keys c) ->
    (forall k', In k' (Dict.keys c) -> ~ In k' (Dict.keys acc)) ->
    ~ In k (Dict.keys acc) ->
    fold_left (fun a kv => Dict.set Nat.eqb (fst kv) (snd kv) a) c
              ((k, x0) :: acc)
    = (k, match Dict.get Nat.eqb k c with Some v => v | None => x0 end)
        :: acc ++ Dict.remove Nat.eqb k c.
Proof.
  induction c as [| [k1 v1] c IH]; intros acc x0 Hnd Hdis Hk.
  - cbn. now rewrite app_nil_r.
  - inversion Hnd as [| ? ? Hk1 Hnd']; subst.
    cbn [fold_left fst snd Dict.set Dict.get Dict.remove].
    destruct (Nat.eqb_spec k1 k) as [-> | Hne].
    + rewrite Nat.eqb_refl. rewrite IH; try assumption.
      * apply (DictFacts.get_none Nat.eqb Nat.eqb_eq) in Hk1 as Hg.
        rewrite Hg. now rewrite (DictFacts.remove_fresh Nat.eqb Nat.eqb_eq).
      * intros k' Hin. apply Hdis. now right.
    + assert (Hne' : Nat.eqb k k1 = false) by (apply Nat.eqb_neq; congruence).
      rewrite Hne'.
      rewrite (DictFacts.set_fresh Nat.eqb Nat.eqb_eq)
        by (apply Hdis; now left).
      rewrite IH; try assumption.
      * now rewrite <- app_assoc.
      * intros k' Hin. unfold Dict.keys. rewrite map_app, in_app_iff.
        cbn. intros [H | [<- | []]]; [| contradiction].
        revert H. apply Hdis. now right.
      * unfold Dict.keys. rewrite map_app, in_app_iff. cbn.
        intros [H | [H | []]]; [contradiction | congruence].
Qed.

Lemma push_front_spec (k : nat) (x : ref) (c : Dict.t nat ref) :
  NoDup (Dict.keys c) ->
  Dict.update Nat.eqb [(k, x)] c
  = (k, match Dict.get Nat.eqb k c with Some v => v | None => x end)
      :: Dict.remove Nat.eqb k c.
Proof.
  intros Hnd. unfold Dict.update.
  now rewrite (@push_front_acc k c [] x Hnd) by (cbn; tauto).
Qed.

(** In a dict with unique keys a pair is found under its key. *)
Lemma in_get (V : Type) (k : key) (v : V) (d : Dict.t key V) :
  NoDup (Dict.keys d) -> In (k, v) d -> Dict.get key_eqb k d = Some v.
Proof.
  induction d as [| [k1 v1] d IH]; cbn; intros Hnd Hin; [contradiction |].
  inversion Hnd as [| ? ? Hk1 Hnd']; subst.
  destruct Hin as [[= -> ->] | Hin].
  - now rewrite (DictFacts.eqb_refl key_eqb key_eqb_eq).
  - destruct (key_eqb k k1) eqn:E; [| auto].
    apply key_eqb_eq in E. subst. exfalso. apply Hk1.
    unfold Dict.keys. apply in_map_iff. now exists (k1, v).
Qed.

Lemma pytype_is_eq (a b : pytype) : pytype_is a b = true -> a = b.
Proof. destruct a, b; simpl; congruence. Qed.

(** One pass of [_find_by] over entries whose keys the map knows: no
    lookup fails, and what is returned is bound, in use and available. *)
Lemma find_by_scan_sound (s : police) (ty : pytype) :
  forall (l : list (key * pytype)) (any : bool),
    (forall k v, In (k, v) l -> Dict.mem key_eqb k (_map s) = true) ->
    match _find_by_scan s ty l any with
    | (Raise _, _) => False
    | (Return None, _) => True
    | (Return (Some x), _) =>
      exists k, In (k, ty) l
                /\ Dict.get key_eqb k (_map s) = Some x
                /\ is_idle (objects s x) = false
                /\ Dict.mem Nat.eqb (id x) (_container s) = true
    end.
Proof.
  induction l as [| [k v] l IH]; intros any Hl; cbn [_find_by_scan].
  - exact I.
  - assert (Hl' : forall k v, In (k, v) l -> Dict.mem key_eqb k (_map s) = true)
      by (intros; eapply Hl; right; eassumption).
    assert (Hstep : forall any',
               match _find_by_scan s ty l any' with
               | (Raise _, _) => False
               | (Return None, _) => True
               | (Return (Some x), _) =>
                 exists k0, In (k0, ty) ((k, v) :: l)
                            /\ Dict.get key_eqb k0 (_map s) = Some x
                            /\ is_idle (objects s x) = false
                            /\ Dict.mem Nat.eqb (id x) (_container s) = true
               end).
    { intros any'. specialize (IH any' Hl').
      destruct (_find_by_scan s ty l any') as [[[x |] | e] a]; auto.
      destruct IH as (k0 & H1 & H2). exists k0. split; [now right | exact H2]. }
    destruct (pytype_is v ty) eqn:Ety; [| apply Hstep].
    apply pytype_is_eq in Ety. subst v.
    pose proof (Hl k ty (or_introl eq_refl)) as Hk.
    apply DictFacts.mem_get in Hk as [x Hx]. rewrite Hx.
    destruct (is_idle (objects s x)) eqn:Eidle; [apply Hstep |].
    destruct (Dict.mem Nat.eqb (id x) (_container s)) eqn:Ec; [| apply Hstep].
    exists k. repeat split; try assumption. now left.
Qed.

(** The keys of the type map are keys of the item map, when both
    agree. *)
Lemma map_types_known (s : police) :
  maps_agree s ->
  forall k v, In (k, v) (_map_types s) -> Dict.mem key_eqb k (_map s) = true.
Proof.
  intros Hag k v Hin. apply (DictFacts.mem_true key_eqb key_eqb_eq).
  rewrite Hag. unfold Dict.keys. apply in_map_iff. now exists (k, v).
Qed.

(** What a call leaves alone, along its text. *)
Section Leaves.
Context {X : Type} (f : police -> X).

Lemma leaves_ret (A : Type) (a : A) : leaves f (ret a).
Proof. intros s. reflexivity. Qed.

Lemma leaves_raise (A : Type) (e : exn) : leaves f (@raise A e).
Proof. intros s. reflexivity. Qed.

Lemma leaves_gets (A : Type) (g : police -> A) : leaves f (gets g).
Proof. intros s. reflexivity. Qed.

Lemma leaves_bind (A B' : Type) (m : M A) (k : A -> M B') :
  leaves f m -> (forall a, leaves f (k a)) -> leaves f (bind m k).
Proof.
  intros Hm Hk s. unfold bind. specialize (Hm s).
  destruct (m s) as [[a | e] s1]; cbn [snd] in *; [| exact Hm].
  now rewrite Hk.
Qed.

Lemma leaves_for_each (A : Type) (g : A -> M unit) (l : list A) :
  (forall a, leaves f (g a)) -> leaves f (for_each g l).
Proof.
  intros Hg. induction l as [| a l IH]; cbn [for_each].
  - apply leaves_ret.
  - apply leaves_bind; auto.
Qed.

End Leaves.

(** A call taken apart along its text; what is left are the updates of
    single fields. *)
Ltac leaves_step :=
  first
    [ apply leaves_ret | apply leaves_raise | apply leaves_gets
    | apply leaves_for_each; intros ?
    | apply leaves_bind; [| intros ?]
    | match goal with
      | |- leaves _ (if ?b then _ else _) => destruct b
      | |- leaves _ (match ?x with _ => _ end) => destruct x
      end
    | (intros ?; reflexivity)
    | (intros ?;
       unfold del_registry, del_container, del_map, del_map_types, Dict.del;
       match goal with
       | |- context [Dict.get ?e ?k ?d] => destruct (Dict.get e k d)
       end; reflexivity) ].

Lemma leaves_managed_map_clear (r : ref) : leaves managed (_map_clear r).
Proof. unfold _map_clear. repeat leaves_step. Qed.

Lemma bind_run (A B' : Type) (m : M A) (k : A -> M B') (s : police) :
  bind m k s
  = match m s with
    | (Return a, s1) => k a s1
    | (Raise e, s1) => (Raise e, s1)
    end.
Proof. unfold bind. now destruct (m s) as [[a | e] s1]. Qed.

(** [_map_clear] returns, or raises [KeyError]. *)
Lemma map_clear_outcome (r : ref) (s : police) :
  fst (_map_clear r s) = Return tt \/ fst (_map_clear r s) = Raise KeyError.
Proof.
  assert (Hdel : forall k s0,
             fst ((del_map k ;; del_map_types k) s0) = Return tt
             \/ fst ((del_map k ;; del_map_types k) s0) = Raise KeyError).
  { intros k s0. unfold_monad. unfold Dict.del.
    destruct (Dict.get key_eqb k (_map s0)); [| now right]. fields.
    destruct (Dict.get key_eqb k (_map_types s0)); [now left | now right]. }
  assert (Hall : forall ks s0,
             fst (for_each (fun k => del_map k ;; del_map_types k) ks s0)
             = Return tt
             \/ fst (for_each (fun k => del_map k ;; del_map_types k) ks s0)
                = Raise KeyError).
  { induction ks as [| k ks IH]; intros s0; cbn [for_each]; [now left |].
    rewrite bind_run. specialize (Hdel k s0).
    destruct ((del_map k ;; del_map_types k) s0) as [[[] | e] s1];
      cbn [fst] in *; [apply IH |].
    destruct Hdel as [Hdel | Hdel]; [discriminate | now right]. }
  assert (E : _map_clear r s
              = if negb (Dict.mem Nat.eqb (id r) (_registry s))
                then (Return tt, s)
                else for_each (fun k => del_map k ;; del_map_types k)
                              (map fst
                                   (filter (fun kv : key * ref =>
                                              Nat.eqb (id (snd kv)) (id r))
                                           (_map s))) s).
  { unfold _map_clear. unfold_monad. now destruct (negb _). }
  rewrite E. destruct (negb _); [now left | apply Hall].
Qed.

End AsyncTrafficPoliceMoreFacts.

Import AsyncTrafficPoliceTerms AsyncTrafficPoliceMoreFacts MoreExamples.

(** *** What every reachable arbiter satisfies *)

(** X5.  Whatever calls were made on an arbiter since it was built, by
    whatever tasks, the two indicator maps hold the same keys in the
    same order, every entry of the registry is filed under the identity
    of its item, and no key is twice in the registry, the container or
    the maps. *)
Theorem reachable_arbiter_is_consistent :
  forall s : police,
    reachable s ->
    Dict.keys (_map s) = Dict.keys (_map_types s)
    /\ Forall (fun kv => fst kv = id (snd kv)) (_registry s)
    /\ NoDup (Dict.keys (_registry s))
    /\ NoDup (Dict.keys (_container s))
    /\ NoDup (Dict.keys (_map s)).
Proof.
  intros s H.
  destruct (AsyncTrafficPoliceInvariant.reachable_well_formed H)
    as [H1 H2 H3 H4 H5].
  repeat split; assumption.
Qed.

(** Items 10 and 11 were put, 12 was put and kept by task 0, and the
    promise 77 was bound to item 11. *)
Lemma reachable_arbiter_is_consistent_witness :
  Dict.keys (_map holding_with_promise)
  = Dict.keys (_map_types holding_with_promise)
  /\ Forall (fun kv => fst kv = id (snd kv)) (_registry holding_with_promise)
  /\ NoDup (Dict.keys (_registry holding_with_promise))
  /\ NoDup (Dict.keys (_container holding_with_promise))
  /\ NoDup (Dict.keys (_map holding_with_promise)).
Proof.
  apply (@reachable_arbiter_is_consistent holding_with_promise).
  unfold holding_with_promise, holding_another_item, arbiter_of.
  cbn [fold_left].
  apply reach_memorize.
  do 3 (apply reach_put; [| intros s0 H0; exact H0]).
  apply reach_init.
Defined.

(** X6.  On a well-formed arbiter, and so on every reachable one, the
    search of an item by the class of its indicators, [_find_by], which
    [beacon] and [borrow] use when they are given a class, raises
    nothing: each key of the type map is a key of the item map.  When it
    returns an item, that item is bound to an indicator of the class, is
    not idle and is in the container.  A non-blocking search ends
    without a sleep. *)
Theorem find_by_returns_bound_busy_available_item :
  forall (fuel : nat) (env : police -> police) (ty : pytype) (block : bool)
         (s : police),
    well_formed s -> fair env ->
    (forall r s',
        _find_by fuel env ty block s = Some (r, s') ->
        match r with
        | Raise _ => False
        | Return None => True
        | Return (Some x) =>
          exists k, Dict.get key_eqb k (_map_types s') = Some ty
                    /\ Dict.get key_eqb k (_map s') = Some x
                    /\ is_idle (objects s' x) = false
                    /\ Dict.mem Nat.eqb (id x) (_container s') = true
        end)
    /\ (exists r, _find_by (S fuel) env ty false s = Some (r, s)).
Proof.
  intros fuel env ty block s Hwf Henv. split.
  - revert s Hwf. induction fuel as [| fuel IH]; intros s Hwf r s';
      cbn [_find_by]; [discriminate |].
    pose proof (@find_by_scan_sound s ty (_map_types s) false
                  (map_types_known (wf_maps_agree Hwf))) as Hscan.
    destruct (_find_by_scan s ty (_map_types s) false) as [[[x |] | e] any].
    + intros [= <- <-]. destruct Hscan as (k & Hin & Hrest).
      exists k. split; [| exact Hrest].
      apply in_get; [| exact Hin].
      rewrite <- (wf_maps_agree Hwf). apply (wf_map Hwf).
    + destruct (negb block); [now intros [= <- <-] |].
      destruct any; [| now intros [= <- <-]].
      apply IH. now apply AsyncTrafficPoliceInvariant.fair_sleep.
    + contradiction.
  - cbn [_find_by negb].
    destruct (_find_by_scan s ty (_map_types s) false) as [[[x |] | e] any];
      eauto.
Qed.

(** The promise 77 is bound to item 11, which is in use and available. *)
Lemma find_by_returns_bound_busy_available_item_witness :
  (exists k, Dict.get key_eqb k (_map_types holding_with_promise)
             = Some ResponsePromise_t
             /\ Dict.get key_eqb k (_map holding_with_promise) = Some 11
             /\ is_idle (objects holding_with_promise 11) = false
             /\ Dict.mem Nat.eqb (id 11) (_container holding_with_promise)
                = true).
Proof.
  assert (Hwf : well_formed holding_with_promise).
  { split; vm_compute; repeat constructor; simpl; intuition discriminate. }
  destruct (@find_by_returns_bound_busy_available_item
              1 (fun s => s) ResponsePromise_t true holding_with_promise Hwf)
    as [H _].
  - intros s Hs. exact Hs.
  - exact (H (Return (Some 11)) holding_with_promise eq_refl).
Defined.

(** *** Giving an item back *)

(** What [release] does, field by field. *)
Lemma release_spec (t : task) (s : police) :
  fst (release t s) = Return tt
  /\ ctx_cursor (snd (release t s)) t = None
  /\ (forall t', t' <> t ->
                 ctx_cursor (snd (release t s)) t' = ctx_cursor s t')
  /\ _registry (snd (release t s)) = _registry s
  /\ _map (snd (release t s)) = _map s
  /\ _map_types (snd (release t s)) = _map_types s
  /\ closed (snd (release t s)) = closed s
  /\ sleeps (snd (release t s)) = sleeps s
  /\ (ctx_cursor s t = None -> release t s = (Return tt, s))
  /\ (forall k x,
         ctx_cursor s t = Some (k, x) -> concurrency s = false ->
         _container (snd (release t s))
         = Dict.update Nat.eqb [(k, x)] (_container s))
  /\ (concurrency s = true -> _container (snd (release t s)) = _container s).
Proof.
  unfold release. unfold_monad.
  destruct (ctx_cursor s t) as [[k x] |] eqn:Hcur.
  - destruct (concurrency s) eqn:Hconc; cbn [negb]; fields.
    all: rewrite ?Nat.eqb_refl.
    all: repeat split; try discriminate; try reflexivity.
    all: try (intros t' Ht'; apply Nat.eqb_neq in Ht'; now rewrite Ht').
    intros k' x' [= <- <-] _. reflexivity.
  - repeat split; try reflexivity; try discriminate; try assumption.
Qed.

(** X7.  [release] never raises.  It empties the cursor of the calling
    task and of no other, and touches neither the registry nor the
    indicator maps, and closes nothing.  With [concurrency] off an item
    held that is not in the container goes to its head; with it on the
    container is left alone.  For a task that holds nothing [release] does nothing,
    so that releasing twice is releasing once. *)
Theorem release_puts_item_back_at_head :
  forall (t : task) (s : police),
    fst (release t s) = Return tt
    /\ ctx_cursor (snd (release t s)) t = None
    /\ (forall t', t' <> t ->
                   ctx_cursor (snd (release t s)) t' = ctx_cursor s t')
    /\ _registry (snd (release t s)) = _registry s
    /\ _map (snd (release t s)) = _map s
    /\ _map_types (snd (release t s)) = _map_types s
    /\ closed (snd (release t s)) = closed s
    /\ (ctx_cursor s t = None -> release t s = (Return tt, s))
    /\ (forall k x,
           ctx_cursor s t = Some (k, x) -> concurrency s = false ->
           NoDup (Dict.keys (_container s)) ->
           Dict.mem Nat.eqb k (_container s) = false ->
           _container (snd (release t s)) = (k, x) :: _container s)
    /\ (concurrency s = true -> _container (snd (release t s)) = _container s)
    /\ release t (snd (release t s)) = (Return tt, snd (release t s)).
Proof.
  intros t s.
  destruct (release_spec t s)
    as (H1 & H2 & H3 & H4 & H5 & H6 & H7 & _ & H8 & H9 & H10).
  repeat split; try assumption.
  - intros k x Hcur Hconc Hnd Hk. rewrite (H9 k x Hcur Hconc).
    now apply push_front_fresh.
  - destruct (release_spec t (snd (release t s)))
      as (_ & _ & _ & _ & _ & _ & _ & _ & H & _).
    now apply H.
Qed.

(** Task 0 holds item 12, items 11 and 10 are available; task 1 holds
    nothing. *)
Lemma release_puts_item_back_at_head_witness :
  _container (snd (release 0 holding_another_item))
  = [(12, 12); (11, 11); (10, 10)]
  /\ ctx_cursor (snd (release 0 holding_another_item)) 0 = None
  /\ release 1 holding_another_item = (Return tt, holding_another_item).
Proof.
  destruct (@release_puts_item_back_at_head 0 holding_another_item)
    as (_ & H2 & _ & _ & _ & _ & _ & _ & H9 & _).
  destruct (@release_puts_item_back_at_head 1 holding_another_item)
    as (_ & _ & _ & _ & _ & _ & _ & H8 & _).
  split; [| split; [exact H2 | apply H8; reflexivity]].
  apply (H9 12 12); try reflexivity.
  vm_compute. repeat constructor; simpl; intuition discriminate.
Defined.

(** X8.  Giving back with [put] the item that the task holds is
    releasing it: on an arbiter that is not shut down, with
    [concurrency] off, [put(x)] with no indicator, for the borrowed item
    [x], leaves the arbiter exactly as [release()] does. *)
Theorem put_of_held_item_is_release :
  forall (env : police -> police) (t : task) (x : ref) (block : bool)
         (s : police),
    _shutdown s = false ->
    concurrency s = false ->
    ctx_cursor s t = Some (id x, x) ->
    Dict.mem Nat.eqb (id x) (_registry s) = true ->
    Dict.mem Nat.eqb (id x) (_container s) = false ->
    put env t x [] block false s = release t s.
Proof.
  intros env t x block s Hsh Hconc Hcur Hreg Hcont.
  rewrite put_running by assumption.
  unfold put_body, release. unfold_monad.
  destruct (maxsize s) as [m |].
  all: rewrite ?Hreg; cbn [negb]; rewrite ?andb_false_r; cbv beta iota.
  all: do 3 (rewrite ?Hreg, ?Hcont, ?Hcur, ?Hconc, ?Nat.eqb_refl;
             cbn [andb negb for_each]; fields; cbv beta iota).
  all: reflexivity.
Qed.

(** Task 0 holds item 12 and gives it back. *)
Lemma put_of_held_item_is_release_witness :
  put (fun s => s) 0 12 [] false false holding_another_item
  = release 0 holding_another_item.
Proof.
  apply (@put_of_held_item_is_release
           (fun s => s) 0 12 false holding_another_item);
    reflexivity.
Defined.

(** A [get] that hands out an item leaves [concurrency] as it is. *)
Lemma get_takes_last_concurrency (fuel : nat) (env : police -> police)
      (t : task) (block : bool) (timeout : option float) (s s' : police)
      (r : outcome (option ref)) :
  ctx_cursor s t = None -> _container s <> [] ->
  get (S fuel) env t block timeout false false s = Some (r, s') ->
  concurrency s' = concurrency s /\ maxsize s' = maxsize s
  /\ _shutdown s' = _shutdown s /\ _map s' = _map s
  /\ _map_types s' = _map_types s /\ closed s' = closed s
  /\ objects s' = objects s.
Proof.
  intros Hcur Hne.
  assert (Hlen : (len (_container s) =? 0)%Z = false).
  { destruct (_container s); [congruence | reflexivity]. }
  assert (Hpos : (0 <? len (_container s))%Z = true).
  { destruct (_container s); [congruence | reflexivity]. }
  pose proof (DictFacts.popitem_last ((0, 0) : nat * ref) Hne) as Hpop.
  destruct (last (_container s) ((0, 0) : nat * ref)) as [k v] eqn:Hlast.
  unfold get.
  destruct timeout as [tm |]; cbn [get_loop]; unfold_monad; fields.
  all: rewrite ?Nat.eqb_refl; rewrite Hcur, Hlen, Hpos; cbn [andb].
  all: unfold get_select; cbn [negb]; fields; rewrite Hpop; fields.
  all: destruct (concurrency s) eqn:Hconc; fields.
  all: intros [= _ <-]; fields; repeat split; assumption.
Qed.

(** X9.  A plain borrow followed by its release moves one item from the
    tail of the container to its head, and changes nothing else in the
    registry or the container: with [concurrency] off, a task that holds
    nothing is handed the last item of the container and, when it leaves
    the [async with] block, that item is back in front of the others. *)
Theorem borrow_then_release_rotates_container :
  forall (fuel : nat) (env : police -> police) (t : task)
         (block : bool) (timeout : option float) (s : police)
         (rest : Dict.t nat ref) (k : nat) (x : ref),
    ctx_cursor s t = None ->
    concurrency s = false ->
    _container s = rest ++ [(k, x)] ->
    NoDup (Dict.keys (_container s)) ->
    exists s1 s2,
      borrow_enter (S fuel) env t None block timeout false s
      = Some (Return x, s1)
      /\ ctx_cursor s1 t = Some (k, x)
      /\ _container s1 = rest
      /\ borrow_exit t s1 = (Return tt, s2)
      /\ _container s2 = (k, x) :: rest
      /\ ctx_cursor s2 t = None
      /\ _registry s2 = _registry s
      /\ sleeps s2 = sleeps s.
Proof.
  intros fuel env t block timeout s rest k x Hcur Hconc Hc Hnd.
  assert (Hne : _container s <> []) by (rewrite Hc; now destruct rest).
  destruct (@get_takes_last fuel env t block timeout s (k, x) Hcur Hne)
    as (s1 & Hget & Hc1 & _ & Hr1 & Hsl1 & Hrest).
  specialize (Hrest Hconc).
  rewrite Hc, last_last in Hget, Hc1. rewrite Hc, removelast_last in Hrest.
  destruct (@get_takes_last_concurrency fuel env t block timeout s s1 _
                                        Hcur Hne Hget)
    as (Hconc1 & _).
  rewrite Hconc in Hconc1.
  destruct (release_spec t s1)
    as (H1 & H2 & _ & H4 & _ & _ & _ & H7 & _ & H9 & _).
  exists s1, (snd (release t s1)).
  split; [unfold borrow_enter; now rewrite Hcur, Hget |].
  split; [exact Hc1 |]. split; [exact Hrest |].
  unfold borrow_exit.
  split; [now destruct (release t s1) as [o s2]; cbn in *; subst |].
  rewrite Hc in Hnd. unfold Dict.keys in Hnd. rewrite map_app in Hnd.
  split; [| split; [exact H2 | split; congruence]].
  rewrite (H9 k x Hc1 Hconc1), Hrest.
  apply push_front_fresh.
  - now apply NoDup_app_remove_r in Hnd.
  - apply (DictFacts.mem_false Nat.eqb Nat.eqb_eq).
    cbn in Hnd. apply NoDup_remove_2 in Hnd. now rewrite app_nil_r in Hnd.
Qed.

(** Items 10 and 11 are available, 11 in front: a task borrows 10 and
    gives it back, and 10 is in front. *)
Lemma borrow_then_release_rotates_container_witness :
  exists s1 s2,
    borrow_enter 1 (fun s => s) 0 None true None false
                 (arbiter_of None (fun _ => idle_item) [10; 11])
    = Some (Return 10, s1)
    /\ ctx_cursor s1 0 = Some (10, 10)
    /\ _container s1 = [(11, 11)]
    /\ borrow_exit 0 s1 = (Return tt, s2)
    /\ _container s2 = [(10, 10); (11, 11)]
    /\ ctx_cursor s2 0 = None
    /\ _registry s2 = [(10, 10); (11, 11)]
    /\ sleeps s2 = 0.
Proof.
  apply (@borrow_then_release_rotates_container
           0 (fun s => s) 0 true None
           (arbiter_of None (fun _ => idle_item) [10; 11])
           [(11, 11)] 10 10).
  - reflexivity.
  - reflexivity.
  - reflexivity.
  - vm_compute. repeat constructor; simpl; intuition discriminate.
Defined.

(** *** Taking an item *)

(** The start of a [get] by a task that holds nothing, on a container
    that is not empty: the selection step is reached at once. *)
Ltac enter_get Hcur Hlen Hpos :=
  unfold get;
  match goal with
  | |- context [get_loop _ _ _ _ ?timeout] =>
    destruct timeout as [?tm |]
  end;
  cbn [get_loop]; unfold_monad; fields;
  rewrite ?Nat.eqb_refl; rewrite Hcur, Hlen, Hpos; cbn [andb];
  unfold get_select, first_not, state_of; cbn [negb]; fields.

Lemma nonempty_len (V : Type) (d : Dict.t nat V) :
  d <> [] -> (len d =? 0)%Z = false /\ (0 <? len d)%Z = true.
Proof. destruct d; [congruence | split; reflexivity]. Qed.

Lemma middle_fresh (l1 l2 : Dict.t nat ref) (k : nat) (x : ref) :
  NoDup (Dict.keys (l1 ++ (k, x) :: l2)) ->
  ~ In k (Dict.keys l1) /\ NoDup (Dict.keys (l1 ++ l2))
  /\ Dict.mem Nat.eqb k (l1 ++ l2) = false.
Proof.
  unfold Dict.keys. rewrite !map_app. cbn [map fst]. intros Hnd.
  pose proof (NoDup_remove_1 _ _ _ Hnd) as H1.
  pose proof (NoDup_remove_2 _ _ _ Hnd) as H2.
  split; [| split].
  - intros Hin. apply H2. apply in_or_app. now left.
  - exact H1.
  - apply (DictFacts.mem_false Nat.eqb Nat.eqb_eq).
    unfold Dict.keys. now rewrite map_app.
Qed.

(** A selective [get] by a task that holds nothing, when [(k, x)] is
    the first entry of the container that passes the test [keep]. *)
Lemma get_selects_first (fuel : nat) (env : police -> police) (t : task)
      (block : bool) (timeout : option float) (nso nio : bool) (s : police)
      (avoid : TrafficState)
      (l1 l2 : Dict.t nat ref) (k : nat) (x : ref) :
  (nso = true /\ avoid = SATURATED)
  \/ (nso = false /\ nio = true /\ avoid = IDLE) ->
  ctx_cursor s t = None ->
  _container s = l1 ++ (k, x) :: l2 ->
  NoDup (Dict.keys (_container s)) ->
  Forall (fun kv => TrafficState_eqb (state_of s (snd kv)) avoid = true) l1 ->
  TrafficState_eqb (state_of s x) avoid = false ->
  exists s',
    get (S fuel) env t block timeout nso nio s = Some (Return (Some x), s')
    /\ ctx_cursor s' t = Some (k, x)
    /\ (forall t', t' <> t -> ctx_cursor s' t' = ctx_cursor s t')
    /\ _container s'
       = (if concurrency s then (k, x) :: l1 ++ l2 else l1 ++ l2)
    /\ _registry s' = _registry s
    /\ sleeps s' = sleeps s.
Proof.
  intros Hmode Hcur Hc Hnd Hl1 Hx.
  assert (Hne : _container s <> []) by (rewrite Hc; now destruct l1).
  destruct (nonempty_len Hne) as [Hlen Hpos].
  rewrite Hc in Hnd. destruct (middle_fresh _ _ _ _ Hnd) as (Hk & Hnd' & Hfresh).
  assert (Hfind :
            find (fun kv : nat * ref =>
                    negb (TrafficState_eqb (traffic_state_of (objects s (snd kv)))
                                           avoid))
                 (_container s) = Some (k, x)).
  { rewrite Hc. apply find_first.
    - eapply Forall_impl; [| exact Hl1]. cbv beta. unfold state_of.
      intros a ->. reflexivity.
    - cbn [snd]. unfold state_of in Hx. now rewrite Hx. }
  assert (Hrm : Dict.remove Nat.eqb k (_container s) = l1 ++ l2).
  { rewrite Hc. now apply (DictFacts.remove_middle Nat.eqb Nat.eqb_eq). }
  destruct Hmode as [[-> ->] | (-> & -> & ->)].
  all: enter_get Hcur Hlen Hpos; rewrite Hfind; fields; rewrite Hrm.
  all: destruct (concurrency s) eqn:Hconc; fields.
  all: rewrite ?push_front_fresh by assumption.
  all: eexists; split; [reflexivity |]; fields.
  all: rewrite ?Nat.eqb_refl.
  all: repeat split; try reflexivity.
  all: intros t' Ht'; apply Nat.eqb_neq in Ht'; now rewrite Ht'.
Qed.

(** X10.  A selective [get] scans the container from its head: with
    [non_saturated_only] the item handed out is the first one that is
    not saturated, and with [not_idle_only] alone the first one that is
    not idle.  The task's cursor is set to it, without a sleep; the item
    leaves the container when [concurrency] is off and moves to its head
    when it is on. *)
Theorem selective_get_takes_first_eligible_item :
  forall (fuel : nat) (env : police -> police) (t : task)
         (block : bool) (timeout : option float) (nio : bool) (s : police)
         (l1 l2 : Dict.t nat ref) (k : nat) (x : ref),
    ctx_cursor s t = None ->
    _container s = l1 ++ (k, x) :: l2 ->
    NoDup (Dict.keys (_container s)) ->
    (Forall (fun kv => saturated s kv = true) l1 ->
     saturated s (k, x) = false ->
     exists s',
       get (S fuel) env t block timeout true nio s
       = Some (Return (Some x), s')
       /\ ctx_cursor s' t = Some (k, x)
       /\ _container s'
          = (if concurrency s then (k, x) :: l1 ++ l2 else l1 ++ l2)
       /\ _registry s' = _registry s
       /\ sleeps s' = sleeps s)
    /\ (Forall (fun kv => idle s kv = true) l1 ->
        idle s (k, x) = false ->
        exists s',
          get (S fuel) env t block timeout false true s
          = Some (Return (Some x), s')
          /\ ctx_cursor s' t = Some (k, x)
          /\ _container s'
             = (if concurrency s then (k, x) :: l1 ++ l2 else l1 ++ l2)
          /\ _registry s' = _registry s
          /\ sleeps s' = sleeps s).
Proof.
  intros fuel env t block timeout nio s l1 l2 k x Hcur Hc Hnd.
  split; intros Hl1 Hx.
  - destruct (@get_selects_first fuel env t block timeout true nio s
                SATURATED l1 l2 k x)
      as (s' & H1 & H2 & _ & H3 & H4 & H5); auto.
    exists s'. repeat split; assumption.
  - destruct (@get_selects_first fuel env t block timeout false true s
                IDLE l1 l2 k x)
      as (s' & H1 & H2 & _ & H3 & H4 & H5); auto.
    exists s'. repeat split; assumption.
Qed.

(** Items 12, 11, 10 are in the container, in that order.  When 12 is
    saturated, [get(non_saturated_only=True)] hands out 11; when 12 and
    10 are idle, [get(not_idle_only=True)] hands out 11 as well. *)
Lemma selective_get_takes_first_eligible_item_witness :
  (exists s',
      get 1 (fun s => s) 0 true None true false mixed_pool
      = Some (Return (Some 11), s')
      /\ ctx_cursor s' 0 = Some (11, 11)
      /\ _container s' = [(12, 12); (10, 10)]
      /\ _registry s' = _registry mixed_pool
      /\ sleeps s' = 0)
  /\ (exists s',
         get 1 (fun s => s) 0 true None false true one_in_use
         = Some (Return (Some 11), s')
         /\ ctx_cursor s' 0 = Some (11, 11)
         /\ _container s' = [(12, 12); (10, 10)]
         /\ _registry s' = _registry one_in_use
         /\ sleeps s' = 0).
Proof.
  split.
  - destruct (@selective_get_takes_first_eligible_item
                0 (fun s => s) 0 true None false mixed_pool
                [(12, 12)] [(10, 10)] 11 11) as [H _].
    + reflexivity.
    + reflexivity.
    + vm_compute. repeat constructor; simpl; intuition discriminate.
    + apply H; [repeat constructor | reflexivity].
  - destruct (@selective_get_takes_first_eligible_item
                0 (fun s => s) 0 true None false one_in_use
                [(12, 12)] [(10, 10)] 11 11) as [_ H].
    + reflexivity.
    + reflexivity.
    + vm_compute. repeat constructor; simpl; intuition discriminate.
    + apply H; [repeat constructor | reflexivity].
Defined.

(** The item that a selective [get] hands out passed the test at the
    round in which it was taken. *)
Lemma get_loop_passes_test (env : police -> police) (t : task)
      (block : bool) (timeout : option float) (nso nio : bool)
      (avoid : TrafficState) :
  (nso = true /\ avoid = SATURATED)
  \/ (nso = false /\ nio = true /\ avoid = IDLE) ->
  forall (fuel : nat) (s s' : police) (x : ref),
    get_loop fuel env t block timeout nso nio s = Some (Return (Some x), s') ->
    state_of s' x <> avoid.
Proof.
  intros Hmode.
  induction fuel as [| fuel IH]; intros s s' x; cbn [get_loop];
    [discriminate |].
  destruct (ctx_cursor s t); [discriminate |].
  destruct (_ && _); [discriminate |].
  assert (Hsel : forall k v s1,
             get_select nso nio s = (Return (Some (k, v)), s1) ->
             objects s1 = objects s /\ state_of s v <> avoid).
  { intros k v s1. unfold get_select, first_not.
    destruct Hmode as [[-> ->] | (-> & -> & ->)]; cbn [negb].
    all: match goal with
         | |- context [find ?p ?l] => destruct (find p l) as [[k' v'] |] eqn:E
         end; [| discriminate].
    all: intros [= <- <- <-]; split; [reflexivity |].
    all: apply find_some in E as [_ E]; cbn [snd] in E.
    all: intros Heq; rewrite Heq in E; discriminate. }
  destruct (0 <? len (_container s))%Z.
  - destruct (get_select nso nio s) as [[[[k v] |] | e] s1] eqn:Eg.
    + destruct (Hsel k v s1 eq_refl) as [Ho Hv].
      unfold_monad. fields.
      destruct (concurrency s1), timeout; fields.
      all: intros [= <- <-]; unfold state_of in *; fields.
      all: now rewrite Ho.
    + destruct block; [| discriminate].
      destruct timeout as [tm |]; [| apply IH].
      destruct (ctx_wait_clock (asyncio_sleep env s1) t); [| discriminate].
      unfold_monad. fields.
      destruct (_ <=? _)%float; [discriminate | apply IH].
    + discriminate.
  - destruct block; [| discriminate].
    destruct timeout as [tm |]; [| apply IH].
    destruct (ctx_wait_clock (asyncio_sleep env s) t); [| discriminate].
    unfold_monad. fields.
    destruct (_ <=? _)%float; [discriminate | apply IH].
Qed.

(** X11.  Whatever the other tasks do while it waits and however long
    it waits, [get(non_saturated_only=True)] never hands out an item that
    is saturated when the call returns, and [get(not_idle_only=True)],
    without [non_saturated_only], never hands out an item that is idle.
    With both flags set, [not_idle_only] is not looked at. *)
Theorem selective_get_never_hands_out_excluded_item :
  forall (fuel : nat) (env : police -> police) (t : task)
         (block : bool) (timeout : option float) (nio : bool)
         (s s' : police) (x : ref),
    (get fuel env t block timeout true nio s = Some (Return (Some x), s') ->
     state_of s' x <> SATURATED)
    /\ (get fuel env t block timeout false true s
        = Some (Return (Some x), s') ->
        state_of s' x <> IDLE)
    /\ get fuel env t block timeout true true s
       = get fuel env t block timeout true false s.
Proof.
  intros fuel env t block timeout nio s s' x. unfold get.
  split; [| split].
  - apply (@get_loop_passes_test env t block timeout true nio SATURATED).
    now left.
  - apply (@get_loop_passes_test env t block timeout false true IDLE).
    right. auto.
  - generalize (match timeout with
                | Some _ => snd (_set_wait_clock t (Some 0%float) s)
                | None => s
                end).
    clear. induction fuel as [| fuel IH]; intros s; cbn [get_loop];
      [reflexivity |].
    unfold get_select. cbv iota.
    destruct (ctx_cursor s t); [reflexivity |].
    destruct (_ && _); [reflexivity |].
    destruct (0 <? len (_container s))%Z.
    + destruct (first_not SATURATED s) as [[k v] |]; [reflexivity |].
      destruct block; [| reflexivity].
      destruct timeout as [tm |]; [| apply IH].
      destruct (ctx_wait_clock (asyncio_sleep env s) t); [| reflexivity].
      unfold_monad. fields.
      destruct (_ <=? _)%float; [reflexivity | apply IH].
    + destruct block; [| reflexivity].
      destruct timeout as [tm |]; [| apply IH].
      destruct (ctx_wait_clock (asyncio_sleep env s) t); [| reflexivity].
      unfold_monad. fields.
      destruct (_ <=? _)%float; [reflexivity | apply IH].
Qed.

(** Item 12, at the head of the container, is saturated: item 11 is
    handed out. *)
Lemma selective_get_never_hands_out_excluded_item_witness :
  state_of (match get 1 (fun s => s) 0 true None true false mixed_pool with
            | Some (_, s') => s'
            | None => mixed_pool
            end) 11
  <> SATURATED.
Proof.
  destruct (@selective_get_never_hands_out_excluded_item
              1 (fun s => s) 0 true None false mixed_pool
              (match get 1 (fun s => s) 0 true None true false mixed_pool with
               | Some (_, s') => s'
               | None => mixed_pool
               end) 11) as [H _].
  apply H. reflexivity.
Defined.

(** X12.  A non-blocking [get] by a task that holds nothing raises
    [UnavailableTraffic] at once, and leaves the arbiter as it is, when
    the container is empty and [maxsize] is [None] or not larger than the
    registry, when [non_saturated_only] is set and every item of the container is
    saturated, and when [not_idle_only] alone is set and every item of
    the container is idle. *)
Theorem get_nowait_raises_when_nothing_fits :
  forall (fuel : nat) (env : police -> police) (t : task)
         (nso nio : bool) (s : police),
    ctx_cursor s t = None ->
    (_container s = []
     /\ forall m, maxsize s = Some m -> (m <= len (_registry s))%Z)
    \/ (_container s <> [] /\ nso = true
        /\ Forall (fun kv => saturated s kv = true) (_container s))
    \/ (_container s <> [] /\ nso = false /\ nio = true
        /\ Forall (fun kv => idle s kv = true) (_container s)) ->
    get_nowait (S fuel) env t nso nio s = Some (Raise UnavailableTraffic, s).
Proof.
  intros fuel env t nso nio s Hcur Hcase.
  unfold get_nowait, get. cbn [get_loop]. rewrite Hcur.
  destruct Hcase as [[Hc Hroom] | [(Hne & -> & Hall) | (Hne & -> & -> & Hall)]].
  - rewrite Hc. cbn [len length Z.of_nat Z.eqb Z.ltb Z.compare andb].
    destruct (maxsize s) as [m |]; [| reflexivity].
    specialize (Hroom m eq_refl).
    assert (E : (len (_registry s) <? m)%Z = false) by (apply Z.ltb_ge; lia).
    now rewrite E.
  - destruct (nonempty_len Hne) as [Hlen Hpos]. rewrite Hlen, Hpos.
    cbn [andb]. unfold get_select, first_not.
    rewrite find_nothing; [reflexivity |].
    eapply Forall_impl; [| exact Hall]. unfold saturated. cbv beta.
    intros a ->. reflexivity.
  - destruct (nonempty_len Hne) as [Hlen Hpos]. rewrite Hlen, Hpos.
    cbn [andb negb]. unfold get_select, first_not. cbn [negb].
    rewrite find_nothing; [reflexivity |].
    eapply Forall_impl; [| exact Hall]. unfold idle. cbv beta.
    intros a ->. reflexivity.
Qed.

(** The one item of a full pool is borrowed; and three idle items are
    asked for one that is in use. *)
Lemma get_nowait_raises_when_nothing_fits_witness :
  get_nowait 1 (fun s => s) 0 false false full_pool
  = Some (Raise UnavailableTraffic, full_pool)
  /\ get_nowait 1 (fun s => s) 0 false true
                (arbiter_of None (fun _ => idle_item) [10; 11; 12])
     = Some (Raise UnavailableTraffic,
             arbiter_of None (fun _ => idle_item) [10; 11; 12]).
Proof.
  split.
  - apply (@get_nowait_raises_when_nothing_fits
             0 (fun s => s) 0 false false full_pool); [reflexivity |].
    left. split; [reflexivity |].
    intros m [= <-]. vm_compute. discriminate.
  - apply (@get_nowait_raises_when_nothing_fits
             0 (fun s => s) 0 false true
             (arbiter_of None (fun _ => idle_item) [10; 11; 12]));
      [reflexivity |].
    right. right. repeat split; [discriminate | repeat constructor].
Defined.

(** *** Borrowing while holding an item *)

(** X13.  The [finally] clause of [borrow] releases the task's item
    when the acquisition fails, and when a nested block is left.  A task
    that holds an item and borrows through an indicator bound to another
    item gets [AtomicTraffic], and by then it holds nothing: the item it
    held is back in the container.  And a task that borrows again with no
    indicator is handed the item it holds, which the end of the inner
    block releases although the outer block is still running. *)
Theorem failed_or_nested_borrow_releases_held_item :
  forall (fuel : nat) (env : police -> police) (t : task)
         (k : nat) (held : ref) (block : bool) (timeout : option float)
         (not_idle_only : bool) (s : police),
    ctx_cursor s t = Some (k, held) ->
    concurrency s = false ->
    (forall (i : MappableTraffic) (other : ref),
        Dict.get key_eqb (key_of i) (_map s) = Some other ->
        id other <> k ->
        exists s',
          borrow_enter (S fuel) env t (Some (inl i)) block timeout
                       not_idle_only s
          = Some (Raise AtomicTraffic, s')
          /\ ctx_cursor s' t = None
          /\ Dict.mem Nat.eqb k (_container s') = true
          /\ _registry s' = _registry s)
    /\ (exists s',
           borrow_enter fuel env t None block timeout not_idle_only s
           = Some (Return held, s)
           /\ borrow_exit t s = (Return tt, s')
           /\ ctx_cursor s' t = None
           /\ Dict.mem Nat.eqb k (_container s') = true).
Proof.
  intros fuel env t k held block timeout nio s Hcur Hconc.
  assert (Hmem : forall c : Dict.t nat ref,
             Dict.mem Nat.eqb k (Dict.update Nat.eqb [(k, held)] c) = true).
  { intros c. rewrite mem_update. unfold Dict.mem at 1. cbn.
    now rewrite Nat.eqb_refl. }
  split.
  - intros i other Hmap Hother.
    assert (Hne : Nat.eqb k (id other) = false)
      by (apply Nat.eqb_neq; congruence).
    unfold borrow_enter, locate.
    destruct timeout as [tm |]; [destruct (ctx_wait_clock s t) |].
    all: unfold_monad; fields; rewrite Hmap; cbn [locate_loop]; fields.
    all: rewrite Hcur, Hne.
    all: eexists; split; [reflexivity |].
    all: match goal with
         | |- context [release ?t0 ?s0] =>
           destruct (release_spec t0 s0)
             as (_ & H2 & _ & H4 & _ & _ & _ & _ & _ & H9 & _);
             rewrite H2, H4, (H9 k held Hcur Hconc)
         end.
    all: repeat split; apply Hmem.
  - destruct (release_spec t s)
      as (H1 & H2 & _ & _ & _ & _ & _ & _ & _ & H9 & _).
    exists (snd (release t s)). unfold borrow_enter, borrow_exit.
    rewrite Hcur. split; [reflexivity |].
    split; [now destruct (release t s) as [o s2]; cbn in *; subst |].
    split; [exact H2 |].
    rewrite (H9 k held Hcur Hconc). apply Hmem.
Qed.

(** Task 0 holds item 12 and the promise 77 is bound to item 11. *)
Lemma failed_or_nested_borrow_releases_held_item_witness :
  (exists s',
      borrow_enter 1 (fun s => s) 0 (Some (inl (Promise 77))) true None
                   false holding_with_promise
      = Some (Raise AtomicTraffic, s')
      /\ ctx_cursor s' 0 = None
      /\ Dict.mem Nat.eqb 12 (_container s') = true
      /\ _registry s' = _registry holding_with_promise)
  /\ (exists s',
         borrow_enter 1 (fun s => s) 0 None true None false
                      holding_with_promise
         = Some (Return 12, holding_with_promise)
         /\ borrow_exit 0 holding_with_promise = (Return tt, s')
         /\ ctx_cursor s' 0 = None
         /\ Dict.mem Nat.eqb 12 (_container s') = true).
Proof.
  destruct (@failed_or_nested_borrow_releases_held_item
              0 (fun s => s) 0 12 12 true None false holding_with_promise
              eq_refl eq_refl) as [H1 H2].
  split; [| exact H2].
  apply (H1 (Promise 77) 11); [reflexivity | discriminate].
Defined.

(** *** Sharing an item *)

(** X14.  With [concurrency] on, a plain [get] does not take the item
    out of the container: the last item is handed out and moves to the
    head, so that the tasks that ask next are served the other items in
    turn.  When the container holds one item, a second task that asks is
    handed that same item, and both tasks hold it at once. *)
Theorem get_with_concurrency_shares_items :
  forall (fuel : nat) (env : police -> police) (t : task)
         (block : bool) (timeout : option float) (s : police)
         (rest : Dict.t nat ref) (k : nat) (x : ref),
    concurrency s = true ->
    ctx_cursor s t = None ->
    _container s = rest ++ [(k, x)] ->
    NoDup (Dict.keys (_container s)) ->
    exists s',
      get (S fuel) env t block timeout false false s
      = Some (Return (Some x), s')
      /\ _container s' = (k, x) :: rest
      /\ ctx_cursor s' t = Some (k, x)
      /\ (rest = [] ->
          forall t' : task,
            t' <> t -> ctx_cursor s t' = None ->
            exists s'',
              get (S fuel) env t' block timeout false false s'
              = Some (Return (Some x), s'')
              /\ ctx_cursor s'' t = Some (k, x)
              /\ ctx_cursor s'' t' = Some (k, x)).
Proof.
  intros fuel env t block timeout s rest k x Hconc Hcur Hc Hnd.
  assert (Hne : _container s <> []) by (rewrite Hc; now destruct rest).
  destruct (nonempty_len Hne) as [Hlen Hpos].
  assert (Hpop : Dict.popitem (_container s) = Some ((k, x), rest))
    by (rewrite Hc; apply DictFacts.popitem_snoc).
  assert (Hpush : Dict.update Nat.eqb [(k, x)] rest = (k, x) :: rest).
  { rewrite Hc in Hnd. unfold Dict.keys in Hnd. rewrite map_app in Hnd.
    apply push_front_fresh.
    - now apply NoDup_app_remove_r in Hnd.
    - apply (DictFacts.mem_false Nat.eqb Nat.eqb_eq).
      cbn in Hnd. apply NoDup_remove_2 in Hnd. now rewrite app_nil_r in Hnd. }
  assert (Hrun : exists s',
             get (S fuel) env t block timeout false false s
             = Some (Return (Some x), s')
             /\ _container s' = (k, x) :: rest
             /\ ctx_cursor s' t = Some (k, x)
             /\ concurrency s' = true
             /\ forall t', t' <> t -> ctx_cursor s' t' = ctx_cursor s t').
  { enter_get Hcur Hlen Hpos; rewrite Hpop; fields; rewrite Hconc; fields.
    all: rewrite Hpush, ?Nat.eqb_refl.
    all: eexists; split; [reflexivity |]; fields; rewrite ?Nat.eqb_refl.
    all: repeat split; try assumption.
    all: intros t' Ht'; apply Nat.eqb_neq in Ht'; now rewrite Ht'. }
  destruct Hrun as (s' & Hget & Hc' & Hcur' & Hconc' & Hothers).
  exists s'. split; [exact Hget |]. split; [exact Hc' |].
  split; [exact Hcur' |].
  intros -> t' Htt Hcur2.
  assert (Hcur2' : ctx_cursor s' t' = None) by (now rewrite Hothers).
  assert (Hne' : _container s' <> []) by (rewrite Hc'; discriminate).
  destruct (nonempty_len Hne') as [Hlen' Hpos'].
  assert (Hpop' : Dict.popitem (_container s') = Some ((k, x), []))
    by (now rewrite Hc').
  assert (Htt' : Nat.eqb t t' = false) by (apply Nat.eqb_neq; congruence).
  enter_get Hcur2' Hlen' Hpos'; rewrite Hpop'; fields; rewrite Hconc'; fields.
  all: eexists; split; [reflexivity |]; fields.
  all: now rewrite Htt', Nat.eqb_refl, Hcur'.
Qed.

(** One connection, shared: tasks 1 and 2 both get it. *)
Lemma get_with_concurrency_shares_items_witness :
  exists s',
    get 1 (fun s => s) 1 true None false false shared_pool
    = Some (Return (Some 10), s')
    /\ _container s' = [(10, 10)]
    /\ ctx_cursor s' 1 = Some (10, 10)
    /\ exists s'',
         get 1 (fun s => s) 2 true None false false s'
         = Some (Return (Some 10), s'')
         /\ ctx_cursor s'' 1 = Some (10, 10)
         /\ ctx_cursor s'' 2 = Some (10, 10).
Proof.
  destruct (@get_with_concurrency_shares_items
              0 (fun s => s) 1 true None shared_pool [] 10 10)
    as (s' & H1 & H2 & H3 & H4).
  - reflexivity.
  - reflexivity.
  - reflexivity.
  - vm_compute. repeat constructor; simpl; intuition discriminate.
  - exists s'. split; [exact H1 |]. split; [exact H2 |]. split; [exact H3 |].
    apply (H4 eq_refl 2); [discriminate | reflexivity].
Defined.

(** *** Locating an item *)

(** X15.  [locate] refuses a class with [ValueError].  For an indicator
    bound to an item: a task that already holds that item is handed the
    item it holds, with no change to the container; and a non-blocking
    [locate] by a task that holds nothing raises [UnavailableTraffic]
    when the item is not in the container.  In the three cases the
    arbiter is left as it was, but for the wait clock that a timeout
    starts. *)
Theorem locate_of_held_or_unavailable_item :
  forall (fuel : nat) (env : police -> police) (t : task)
         (i : MappableTraffic) (ty : pytype) (x : ref)
         (block : bool) (timeout : option float) (s : police),
    let s0 := match timeout, ctx_wait_clock s t with
              | Some _, None => snd (_set_wait_clock t (Some 0%float) s)
              | _, _ => s
              end in
    locate fuel env t (inr ty) block timeout s = Some (Raise ValueError, s0)
    /\ (Dict.get key_eqb (key_of i) (_map s) = Some x ->
        (forall held : ref,
            ctx_cursor s t = Some (id x, held) ->
            locate (S fuel) env t (inl i) block timeout s
            = Some (Return (Some held), s0))
        /\ (ctx_cursor s t = None ->
            Dict.mem Nat.eqb (id x) (_container s) = false ->
            locate (S fuel) env t (inl i) false timeout s
            = Some (Raise UnavailableTraffic, s0))).
Proof.
  intros fuel env t i ty x block timeout s s0.
  split; [reflexivity |].
  intros Hmap. split.
  - intros held Hcur. unfold locate, s0.
    destruct timeout as [tm |]; [destruct (ctx_wait_clock s t) |].
    all: unfold_monad; fields; rewrite Hmap; cbn [locate_loop]; fields.
    all: now rewrite Hcur, Nat.eqb_refl.
  - intros Hcur Hcont. unfold locate, s0.
    destruct timeout as [tm |]; [destruct (ctx_wait_clock s t) |].
    all: unfold_monad; fields; rewrite Hmap; cbn [locate_loop]; fields.
    all: now rewrite Hcur, Hcont.
Qed.

(** The promise 77 is bound to item 12, which task 0 holds: task 0
    locates it, task 1 cannot. *)
Lemma locate_of_held_or_unavailable_item_witness :
  locate 1 (fun s => s) 0 (inl (Promise 77)) true None promise_on_held_item
  = Some (Return (Some 12), promise_on_held_item)
  /\ locate 1 (fun s => s) 1 (inl (Promise 77)) false None
             promise_on_held_item
     = Some (Raise UnavailableTraffic, promise_on_held_item)
  /\ locate 1 (fun s => s) 1 (inr ResponsePromise_t) false None
             promise_on_held_item
     = Some (Raise ValueError, promise_on_held_item).
Proof.
  destruct (@locate_of_held_or_unavailable_item
              0 (fun s => s) 0 (Promise 77) ResponsePromise_t 12 true None
              promise_on_held_item) as [_ H0].
  destruct (@locate_of_held_or_unavailable_item
              0 (fun s => s) 1 (Promise 77) ResponsePromise_t 12 false None
              promise_on_held_item) as [H1 H2].
  destruct (H0 eq_refl) as [Hheld _]. destruct (H2 eq_refl) as [_ Hout].
  split; [exact (Hheld 12 eq_refl) |].
  split; [exact (Hout eq_refl eq_refl) | exact H1].
Defined.

(** *** Binding indicators *)

Lemma length_set (K V : Type) (eqb : K -> K -> bool) (k : K) (v : V)
      (d : Dict.t K V) :
  length (Dict.set eqb k v d)
  = if Dict.mem eqb k d then length d else S (length d).
Proof.
  unfold Dict.mem.
  induction d as [| [k1 v1] d IH]; cbn; [reflexivity |].
  destruct (eqb k k1); cbn; [reflexivity |].
  rewrite IH. now destruct (Dict.get eqb k d).
Qed.

(** X16.  [memorize] raises [AtomicTraffic] when it is given no item by
    a task that holds none, and [UnavailableTraffic] when the item given
    is not registered; the arbiter is then left as it was.  In every
    other case it binds the indicator to the item given, or else to the
    item that the task holds, in both maps and nowhere else: an
    indicator that was bound already is bound anew and keeps its single
    entry, the other indicators keep their items, and [beacon] knows the
    indicator from then on. *)
Theorem memorize_binds_indicator_or_raises :
  forall (fuel : nat) (env : police -> police) (t : task)
         (i : MappableTraffic) (conn : option ref) (s : police),
    (conn = None -> ctx_cursor s t = None ->
     memorize t i conn s = (Raise AtomicTraffic, s))
    /\ (forall x, conn = Some x ->
                  Dict.mem Nat.eqb (id x) (_registry s) = false ->
                  memorize t i conn s = (Raise UnavailableTraffic, s))
    /\ (forall x,
           (conn = Some x /\ Dict.mem Nat.eqb (id x) (_registry s) = true)
           \/ (conn = None /\ exists k, ctx_cursor s t = Some (k, x)) ->
           exists s',
             memorize t i conn s = (Return tt, s')
             /\ same_but_maps s s'
             /\ Dict.get key_eqb (key_of i) (_map s') = Some x
             /\ Dict.get key_eqb (key_of i) (_map_types s') = Some (type_of i)
             /\ (forall k', k' <> key_of i ->
                            Dict.get key_eqb k' (_map s')
                            = Dict.get key_eqb k' (_map s))
             /\ length (_map s')
                = (if Dict.mem key_eqb (key_of i) (_map s)
                   then length (_map s) else S (length (_map s)))
             /\ beacon fuel env (inl i) s' = Some (Return true, s')).
Proof.
  intros fuel env t i conn s. split; [| split].
  - intros -> Hcur. unfold memorize. unfold_monad. now rewrite Hcur.
  - intros x -> Hreg. unfold memorize. unfold_monad. now rewrite Hreg.
  - intros x Hcase.
    assert (Hrun : memorize t i conn s
                   = (Return tt,
                      set_map_types
                        (Dict.set key_eqb (key_of i) (type_of i) (_map_types s))
                        (set_map (Dict.set key_eqb (key_of i) x (_map s)) s))).
    { destruct Hcase as [[-> Hreg] | [-> [k Hcur]]].
      - now apply memorize_registered.
      - unfold memorize. unfold_monad. now rewrite Hcur. }
    eexists. split; [exact Hrun |]. fields.
    split; [unfold same_but_maps; destruct s; reflexivity |].
    split; [apply (DictFacts.get_set_same key_eqb key_eqb_eq) |].
    split; [apply (DictFacts.get_set_same key_eqb key_eqb_eq) |].
    split; [| split].
    + intros k' Hk'.
      apply (DictFacts.get_set_other key_eqb key_eqb_eq). congruence.
    + apply length_set.
    + unfold beacon, Dict.mem. fields.
      now rewrite (DictFacts.get_set_same key_eqb key_eqb_eq).
Qed.

(** Task 0 holds item 12 and task 1 holds nothing; no item 99 is
    registered. *)
Lemma memorize_binds_indicator_or_raises_witness :
  memorize 1 (Promise 77) None holding_another_item
  = (Raise AtomicTraffic, holding_another_item)
  /\ memorize 0 (Promise 77) (Some 99) holding_another_item
     = (Raise UnavailableTraffic, holding_another_item)
  /\ exists s',
       memorize 0 (Promise 77) None holding_another_item = (Return tt, s')
       /\ same_but_maps holding_another_item s'
       /\ Dict.get key_eqb (KId 77) (_map s') = Some 12
       /\ Dict.get key_eqb (KId 77) (_map_types s') = Some ResponsePromise_t
       /\ (forall k', k' <> KId 77 ->
                      Dict.get key_eqb k' (_map s')
                      = Dict.get key_eqb k' (_map holding_another_item))
       /\ length (_map s') = 1
       /\ beacon 1 (fun s => s) (inl (Promise 77)) s' = Some (Return true, s').
Proof.
  destruct (@memorize_binds_indicator_or_raises
              1 (fun s => s) 1 (Promise 77) None holding_another_item)
    as (H1 & _).
  destruct (@memorize_binds_indicator_or_raises
              1 (fun s => s) 0 (Promise 77) (Some 99) holding_another_item)
    as (_ & H2 & _).
  destruct (@memorize_binds_indicator_or_raises
              1 (fun s => s) 0 (Promise 77) None holding_another_item)
    as (_ & _ & H3).
  split; [apply H1; reflexivity |].
  split; [apply (H2 99); reflexivity |].
  apply (H3 12). right. split; [reflexivity |]. now exists 12.
Defined.

(** *** Destroying the item held *)

(** [_map_clear] of a registered item: the keys bound to it leave both
    maps, and the other bindings stay as they are. *)
Lemma map_clear_spec (r : ref) (s : police) :
  maps_agree s -> NoDup (Dict.keys (_map s)) ->
  Dict.mem Nat.eqb (id r) (_registry s) = true ->
  exists s',
    _map_clear r s = (Return tt, s')
    /\ same_but_maps s s'
    /\ maps_agree s'
    /\ (forall k, Dict.get key_eqb k (_map s') <> Some r)
    /\ (forall k v, v <> r ->
                    Dict.get key_eqb k (_map s') = Some v
                    <-> Dict.get key_eqb k (_map s) = Some v).
Proof.
  intros Hag Hnd Hreg.
  set (ks := map fst (filter (fun kv => Nat.eqb (id (snd kv)) (id r)) (_map s))).
  destruct (@forget_keys ks s Hag Hnd)
    as [s' [Hrun [Hsame [Hag' [Hnd' [Hgone Hkept]]]]]].
  - now apply NoDup_keys_filter.
  - intros k Hk. unfold ks in Hk. apply in_map_iff in Hk as [kv [<- Hkv]].
    apply filter_In in Hkv as [Hkv _]. now apply in_map.
  - assert (Hbound : forall k, Dict.get key_eqb k (_map s) = Some r -> In k ks).
    { intros k H. apply (DictFacts.get_in key_eqb key_eqb_eq) in H.
      unfold ks. apply in_map_iff. exists (k, r). split; [reflexivity |].
      apply filter_In. split; [assumption |]. apply Nat.eqb_refl. }
    assert (Hother : forall k v, v <> r ->
                                 Dict.get key_eqb k (_map s) = Some v ->
                                 ~ In k ks).
    { intros k v Hv H Hin. unfold ks in Hin.
      apply in_map_iff in Hin as [[k' v'] [Hk' Hkv]]. cbn in Hk'. subst k'.
      apply filter_In in Hkv as [Hkv Hid]. cbn in Hid.
      apply Nat.eqb_eq in Hid. unfold id in Hid. subst v'.
      apply (@in_get _ k r (_map s) Hnd) in Hkv. congruence. }
    exists s'. split.
    + unfold _map_clear. unfold bind at 1. unfold gets at 1.
      rewrite Hreg. cbn [negb]. exact Hrun.
    + split; [assumption |]. split; [assumption |]. split.
      * intros k H. destruct (in_dec key_eq_dec k ks) as [Hin | Hout].
        -- rewrite Hgone in H by assumption. discriminate.
        -- rewrite Hkept in H by assumption. auto.
      * intros k v Hv. split; intros H.
        -- destruct (in_dec key_eq_dec k ks) as [Hin | Hout].
           ++ rewrite Hgone in H by assumption. discriminate.
           ++ now rewrite Hkept in H.
        -- rewrite Hkept; [assumption |]. eapply Hother; eassumption.
Qed.

(** X17.  [kill_cursor] does nothing for a task that holds nothing.  For
    a task that holds a registered item, on a well-formed arbiter, it
    removes every indicator bound to the item from both maps and leaves
    the other bindings as they are, takes the item out of the registry
    and closes it, once; the container is not touched.  The other tasks
    run while the item closes; the task's cursor is emptied after that,
    and nothing else is changed.  When the item held is no longer in the
    registry it raises [KeyError] and changes nothing: the task still
    holds the item. *)
Theorem kill_cursor_destroys_held_item :
  forall (env : police -> police) (t : task) (x : ref) (s : police),
    (ctx_cursor s t = None -> kill_cursor env t s = (Return tt, s))
    /\ (ctx_cursor s t = Some (id x, x) ->
        Dict.mem Nat.eqb (id x) (_registry s) = false ->
        kill_cursor env t s = (Raise KeyError, s))
    /\ (well_formed s ->
        ctx_cursor s t = Some (id x, x) ->
        Dict.mem Nat.eqb (id x) (_registry s) = true ->
        exists s1 s',
          kill_cursor env t s = (Return tt, s')
          (* [s1] is the arbiter when [close()] is awaited *)
          /\ closed s1 = closed s ++ [x]
          /\ _registry s1 = Dict.remove Nat.eqb (id x) (_registry s)
          /\ Dict.mem Nat.eqb (id x) (_registry s1) = false
          /\ _container s1 = _container s
          /\ ctx_cursor s1 = ctx_cursor s
          /\ maps_agree s1
          /\ (forall k, Dict.get key_eqb k (_map s1) <> Some x)
          /\ (forall k v, v <> x ->
                          Dict.get key_eqb k (_map s1) = Some v
                          <-> Dict.get key_eqb k (_map s) = Some v)
          (* [s'] is what the other tasks made of it meanwhile, but for
             the cursor *)
          /\ s' = snd (_set_cursor t None (env s1))
          /\ closed s' = closed (env s1)
          /\ _registry s' = _registry (env s1)
          /\ _container s' = _container (env s1)
          /\ _map s' = _map (env s1)
          /\ _map_types s' = _map_types (env s1)
          /\ ctx_cursor s' t = None
          /\ (forall t', t' <> t ->
                         ctx_cursor s' t' = ctx_cursor (env s1) t')).
Proof.
  intros env t x s. split; [| split].
  - intros Hcur. unfold kill_cursor. unfold_monad. now rewrite Hcur.
  - intros Hcur Hreg. unfold kill_cursor, _map_clear. unfold_monad.
    rewrite Hcur, Hreg. cbn [negb]. unfold Dict.del.
    unfold Dict.mem in Hreg.
    destruct (Dict.get Nat.eqb (id x) (_registry s)); [discriminate |].
    reflexivity.
  - intros Hwf Hcur Hreg.
    destruct (@map_clear_spec x s (wf_maps_agree Hwf) (wf_map Hwf) Hreg)
      as (s0 & Hrun & Hsame & Hag0 & Hgone & Hkept).
    destruct (same_but_maps_fields Hsame)
      as (_ & _ & Er & Ect & _ & Ec & _ & _ & Ecl & _).
    pose proof (wf_registry Hwf) as Hnd.
    apply DictFacts.mem_get in Hreg as [v Hv].
    exists (set_closed (closed s ++ [x])
              (set_registry (Dict.remove Nat.eqb (id x) (_registry s)) s0)).
    eexists. split.
    + unfold kill_cursor. unfold bind at 1. unfold _cursor at 1.
      unfold gets at 1. rewrite Hcur. unfold bind at 1. rewrite Hrun.
      unfold_monad. unfold Dict.del. rewrite Er, Hv. fields.
      rewrite Ecl. reflexivity.
    + fields. rewrite ?Ect, ?Ec, ?Nat.eqb_refl.
      repeat split; try assumption; try reflexivity.
      * now apply mem_remove_same.
      * apply Hkept. assumption.
      * apply Hkept. assumption.
      * intros t' Ht'. apply Nat.eqb_neq in Ht'. now rewrite Ht'.
Qed.

(** Task 0 holds item 12, to which the promise 77 is bound; task 1 holds
    nothing; no other task runs meanwhile. *)
Lemma kill_cursor_destroys_held_item_witness :
  kill_cursor (fun s => s) 1 promise_on_held_item
  = (Return tt, promise_on_held_item)
  /\ exists s',
       kill_cursor (fun s => s) 0 promise_on_held_item = (Return tt, s')
       /\ closed s' = [12]
       /\ _registry s' = [(10, 10); (11, 11)]
       /\ _container s' = [(11, 11); (10, 10)]
       /\ ctx_cursor s' 0 = None
       /\ (forall t', t' <> 0 ->
                      ctx_cursor s' t' = ctx_cursor promise_on_held_item t')
       /\ (forall k, Dict.get key_eqb k (_map s') <> Some 12).
Proof.
  destruct (@kill_cursor_destroys_held_item
              (fun s => s) 1 12 promise_on_held_item)
    as (H1 & _).
  destruct (@kill_cursor_destroys_held_item
              (fun s => s) 0 12 promise_on_held_item)
    as (_ & _ & H3).
  split; [apply H1; reflexivity |].
  destruct H3 as (s1 & s' & Hrun & Hcl & Hr & _ & Hc & Hcur & _ & Hgone & _
                  & _ & Hcl' & Hr' & Hc' & Hm' & _ & Hcur' & Hoth').
  - split; vm_compute; repeat constructor; simpl; intuition discriminate.
  - reflexivity.
  - reflexivity.
  - exists s'. split; [exact Hrun |].
    cbv beta in Hcl', Hr', Hc', Hm', Hoth'.
    rewrite Hcl', Hcl, Hr', Hr, Hc', Hc, Hm', Hcur'.
    repeat split; try assumption.
    intros t' Ht'. rewrite (Hoth' t' Ht'). now rewrite Hcur.
Defined.

(** *** Idle items: [iter_idle] and [clear] *)

(** X18.  [iter_idle] raises [AtomicTraffic] for a task that holds an
    item.  Otherwise it hands out one item at most, the first idle one
    from the head of the container, which becomes the task's item and
    leaves the container when [concurrency] is off; when no item of the
    container is idle it hands out nothing and changes nothing. *)
Theorem iter_idle_hands_out_first_idle_item :
  forall (t : task) (s : police),
    (ctx_cursor s t <> None -> iter_idle t s = (Raise AtomicTraffic, s))
    /\ (ctx_cursor s t = None ->
        Forall (fun kv => idle s kv = false) (_container s) ->
        iter_idle t s = (Return None, s))
    /\ (ctx_cursor s t = None ->
        forall (l1 l2 : Dict.t nat ref) (k : nat) (x : ref),
          _container s = l1 ++ (k, x) :: l2 ->
          NoDup (Dict.keys (_container s)) ->
          Forall (fun kv => idle s kv = false) l1 ->
          idle s (k, x) = true ->
          exists s',
            iter_idle t s = (Return (Some x), s')
            /\ ctx_cursor s' t = Some (k, x)
            /\ _container s'
               = (if concurrency s then (k, x) :: l1 ++ l2 else l1 ++ l2)
            /\ _registry s' = _registry s
            /\ closed s' = closed s).
Proof.
  intros t s. unfold iter_idle, busy. unfold_monad.
  split; [| split].
  - intros Hcur. destruct (ctx_cursor s t); [reflexivity | congruence].
  - intros Hcur Hall. rewrite Hcur.
    destruct (0 <? len (_container s))%Z; [| reflexivity].
    change (fun kv : nat * ref => TrafficState_eqb (state_of s (snd kv)) IDLE)
      with (idle s).
    now rewrite (find_nothing _ Hall).
  - intros Hcur l1 l2 k x Hc Hnd Hl1 Hx. rewrite Hcur.
    assert (Hne : _container s <> []) by (rewrite Hc; now destruct l1).
    destruct (nonempty_len Hne) as [_ Hpos]. rewrite Hpos.
    change (fun kv : nat * ref => TrafficState_eqb (state_of s (snd kv)) IDLE)
      with (idle s).
    rewrite Hc in Hnd. destruct (middle_fresh _ _ _ _ Hnd) as (Hk & Hnd' & Hfresh).
    assert (Hfind : find (idle s) (_container s) = Some (k, x))
      by (rewrite Hc; apply (find_first _ _ _ Hl1 Hx)).
    assert (Hrm : Dict.remove Nat.eqb k (_container s) = l1 ++ l2)
      by (rewrite Hc; now apply (DictFacts.remove_middle Nat.eqb Nat.eqb_eq)).
    rewrite Hfind. fields. rewrite Hrm.
    destruct (concurrency s); fields.
    all: rewrite ?push_front_fresh by assumption.
    all: eexists; split; [reflexivity |]; fields.
    all: now rewrite Nat.eqb_refl.
Qed.

(** Item 12 is saturated, item 11 in use, item 10 idle: item 10 is
    handed out; and nothing is, when the three are in use. *)
Lemma iter_idle_hands_out_first_idle_item_witness :
  (exists s',
      iter_idle 0 mixed_pool = (Return (Some 10), s')
      /\ ctx_cursor s' 0 = Some (10, 10)
      /\ _container s' = [(12, 12); (11, 11)]
      /\ _registry s' = _registry mixed_pool
      /\ closed s' = closed mixed_pool)
  /\ iter_idle 0 (arbiter_of None (fun _ => used_item) [10; 11; 12])
     = (Return None, arbiter_of None (fun _ => used_item) [10; 11; 12])
  /\ iter_idle 0 holding_another_item
     = (Raise AtomicTraffic, holding_another_item).
Proof.
  destruct (@iter_idle_hands_out_first_idle_item 0 mixed_pool)
    as (_ & _ & H3).
  destruct (@iter_idle_hands_out_first_idle_item
              0 (arbiter_of None (fun _ => used_item) [10; 11; 12]))
    as (_ & H2 & _).
  destruct (@iter_idle_hands_out_first_idle_item 0 holding_another_item)
    as (H1 & _).
  split; [| split; [apply H2; [reflexivity | repeat constructor]
                   | apply H1; discriminate]].
  apply (H3 eq_refl [(12, 12); (11, 11)] [] 10 10).
  - reflexivity.
  - vm_compute. repeat constructor; simpl; intuition discriminate.
  - repeat constructor.
  - reflexivity.
Defined.

Lemma same_key_same_pair (V : Type) (d : Dict.t nat V) (a b : nat * V) :
  NoDup (Dict.keys d) -> In a d -> In b d -> fst a = fst b -> a = b.
Proof.
  induction d as [| c d IH]; cbn; intros Hnd Ha Hb E; [contradiction |].
  inversion Hnd as [| ? ? Hc Hnd']; subst.
  destruct Ha as [-> | Ha], Hb as [-> | Hb]; auto.
  - exfalso. apply Hc. rewrite E. now apply in_map.
  - exfalso. apply Hc. rewrite <- E. now apply in_map.
Qed.

Lemma filter_twice (A : Type) (p q : A -> bool) (l : list A) :
  filter p (filter q l) = filter (fun x => q x && p x) l.
Proof.
  induction l as [| a l IH]; cbn; [reflexivity |].
  destruct (q a); cbn; [destruct (p a) |]; now rewrite IH.
Qed.

Lemma filter_all (A : Type) (l : list A) : filter (fun _ => true) l = l.
Proof. induction l as [| a l IH]; cbn; [reflexivity | now rewrite IH]. Qed.

Lemma remove_as_filter (V : Type) (k : nat) (d : Dict.t nat V) :
  NoDup (Dict.keys d) ->
  Dict.remove Nat.eqb k d = filter (fun kv => negb (Nat.eqb k (fst kv))) d.
Proof.
  induction d as [| [k1 v1] d IH]; cbn; intros Hnd; [reflexivity |].
  inversion Hnd as [| ? ? Hk Hnd']; subst.
  destruct (Nat.eqb_spec k k1) as [-> | Hne]; cbn.
  - symmetry. apply forallb_filter_id. apply forallb_forall.
    intros [k2 v2] Hin. cbn. apply negb_true_iff, Nat.eqb_neq.
    intros ->. apply Hk. change k2 with (fst (k2, v2)). now apply in_map.
  - now rewrite IH.
Qed.

(** Removing a list of keys from a dict is filtering them out. *)
Lemma remove_all_as_filter (V : Type) (ks : list nat) :
  forall d : Dict.t nat V,
    NoDup (Dict.keys d) ->
    fold_left (fun d k => Dict.remove Nat.eqb k d) ks d
    = filter (fun kv => negb (existsb (Nat.eqb (fst kv)) ks)) d.
Proof.
  induction ks as [| k ks IH]; intros d Hnd; cbn [fold_left existsb].
  - cbn [negb]. now rewrite filter_all.
  - rewrite IH by now apply DictFacts.remove_nodup.
    rewrite remove_as_filter by assumption.
    rewrite filter_twice. apply filter_ext. intros kv.
    now rewrite negb_orb, (Nat.eqb_sym k).
Qed.

Lemma Forall2_impl_in (A B : Type) (P Q : A -> B -> Prop)
      (l1 : list A) (l2 : list B) :
  Forall2 P l1 l2 ->
  (forall a b, In a l1 -> P a b -> Q a b) ->
  Forall2 Q l1 l2.
Proof.
  induction 1 as [| a b l1 l2 Hab Hl IH]; intros H; constructor.
  - apply H; [now left | assumption].
  - apply IH. intros a' b' Hin. apply H. now right.
Qed.

(** The first loop of [clear]: the planned keys leave the container. *)
Lemma clear_container_pass (ks : list nat) :
  forall s : police,
    NoDup ks ->
    (forall k, In k ks -> Dict.mem Nat.eqb k (_container s) = true) ->
    for_each (fun obj_id : nat =>
                fun s : police =>
                  match Dict.pop Nat.eqb obj_id (_container s) with
                  | Some (_, d) => (Return tt, set_container d s)
                  | None => (Raise KeyError, s)
                  end) ks s
    = (Return tt,
       set_container
         (fold_left (fun d k => Dict.remove Nat.eqb k d) ks (_container s)) s).
Proof.
  induction ks as [| k ks IH]; intros s Hnd Hin; cbn [for_each fold_left].
  - destruct s; reflexivity.
  - inversion Hnd as [| ? ? Hk Hnd']; subst.
    unfold bind at 1. unfold Dict.pop at 1.
    destruct (DictFacts.mem_get _ _ _ (Hin k (or_introl eq_refl))) as [v Hv].
    rewrite Hv. rewrite IH; [reflexivity | assumption |].
    intros k' Hk'. fields. rewrite mem_remove_other; [| congruence].
    apply Hin. now right.
Qed.

(** The second loop of [clear], when the other tasks stand by: the
    planned keys leave the registry and their items are closed;
    [_map_clear] comes too late to find them. *)
Lemma clear_registry_pass (env : police -> police) (ks : list nat) :
  bystander env ->
  forall s : police,
    NoDup ks ->
    NoDup (Dict.keys (_registry s)) ->
    Forall (fun kv => fst kv = id (snd kv)) (_registry s) ->
    (forall k, In k ks -> Dict.mem Nat.eqb k (_registry s) = true) ->
    exists (gone : list ref) (world : ref -> obj),
      for_each (fun obj_id : nat =>
                  popped <- (fun s : police =>
                               match Dict.pop Nat.eqb obj_id (_registry s) with
                               | Some (v, d) => (Return v, set_registry d s)
                               | None => (Raise KeyError, s)
                               end) ;;
                  close env popped ;;
                  _map_clear popped) ks s
      = (Return tt,
         set_objects world
           (set_closed (closed s ++ gone)
              (set_registry
                 (fold_left (fun d k => Dict.remove Nat.eqb k d) ks
                            (_registry s))
                 s)))
      /\ Forall2 (fun k v => Dict.get Nat.eqb k (_registry s) = Some v) ks gone.
Proof.
  intros Henv.
  induction ks as [| k ks IH]; intros s Hnd Hreg Hids Hin;
    cbn [for_each fold_left].
  - exists [], (objects s). split; [| constructor].
    rewrite app_nil_r. destruct s; reflexivity.
  - inversion Hnd as [| ? ? Hk Hnd']; subst.
    destruct (DictFacts.mem_get _ _ _ (Hin k (or_introl eq_refl))) as [v Hv].
    assert (Hkv : k = id v).
    { apply (DictFacts.get_in Nat.eqb Nat.eqb_eq) in Hv.
      rewrite Forall_forall in Hids. exact (Hids _ Hv). }
    set (s2 := set_closed (closed s ++ [v])
                 (set_registry (Dict.remove Nat.eqb k (_registry s)) s)).
    set (s3 := set_objects (objects (env s2)) s2).
    assert (Hs3 : env s2 = s3) by apply Henv.
    destruct (IH s3) as (gone & world & Hrun & Hgone); try assumption.
    + unfold s3, s2; fields. now apply DictFacts.remove_nodup.
    + unfold s3, s2; fields. now apply AsyncTrafficPoliceInvariant.ids_remove.
    + intros k' Hk'. unfold s3, s2; fields.
      rewrite mem_remove_other; [| congruence]. apply Hin. now right.
    + exists (v :: gone), world. split.
      * unfold bind at 1. unfold bind at 1. unfold Dict.pop at 1. rewrite Hv.
        unfold bind at 1. unfold close at 1. unfold modify at 1.
        change (closed (set_registry (Dict.remove Nat.eqb k (_registry s)) s))
          with (closed s).
        fold s2. rewrite Hs3.
        unfold _map_clear at 1. unfold bind at 1. unfold gets at 1.
        unfold s3 at 1. fields. rewrite <- Hkv.
        change (_registry s2) with (Dict.remove Nat.eqb k (_registry s)).
        rewrite (@mem_remove_same k (_registry s) Hreg). cbn [negb].
        unfold ret at 1.
        rewrite Hrun. unfold s3, s2; fields.
        now rewrite <- app_assoc.
      * constructor; [exact Hv |].
        eapply Forall2_impl_in; [exact Hgone |].
        intros k' v' Hk'. unfold s3, s2; fields.
        rewrite (DictFacts.get_remove_other Nat.eqb Nat.eqb_eq);
          [trivial | congruence].
Qed.

(** In a dict with unique keys, the keys of the entries that pass a
    test are the keys of no other entry. *)
Lemma planned_keys (s : police) (kv : nat * ref) :
  NoDup (Dict.keys (_container s)) -> In kv (_container s) ->
  existsb (Nat.eqb (fst kv)) (planned_removal s) = idle s kv.
Proof.
  intros Hnd Hin. unfold planned_removal.
  destruct (idle s kv) eqn:E.
  - apply existsb_exists. exists (fst kv). split; [| apply Nat.eqb_refl].
    apply in_map. apply filter_In. now split.
  - apply not_true_is_false. intros H. apply existsb_exists in H as [k [Hk Hkk]].
    apply Nat.eqb_eq in Hkk. subst k.
    apply in_map_iff in Hk as [kv' [Hfst Hkv']].
    apply filter_In in Hkv' as [Hin' Hidle].
    assert (kv' = kv) by (eapply same_key_same_pair; eassumption).
    subst. congruence.
Qed.

Lemma planned_nodup (s : police) :
  NoDup (Dict.keys (_container s)) -> NoDup (planned_removal s).
Proof.
  unfold planned_removal, Dict.keys.
  induction (_container s) as [| kv d IH]; cbn; intros H; [constructor |].
  inversion H as [| ? ? Hk Hd]; subst.
  destruct (idle s kv); cbn; [| auto].
  constructor; [| auto].
  intros Hin. apply Hk.
  apply in_map_iff in Hin as [x [Hx Hin]]. apply filter_In in Hin as [Hin _].
  apply in_map_iff. eauto.
Qed.

(** The second loop of [clear], when another task takes the second
    planned item out of the registry while the first one closes. *)
Lemma clear_registry_pass_interrupted (env : police -> police)
      (k1 k2 : nat) (rest : list nat) (v1 : ref) (s : police) :
  Dict.get Nat.eqb k1 (_registry s) = Some v1 ->
  Dict.mem Nat.eqb k2
           (_registry
              (env (set_closed (closed s ++ [v1])
                      (set_registry (Dict.remove Nat.eqb k1 (_registry s))
                                    s)))) = false ->
  fst (for_each (fun obj_id : nat =>
                   popped <- (fun s : police =>
                                match Dict.pop Nat.eqb obj_id (_registry s) with
                                | Some (v, d) => (Return v, set_registry d s)
                                | None => (Raise KeyError, s)
                                end) ;;
                   close env popped ;;
                   _map_clear popped) (k1 :: k2 :: rest) s)
  = Raise KeyError.
Proof.
  intros Hv Hgone. cbn [for_each]. rewrite bind_run, bind_run.
  unfold Dict.pop at 1. rewrite Hv. rewrite bind_run.
  unfold close at 1, modify at 1. fields.
  set (s1 := env _) in *.
  destruct (map_clear_outcome v1 s1) as [Ho | Ho];
    pose proof (leaves_managed_map_clear v1 s1) as Hm;
    destruct (_map_clear v1 s1) as [[[] | e] s2]; cbn [fst snd] in *;
    try discriminate.
  - injection Hm as Er _.
    rewrite bind_run, bind_run. unfold Dict.pop at 1. rewrite Er.
    unfold Dict.mem in Hgone.
    now destruct (Dict.get Nat.eqb k2 (_registry s1)).
  - exact Ho.
Qed.

(** X19.  On a well-formed arbiter whose idle available items are all
    registered, and while the other tasks make no call on the arbiter,
    [clear] raises nothing.  It takes every idle item out of the
    container, in which the other items keep their order, and out of
    the registry, and closes each of them once; the items in use and the
    items that tasks hold stay registered, and the shutdown flag is set
    exactly when such items are left, so that they are destroyed when
    they are given back.  The cursor of the calling task is emptied when
    its item was removed; the cursors of the other tasks are left as
    they are, even on an item that was removed.  The indicator maps are
    not touched: [_map_clear] is called on an item that has left the
    registry already, so the indicators bound to a closed item stay in
    the maps.  The other tasks run each time an item closes: when one of
    them takes the second planned item out of the registry while the
    first one closes, [clear] raises [KeyError]. *)
Theorem clear_closes_idle_available_items :
  forall (env : police -> police) (t : task) (s : police),
    well_formed s ->
    (forall k, In k (planned_removal s) ->
               Dict.mem Nat.eqb k (_registry s) = true) ->
    (bystander env ->
     exists (s' : police) (gone : list ref),
       clear env t s = (Return tt, s')
       /\ _container s' = filter (fun kv => negb (idle s kv)) (_container s)
       /\ _registry s'
          = filter (fun kv => negb (existsb (Nat.eqb (fst kv))
                                            (planned_removal s)))
                   (_registry s)
       /\ closed s' = closed s ++ gone
       /\ Forall2 (fun k v => Dict.get Nat.eqb k (_registry s) = Some v)
                  (planned_removal s) gone
       /\ _shutdown s'
          = (_shutdown s || (len (planned_removal s) <? len (_registry s))%Z)
       /\ _map s' = _map s
       /\ _map_types s' = _map_types s
       /\ ctx_cursor s' t
          = match ctx_cursor s t with
            | Some (k, x) =>
              if existsb (Nat.eqb k) (planned_removal s) then None
              else Some (k, x)
            | None => None
            end
       /\ (forall t', t' <> t -> ctx_cursor s' t' = ctx_cursor s t'))
    /\ (forall (k1 k2 : nat) (rest : list nat),
           planned_removal s = k1 :: k2 :: rest ->
           exists (v1 : ref) (s1 : police),
             (* [s1] is the arbiter when the first [close()] is awaited *)
             Dict.get Nat.eqb k1 (_registry s) = Some v1
             /\ closed s1 = closed s ++ [v1]
             /\ _registry s1 = Dict.remove Nat.eqb k1 (_registry s)
             /\ _container s1
                = filter (fun kv => negb (idle s kv)) (_container s)
             /\ _map s1 = _map s
             /\ _map_types s1 = _map_types s
             /\ ctx_cursor s1 = ctx_cursor s
             /\ (Dict.mem Nat.eqb k2 (_registry (env s1)) = false ->
                 fst (clear env t s) = Raise KeyError)).
Proof.
  intros env t s Hwf Hreg.
  pose proof (planned_nodup s (wf_container Hwf)) as Hnd.
  assert (Hcont : forall k, In k (planned_removal s) ->
                            Dict.mem Nat.eqb k (_container s) = true).
  { intros k Hk. apply (DictFacts.mem_true Nat.eqb Nat.eqb_eq).
    unfold planned_removal in Hk. apply in_map_iff in Hk as [kv [<- Hkv]].
    apply filter_In in Hkv as [Hkv _]. now apply in_map. }
  pose proof (@clear_container_pass (planned_removal s) s Hnd Hcont) as Hpass1.
  assert (Hc' : fold_left (fun d k => Dict.remove Nat.eqb k d)
                          (planned_removal s) (_container s)
                = filter (fun kv => negb (idle s kv)) (_container s)).
  { rewrite (@remove_all_as_filter _ (planned_removal s) (_container s)
                                   (wf_container Hwf)).
    apply filter_ext_in. intros kv Hkv.
    now rewrite (@planned_keys s kv (wf_container Hwf) Hkv). }
  rewrite Hc' in Hpass1.
  set (s1 := set_container
               (filter (fun kv => negb (idle s kv)) (_container s)) s) in *.
  set (s1' := if (len (planned_removal s) <? len (_registry s))%Z
              then set_shutdown true s1 else s1).
  assert (Er : _registry s1' = _registry s)
    by (unfold s1', s1; destruct (_ <? _)%Z; reflexivity).
  assert (Ecl : closed s1' = closed s)
    by (unfold s1', s1; destruct (_ <? _)%Z; reflexivity).
  assert (Ect : _container s1' = _container s1)
    by (unfold s1'; destruct (_ <? _)%Z; reflexivity).
  assert (Ecur : ctx_cursor s1' = ctx_cursor s)
    by (unfold s1', s1; destruct (_ <? _)%Z; reflexivity).
  assert (Em : _map s1' = _map s /\ _map_types s1' = _map_types s)
    by (unfold s1', s1; destruct (_ <? _)%Z; split; reflexivity).
  assert (Esh : _shutdown s1'
                = (_shutdown s
                   || (len (planned_removal s) <? len (_registry s))%Z)).
  { unfold s1', s1. destruct (_ <? _)%Z; fields;
      [now rewrite orb_true_r | now rewrite orb_false_r]. }
  assert (Hflag : (if (len (planned_removal s) <? len (_registry s1))%Z
                   then modify (set_shutdown true) else ret tt) s1
                  = (Return tt, s1')).
  { unfold s1'. change (_registry s1) with (_registry s).
    now destruct (_ <? _)%Z. }
  assert (Hclear : clear env t s
                   = ((for_each
                         (fun obj_id : nat =>
                            popped <- (fun s : police =>
                                         match Dict.pop Nat.eqb obj_id
                                                        (_registry s) with
                                         | Some (v, d) =>
                                           (Return v, set_registry d s)
                                         | None => (Raise KeyError, s)
                                         end) ;;
                            close env popped ;;
                            _map_clear popped) (planned_removal s)) ;;
                      c <- _cursor t ;;
                      match c with
                      | Some (cursor_obj_id, _) =>
                        if existsb (Nat.eqb cursor_obj_id) (planned_removal s)
                        then _set_cursor t None else ret tt
                      | None => ret tt
                      end) s1').
  { unfold clear. unfold bind at 1. unfold gets at 1. cbv zeta.
    change (map fst
              (filter (fun kv : nat * ref =>
                         TrafficState_eqb (state_of s (snd kv)) IDLE)
                      (_container s)))
      with (planned_removal s).
    unfold bind at 1. rewrite Hpass1.
    unfold bind at 1. unfold gets at 1. unfold bind at 1.
    rewrite Hflag. reflexivity. }
  split.
  - intros Henv.
    destruct (@clear_registry_pass env (planned_removal s) Henv s1')
      as (gone & world & Hpass2 & Hgone); try assumption.
    { rewrite Er. apply (wf_registry Hwf). }
    { rewrite Er. apply (wf_registry_ids Hwf). }
    { intros k Hk. rewrite Er. now apply Hreg. }
    rewrite Er in Hgone. rewrite Er, Ecl in Hpass2.
    destruct (ctx_cursor s t) as [[k x] |] eqn:Hcur;
      [destruct (existsb (Nat.eqb k) (planned_removal s)) eqn:Hex |].
    all: eexists; exists gone; split;
      [ rewrite Hclear; unfold bind at 1; rewrite Hpass2;
        unfold_monad; fields; rewrite Ecur, Hcur, ?Hex; reflexivity |].
    all: fields; rewrite ?Nat.eqb_refl, ?Ecur, ?Hcur, ?Ect.
    all: split; [reflexivity |].
    all: split; [apply (@remove_all_as_filter _ (planned_removal s)
                                             (_registry s) (wf_registry Hwf)) |].
    all: split; [reflexivity |].
    all: split; [exact Hgone |].
    all: split; [exact Esh |].
    all: split; [apply Em |].
    all: split; [apply Em |].
    all: split; [reflexivity |].
    all: try (intros t' Ht'; apply Nat.eqb_neq in Ht'; now rewrite Ht').
    all: reflexivity.
  - intros k1 k2 rest Hpl.
    destruct (DictFacts.mem_get _ _ _ (Hreg k1 ltac:(rewrite Hpl; now left)))
      as [v1 Hv1].
    exists v1,
      (set_closed (closed s1' ++ [v1])
         (set_registry (Dict.remove Nat.eqb k1 (_registry s1')) s1')).
    fields. rewrite Er, Ecl, Ect, Ecur. destruct Em as [Em1 Em2].
    rewrite Em1, Em2.
    split; [exact Hv1 |]. do 6 (split; [reflexivity |]).
    intros Hgone. rewrite Hclear. rewrite bind_run, Hpl.
    assert (Hv1' : Dict.get Nat.eqb k1 (_registry s1') = Some v1)
      by now rewrite Er.
    pose proof (@clear_registry_pass_interrupted env k1 k2 rest v1 s1' Hv1')
      as Hint.
    rewrite Er, Ecl in Hint. specialize (Hint Hgone).
    match goal with
    | |- fst (match ?run with _ => _ end) = _ =>
      destruct run as [[[] | e] s2]
    end; cbn [fst] in *; [discriminate | exact Hint].
Qed.

(** One idle item is bound to a promise, one item is in use: [clear]
    closes the two idle items, keeps the third and sets the shutdown
    flag; the promise stays bound to the item that was closed.  And two
    tasks share the idle items of an arbiter: when task 1 destroys its
    item while [clear] closes the other one, [clear] raises
    [KeyError]. *)
Lemma clear_closes_idle_available_items_witness :
  (exists (s' : police) (gone : list ref),
      clear (fun s => s) 1 (snd (memorize 0 (Promise 77) (Some 10) one_in_use))
      = (Return tt, s')
      /\ _container s' = [(11, 11)]
      /\ _registry s' = [(11, 11)]
      /\ closed s' = [] ++ gone
      /\ Forall2 (fun k v => Dict.get Nat.eqb k [(10, 10); (11, 11); (12, 12)]
                             = Some v)
                 [12; 10] gone
      /\ _shutdown s' = true
      /\ _map s' = [(KId 77, 10)]
      /\ _map_types s' = [(KId 77, ResponsePromise_t)]
      /\ ctx_cursor s' 1 = None
      /\ (forall t', t' <> 1 -> ctx_cursor s' t' = None))
  /\ fst (clear another_kill 0 shared_and_held) = Raise KeyError.
Proof.
  split.
  - destruct (@clear_closes_idle_available_items
                (fun s => s) 1
                (snd (memorize 0 (Promise 77) (Some 10) one_in_use)))
      as [H _].
    + split; vm_compute; repeat constructor; simpl; intuition discriminate.
    + intros k Hk. vm_compute in Hk.
      destruct Hk as [<- | [<- | []]]; reflexivity.
    + apply H. intros s. now destruct s.
  - destruct (@clear_closes_idle_available_items
                another_kill 0 shared_and_held)
      as [_ H].
    + split; vm_compute; repeat constructor; simpl; intuition discriminate.
    + intros k Hk. vm_compute in Hk.
      destruct Hk as [<- | [<- | []]]; reflexivity.
    + destruct (H 11 10 [] eq_refl)
        as (v1 & s1 & Hv1 & Hcl & Hr & Hc & Hm & Hmt & Hcur & Hk).
      apply Hk. unfold another_kill, kill_cursor, _map_clear.
      unfold_monad. rewrite Hcur.
      change (ctx_cursor shared_and_held 1) with (Some (10, 10)).
      cbv beta iota. rewrite Hr.
      change (Dict.mem Nat.eqb (id 10)
                       (Dict.remove Nat.eqb 11 (_registry shared_and_held)))
        with true.
      cbn [negb]. cbv beta iota. rewrite Hm.
      change (_map shared_and_held) with (@nil (key * ref)).
      cbn [filter map for_each]. unfold ret. cbv beta iota.
      rewrite Hr. reflexivity.
Defined.

(** *** What the calls leave alone *)



Lemma leaves_managed_release (t : task) : leaves managed (release t).
Proof. unfold release, _cursor. repeat leaves_step. Qed.

Lemma leaves_managed_memorize (t : task) (i : MappableTraffic)
      (conn : option ref) :
  leaves managed (memorize t i conn).
Proof. unfold memorize, _cursor. repeat leaves_step. Qed.

Lemma leaves_managed_forget (i : MappableTraffic) : leaves managed (forget i).
Proof. unfold forget. repeat leaves_step. Qed.

Lemma leaves_managed_iter_idle (t : task) : leaves managed (iter_idle t).
Proof. unfold iter_idle, busy, _cursor. repeat leaves_step. Qed.

Lemma leaves_managed_get_select (nso nio : bool) :
  leaves managed (get_select nso nio).
Proof.
  intros s. unfold get_select.
  destruct nso; [| destruct nio; cbn [negb]].
  - now destruct (first_not SATURATED s) as [[k v] |].
  - now destruct (first_not IDLE s) as [[k v] |].
  - now destruct (Dict.popitem (_container s)) as [[kv rest] |].
Qed.


(** A call that ends with calls that run without a loop leaves what
    they leave. *)
Lemma leaves_done (A X : Type) (f : police -> X) (m : M A) (s0 s : police)
      (r : outcome A) (s' : police) :
  leaves f m -> f s = f s0 -> Some (m s) = Some (r, s') -> f s' = f s0.
Proof.
  intros Hm Hs [= E]. specialize (Hm s). rewrite E in Hm. cbn in Hm.
  congruence.
Qed.

Lemma managed_sleep (env : police -> police) (s : police) :
  (forall s0, managed (env s0) = managed s0) ->
  managed (asyncio_sleep env s) = managed s.
Proof. intros Henv. rewrite <- (Henv s). reflexivity. Qed.

Lemma managed_get_loop (env : police -> police) (t : task) (block : bool)
      (timeout : option float) (nso nio : bool) :
  (forall s0, managed (env s0) = managed s0) ->
  forall (fuel : nat) (s s' : police) (r : outcome (option ref)),
    get_loop fuel env t block timeout nso nio s = Some (r, s') ->
    managed s' = managed s.
Proof.
  intros Henv. induction fuel as [| fuel IH]; intros s s' r;
    cbn [get_loop]; [discriminate |].
  destruct (ctx_cursor s t); [now intros [= _ <-] |].
  destruct (_ && _); [now intros [= _ <-] |].
  assert (Hsel : managed
                   (snd (if (0 <? len (_container s))%Z
                         then get_select nso nio s else (Return None, s)))
                 = managed s).
  { destruct (0 <? len (_container s))%Z; [| reflexivity].
    apply leaves_managed_get_select. }
  destruct (if (0 <? len (_container s))%Z
            then get_select nso nio s else (Return None, s))
    as [[[[k v] |] | e] s1]; cbn [snd] in Hsel.
  - apply leaves_done; [| exact Hsel]. repeat leaves_step.
  - destruct block; [| now intros [= _ <-]].
    pose proof (@managed_sleep env s1 Henv) as Hsl.
    destruct timeout as [tm |];
      [| intros H; apply IH in H; congruence].
    destruct (ctx_wait_clock (asyncio_sleep env s1) t) as [w |];
      [| intros [= _ <-]; congruence].
    unfold_monad. fields.
    destruct (_ <=? _)%float.
    + intros [= _ <-]. rewrite <- Hsel, <- Hsl. reflexivity.
    + intros H. apply IH in H. rewrite H, <- Hsel, <- Hsl. reflexivity.
  - now intros [= _ <-].
Qed.

Lemma managed_get (env : police -> police) (t : task) (block : bool)
      (timeout : option float) (nso nio : bool) (fuel : nat)
      (s s' : police) (r : outcome (option ref)) :
  (forall s0, managed (env s0) = managed s0) ->
  get fuel env t block timeout nso nio s = Some (r, s') ->
  managed s' = managed s.
Proof.
  intros Henv. unfold get. intros H.
  apply (@managed_get_loop env t block timeout nso nio Henv) in H. rewrite H.
  now destruct timeout.
Qed.

Lemma managed_locate_loop (env : police -> police) (t : task) (k : nat)
      (c : ref) (block : bool) (timeout : option float) :
  (forall s0, managed (env s0) = managed s0) ->
  forall (fuel : nat) (s s' : police) (r : outcome (option ref)),
    locate_loop fuel env t k c block timeout s = Some (r, s') ->
    managed s' = managed s.
Proof.
  intros Henv. induction fuel as [| fuel IH]; intros s s' r;
    cbn [locate_loop]; [discriminate |].
  destruct (ctx_cursor s t) as [[ck cc] |].
  - destruct (Nat.eqb ck k); now intros [= _ <-].
  - destruct (Dict.mem Nat.eqb k (_container s)).
    + apply leaves_done; [| reflexivity]. repeat leaves_step.
    + destruct (negb block); [now intros [= _ <-] |].
      pose proof (@managed_sleep env s Henv) as Hsl.
      destruct timeout as [tm |];
        [| intros H; apply IH in H; congruence].
      destruct (ctx_wait_clock (asyncio_sleep env s) t) as [w |];
        [| intros [= _ <-]; congruence].
      unfold_monad. fields.
      destruct (_ <=? _)%float.
      * intros [= _ <-]. rewrite <- Hsl. reflexivity.
      * intros H. apply IH in H. rewrite H, <- Hsl. reflexivity.
Qed.

Lemma managed_locate (env : police -> police) (t : task)
      (i : MappableTraffic + pytype) (block : bool) (timeout : option float)
      (fuel : nat) (s s' : police) (r : outcome (option ref)) :
  (forall s0, managed (env s0) = managed s0) ->
  locate fuel env t i block timeout s = Some (r, s') ->
  managed s' = managed s.
Proof.
  intros Henv. unfold locate.
  set (s0 := match timeout, ctx_wait_clock s t with
             | Some _, None => snd (_set_wait_clock t (Some 0%float) s)
             | _, _ => s
             end).
  assert (H0 : managed s0 = managed s).
  { unfold s0. destruct timeout; [| reflexivity].
    now destruct (ctx_wait_clock s t). }
  destruct i as [i | ty]; [| intros [= _ <-]; exact H0].
  destruct (match Dict.get key_eqb (key_of i) (_map s0) with
            | Some c => Some (id c, c)
            | None => locate_by_beacon (key_of i) s0
            end) as [[k c] |]; [| intros [= _ <-]; exact H0].
  intros H. apply (@managed_locate_loop env t k c block timeout Henv) in H.
  congruence.
Qed.

Lemma managed_find_by (env : police -> police) (ty : pytype) (block : bool) :
  (forall s0, managed (env s0) = managed s0) ->
  forall (fuel : nat) (s s' : police) (r : outcome (option ref)),
    _find_by fuel env ty block s = Some (r, s') ->
    managed s' = managed s.
Proof.
  intros Henv. induction fuel as [| fuel IH]; intros s s' r;
    cbn [_find_by]; [discriminate |].
  destruct (_find_by_scan s ty (_map_types s) false) as [[[c |] | e] any].
  - now intros [= _ <-].
  - destruct (negb block); [now intros [= _ <-] |].
    destruct any; [| now intros [= _ <-]].
    intros H. apply IH in H. rewrite H. now apply managed_sleep.
  - now intros [= _ <-].
Qed.

Lemma managed_borrow_enter (env : police -> police) (t : task)
      (i : option (MappableTraffic + pytype)) (block : bool)
      (timeout : option float) (nio : bool) (fuel : nat)
      (s s' : police) (r : outcome ref) :
  (forall s0, managed (env s0) = managed s0) ->
  borrow_enter fuel env t i block timeout nio s = Some (r, s') ->
  managed s' = managed s.
Proof.
  intros Henv. unfold borrow_enter.
  match goal with
  | |- match ?acq with _ => _ end = _ -> _ =>
    assert (Hacq : forall r1 s1, acq = Some (r1, s1) -> managed s1 = managed s);
      [| destruct acq as [[[[c |] | e] s1] |]; [| | | discriminate];
         intros [= _ <-]; specialize (Hacq _ _ eq_refl);
         rewrite ?leaves_managed_release; exact Hacq ]
  end.
  intros r1 s1. destruct i as [[i | ty] |].
  - now apply managed_locate.
  - destruct (_find_by fuel env ty true s) as [[[[c |] | e] s2] |] eqn:E;
      try discriminate.
    + pose proof (@managed_find_by env ty true Henv fuel s _ _ E) as H2.
      destruct (ctx_cursor s2 t) as [[ck cc] |].
      * destruct (negb _); [intros [= _ <-]; exact H2 |].
        apply leaves_done; [| exact H2]. repeat leaves_step.
      * apply leaves_done; [| exact H2]. repeat leaves_step.
    + intros [= _ <-]. exact (@managed_find_by env ty true Henv fuel s _ _ E).
    + intros [= _ <-]. exact (@managed_find_by env ty true Henv fuel s _ _ E).
  - destruct (ctx_cursor s t) as [[ck cc] |]; [now intros [= _ <-] |].
    now apply managed_get.
Qed.

Lemma managed_wait_for_slot (qualifies : police -> bool)
      (env : police -> police) (timeout : option float) :
  (forall s0, managed (env s0) = managed s0) ->
  forall (fuel : nat) (w : float) (s s' : police) (r : outcome unit),
    wait_for_slot qualifies fuel env timeout w s = Some (r, s') ->
    managed s' = managed s.
Proof.
  intros Henv. induction fuel as [| fuel IH]; intros w s s' r;
    cbn [wait_for_slot]; [discriminate |].
  destruct (maxsize s) as [m |]; [| now intros [= _ <-]].
  destruct (len (_registry s) <? m)%Z; [now intros [= _ <-] |].
  destruct (qualifies s); [now intros [= _ <-] |].
  pose proof (@managed_sleep env s Henv) as Hsl.
  destruct timeout as [tm |].
  - destruct (_ <=? _)%float; [now intros [= _ <-] |].
    intros H. apply IH in H. congruence.
  - intros H. apply IH in H. congruence.
Qed.

(** X20.  An item stays under management until it is destroyed:
    [release], [memorize], [forget], [iter_idle], [get], [locate],
    [beacon], [borrow] and the two [wait_for_*_slot] calls, whatever
    they return or raise and however long they wait, neither add an item
    to the registry nor take one out of it, and close nothing, as long
    as the other tasks do not either meanwhile.  Only [put],
    [kill_cursor] and [clear] register, unregister or close. *)
Theorem items_stay_managed_until_destroyed :
  forall (fuel : nat) (env : police -> police) (t : task)
         (i : MappableTraffic) (conn : option ref) (block : bool)
         (timeout : option float) (nso nio : bool) (s : police),
    (forall s0, managed (env s0) = managed s0) ->
    managed (snd (release t s)) = managed s
    /\ managed (snd (memorize t i conn s)) = managed s
    /\ managed (snd (forget i s)) = managed s
    /\ managed (snd (iter_idle t s)) = managed s
    /\ (forall r s',
           get fuel env t block timeout nso nio s = Some (r, s') ->
           managed s' = managed s)
    /\ (forall ti r s',
           locate fuel env t ti block timeout s = Some (r, s') ->
           managed s' = managed s)
    /\ (forall ti r s',
           beacon fuel env ti s = Some (r, s') -> managed s' = managed s)
    /\ (forall ti r s',
           borrow_enter fuel env t ti block timeout nio s = Some (r, s') ->
           managed s' = managed s)
    /\ (forall r s',
           wait_for_unallocated_or_available_slot fuel env timeout s
           = Some (r, s') ->
           managed s' = managed s)
    /\ (forall r s',
           wait_for_idle_or_available_slot fuel env timeout s
           = Some (r, s') ->
           managed s' = managed s).
Proof.
  intros fuel env t i conn block timeout nso nio s Henv.
  split; [apply leaves_managed_release |].
  split; [apply leaves_managed_memorize |].
  split; [apply leaves_managed_forget |].
  split; [apply leaves_managed_iter_idle |].
  split; [intros r s'; now apply managed_get |].
  split; [intros ti r s'; now apply managed_locate |].
  split.
  { intros [ti | ty] r s'; unfold beacon; [now intros [= _ <-] |].
    destruct (_find_by fuel env ty true s) as [[[found | e] s1] |] eqn:E;
      [| | discriminate].
    all: intros [= _ <-]; exact (@managed_find_by env ty true Henv fuel s _ _ E). }
  split; [intros ti r s'; now apply managed_borrow_enter |].
  split; intros r s'; now apply managed_wait_for_slot.
Qed.

(** Task 1 holds nothing; task 0 holds item 12. *)
Lemma items_stay_managed_until_destroyed_witness :
  managed (snd (release 0 holding_with_promise))
  = managed holding_with_promise
  /\ (forall r s',
         get 1 (fun s => s) 0 true None false false holding_with_promise
         = Some (r, s') ->
         managed s' = managed holding_with_promise)
  /\ (forall r s',
         borrow_enter 1 (fun s => s) 0 (Some (inl (Promise 77))) true None
                      false holding_with_promise
         = Some (r, s') ->
         managed s' = managed holding_with_promise).
Proof.
  destruct (@items_stay_managed_until_destroyed
              1 (fun s => s) 0 (Promise 77) None true None false false
              holding_with_promise (fun s0 => eq_refl))
    as (H1 & _ & _ & _ & H5 & _ & _ & H8 & _).
  split; [exact H1 |]. split; [exact H5 |]. apply H8.
Defined.

(** *** The registry and [maxsize] *)

Lemma length_remove (K V : Type) (eqb : K -> K -> bool) (k : K)
      (d : Dict.t K V) :
  length (Dict.remove eqb k d) <= length d
  /\ (Dict.get eqb k d <> None -> S (length (Dict.remove eqb k d)) = length d).
Proof.
  induction d as [| [k1 v1] d [IH1 IH2]]; cbn; [split; [lia | congruence] |].
  destruct (eqb k k1); cbn; split; try lia.
  intros H. specialize (IH2 H). lia.
Qed.

Lemma registers_nothing_leaves (A : Type) (m : M A) :
  leaves (fun s => (maxsize s, _registry s)) m -> registers_nothing m.
Proof.
  intros H s. specialize (H s). cbv beta in H.
  injection H as H1 H2. now rewrite H1, H2.
Qed.

Lemma registers_nothing_bind (A B' : Type) (m : M A) (k : A -> M B') :
  registers_nothing m -> (forall a, registers_nothing (k a)) ->
  registers_nothing (bind m k).
Proof.
  intros Hm Hk s. unfold bind. destruct (Hm s) as [H1 H2].
  destruct (m s) as [[a | e] s1]; cbn [snd] in *; [| now split].
  destruct (Hk a s1) as [H3 H4]. split; [congruence | lia].
Qed.

Lemma registers_nothing_del_registry (k : nat) :
  registers_nothing (del_registry k).
Proof.
  intros s. unfold del_registry, Dict.del.
  destruct (Dict.get Nat.eqb k (_registry s)); fields; split; try reflexivity.
  apply length_remove.
Qed.

Lemma registers_nothing_close (env : police -> police) (r : ref) :
  admits_nothing env -> registers_nothing (close env r).
Proof.
  intros Henv s. unfold close, modify. cbn [snd].
  destruct (Henv (set_closed (closed s ++ [r]) s)) as [H1 H2].
  split; assumption.
Qed.

Lemma registers_nothing_kill_cursor (env : police -> police) (t : task) :
  admits_nothing env -> registers_nothing (kill_cursor env t).
Proof.
  intros Henv. unfold kill_cursor.
  apply registers_nothing_bind;
    [apply registers_nothing_leaves; repeat leaves_step | intros c].
  destruct c as [[k x] |];
    [| apply registers_nothing_leaves; repeat leaves_step].
  apply registers_nothing_bind;
    [apply registers_nothing_leaves; unfold _map_clear; repeat leaves_step
    | intros _].
  apply registers_nothing_bind; [apply registers_nothing_del_registry | intros _].
  apply registers_nothing_bind; [now apply registers_nothing_close | intros _].
  apply registers_nothing_leaves. repeat leaves_step.
Qed.

(** [_sacrifice_first_idle] adds nothing when the other tasks add
    nothing, and when it returns on a registry that is not empty it has
    taken one item out. *)
Lemma sacrifice_takes_one (env : police -> police) (s : police) :
  admits_nothing env ->
  maxsize (snd (_sacrifice_first_idle env s)) = maxsize s
  /\ length (_registry (snd (_sacrifice_first_idle env s)))
     <= length (_registry s)
  /\ (fst (_sacrifice_first_idle env s) = Return tt -> _registry s <> [] ->
      S (length (_registry (snd (_sacrifice_first_idle env s))))
      <= length (_registry s)).
Proof.
  intros Henv.
  assert (E : _sacrifice_first_idle env s
              = if (len (_registry s) =? 0)%Z then (Return tt, s)
                else match find (fun kv =>
                                   Dict.mem Nat.eqb (fst kv) (_container s)
                                   && TrafficState_eqb (state_of s (snd kv)) IDLE)
                                (_registry s) with
                     | Some (k, v) =>
                       (_map_clear v ;; del_registry k ;;
                        del_container k ;; close env v) s
                     | None => (Raise OverwhelmedTraffic, s)
                     end).
  { unfold _sacrifice_first_idle. unfold bind at 1. unfold gets at 1.
    destruct (len (_registry s) =? 0)%Z; [reflexivity |].
    now destruct (find _ (_registry s)) as [[k v] |]. }
  rewrite E. clear E.
  destruct (len (_registry s) =? 0)%Z eqn:Hlen.
  { cbn [fst snd]. repeat split; try lia. intros _ Hne.
    destruct (_registry s); [congruence | discriminate]. }
  destruct (find _ (_registry s)) as [[k v] |];
    [| cbn [fst snd]; repeat split; try lia; discriminate].
  pose proof (leaves_managed_map_clear v s) as Hclear.
  assert (Hmax : maxsize (snd (_map_clear v s)) = maxsize s).
  { assert (H : leaves maxsize (_map_clear v))
      by (unfold _map_clear; repeat leaves_step).
    apply H. }
  rewrite bind_run.
  destruct (_map_clear v s) as [[[] | e] s1]; cbn [snd] in Hclear, Hmax;
    injection Hclear as Er _;
    [| cbn [fst snd]; rewrite Er; repeat split; try lia; try assumption;
       discriminate].
  rewrite bind_run. unfold del_registry, Dict.del.
  destruct (Dict.get Nat.eqb k (_registry s1)) as [v' |] eqn:Hv;
    [| cbn [fst snd]; rewrite Er; repeat split; try lia; try assumption;
       discriminate].
  destruct (@length_remove _ _ Nat.eqb k (_registry s1)) as [_ Hlt].
  rewrite Hv in Hlt. specialize (Hlt ltac:(discriminate)).
  set (s2 := set_registry (Dict.remove Nat.eqb k (_registry s1)) s1).
  assert (Hrest : registers_nothing (del_container k ;; close env v)).
  { apply registers_nothing_bind;
      [apply registers_nothing_leaves; repeat leaves_step | intros _].
    now apply registers_nothing_close. }
  destruct (Hrest s2) as [H1 H2]. rewrite H1.
  unfold s2 in H2 at 2. unfold s2 at 1. fields_in H2. fields.
  rewrite <- Er. repeat split; try lia. assumption.
Qed.

(** The end of [put] adds the item given, if it is new, and nothing
    else. *)
Lemma put_body_registry (t : task) (x : ref) (inds : list MappableTraffic)
      (iu : bool) (s : police) :
  maxsize (snd (put_body t x inds iu s)) = maxsize s
  /\ length (_registry (snd (put_body t x inds iu s)))
     <= length (_registry s)
        + (if Dict.mem Nat.eqb (id x) (_registry s) then 0 else 1).
Proof.
  assert (Hrest : registers_nothing
                    ((if negb iu then container_push_front (id x) x
                      else
                        _set_cursor t (Some (id x, x)) ;;
                        concurrency <- gets concurrency ;;
                        if concurrency then container_push_front (id x) x
                        else ret tt) ;;
                     for_each (fun indicator => memorize t indicator (Some x))
                              inds)).
  { apply registers_nothing_leaves. unfold memorize, _cursor.
    repeat leaves_step. }
  set (rest := (if negb iu then container_push_front (id x) x
                else
                  _set_cursor t (Some (id x, x)) ;;
                  concurrency <- gets concurrency ;;
                  if concurrency then container_push_front (id x) x
                  else ret tt) ;;
               for_each (fun indicator => memorize t indicator (Some x))
                        inds) in *.
  assert (E : put_body t x inds iu s
              = if Dict.mem Nat.eqb (id x) (_registry s)
                   && Dict.mem Nat.eqb (id x) (_container s)
                then (Return tt, s)
                else if Dict.mem Nat.eqb (id x) (_registry s)
                     then ((c <- _cursor t ;;
                            match c with
                            | Some (taken_obj_id, _) =>
                              if Nat.eqb taken_obj_id (id x)
                              then _set_cursor t None else ret tt
                            | None => ret tt
                            end) ;; rest) s
                     else rest (set_registry
                                  (Dict.set Nat.eqb (id x) x (_registry s)) s)).
  { unfold put_body. unfold bind at 1. unfold gets at 1.
    unfold bind at 1. unfold gets at 1.
    destruct (Dict.mem Nat.eqb (id x) (_registry s)),
             (Dict.mem Nat.eqb (id x) (_container s)); reflexivity. }
  rewrite E. clear E.
  destruct (Dict.mem Nat.eqb (id x) (_registry s)) eqn:Hreg; cbn [andb].
  - destruct (Dict.mem Nat.eqb (id x) (_container s));
      [cbn [snd]; split; [reflexivity | lia] |].
    assert (Hall : registers_nothing
                     ((c <- _cursor t ;;
                       match c with
                       | Some (taken_obj_id, _) =>
                         if Nat.eqb taken_obj_id (id x)
                         then _set_cursor t None else ret tt
                       | None => ret tt
                       end) ;; rest)).
    { apply registers_nothing_bind; [| intros _; exact Hrest].
      apply registers_nothing_leaves. unfold _cursor. repeat leaves_step. }
    destruct (Hall s) as [H1 H2]. split; [exact H1 | lia].
  - set (s1 := set_registry (Dict.set Nat.eqb (id x) x (_registry s)) s).
    destruct (Hrest s1) as [H1 H2]. split; [exact H1 |].
    unfold s1 in H2 at 2. cbn [_registry set_registry] in H2.
    rewrite length_set, Hreg in H2. lia.
Qed.

(** X21.  [put] keeps the registry within [maxsize] as long as the
    other tasks register nothing while an evicted item closes: on an
    arbiter whose registry holds no more than [maxsize] items, and one
    at most when [maxsize] is below one, the same holds after [put],
    whatever the item, the indicators and the flags, and whether [put]
    returns or raises.  It holds of a new arbiter, and [kill_cursor]
    keeps it too.  It is lost when another task registers an item while
    the evicted item closes, for [put] does not look at the registry
    again: with [maxsize = 2], a [put] on a full arbiter, during which
    another task puts an item of its own, leaves three items
    registered. *)
Theorem put_keeps_registry_within_maxsize :
  forall (env : police -> police) (t : task) (x : ref)
         (indicators : list MappableTraffic)
         (block immediately_unavailable : bool) (s : police),
    within_capacity s ->
    admits_nothing env ->
    within_capacity
      (snd (put env t x indicators block immediately_unavailable s))
    /\ within_capacity (snd (kill_cursor env t s))
    /\ (forall maxsize concurrency world,
           within_capacity (__init__ maxsize concurrency world))
    /\ (within_capacity full_idle_pool
        /\ maxsize full_idle_pool = Some 2%Z
        /\ _registry (snd (put another_put 0 12 [] false false full_idle_pool))
           = [(11, 11); (14, 14); (12, 12)]
        /\ ~ within_capacity
               (snd (put another_put 0 12 [] false false full_idle_pool))).
Proof.
  intros env t x inds block iu s Hcap Henv.
  assert (Hshrink : forall (A : Type) (m : M A),
             registers_nothing m -> within_capacity (snd (m s))).
  { intros A m Hm k Hk. destruct (Hm s) as [H1 H2]. rewrite H1 in Hk.
    specialize (Hcap k Hk). unfold len in *. lia. }
  split; [| split; [| split]].
  - destruct (_shutdown s) eqn:Hsh.
    + rewrite put_shut_down by assumption. apply Hshrink.
      apply registers_nothing_bind;
        [now apply registers_nothing_kill_cursor |].
      intros _. apply registers_nothing_leaves. repeat leaves_step.
    + rewrite put_running by assumption. rewrite bind_run.
      destruct (maxsize s) as [m |] eqn:Hmax.
      * specialize (Hcap m Hmax).
        destruct ((m <=? len (_registry s))%Z
                  && negb (Dict.mem Nat.eqb (id x) (_registry s))) eqn:Hgate.
        -- destruct (@sacrifice_takes_one env s Henv) as (H1 & H2 & H3).
           destruct (_sacrifice_first_idle env s) as [[[] | e] s1];
             cbn [fst snd] in *.
           ++ destruct (put_body_registry t x inds iu s1) as [H4 H5].
              intros k Hk. rewrite H4, H1, Hmax in Hk. injection Hk as <-.
              assert (H6 : length (_registry (snd (put_body t x inds iu s1)))
                           <= length (_registry s1) + 1)
                by (destruct (Dict.mem Nat.eqb (id x) (_registry s1)); lia).
              unfold len in *.
              destruct (_registry s) as [| kv reg] eqn:Er.
              ** cbn in H2. lia.
              ** specialize (H3 eq_refl ltac:(discriminate)). lia.
           ++ intros k Hk. rewrite H1, Hmax in Hk. injection Hk as <-.
              unfold len in *. lia.
        -- cbn [ret]. destruct (put_body_registry t x inds iu s) as [H4 H5].
           intros k Hk. rewrite H4, Hmax in Hk. injection Hk as <-.
           apply andb_false_iff in Hgate as [Hroom | Hknown].
           ++ apply Z.leb_gt in Hroom. unfold len in *.
              destruct (Dict.mem Nat.eqb (id x) (_registry s)); lia.
           ++ apply negb_false_iff in Hknown. rewrite Hknown in H5.
              unfold len in *. lia.
      * cbn [ret]. destruct (put_body_registry t x inds iu s) as [H4 _].
        intros k Hk. rewrite H4, Hmax in Hk. discriminate.
  - now apply Hshrink, registers_nothing_kill_cursor.
  - intros maxsize concurrency world m _. cbn. lia.
  - split; [| split; [reflexivity | split; [reflexivity |]]].
    + intros m [= <-]. vm_compute. discriminate.
    + intros H. specialize (H 2%Z eq_refl). vm_compute in H. now apply H.
Qed.

(** A full arbiter stays full when a fourth item is put, no other task
    running meanwhile. *)
Lemma put_keeps_registry_within_maxsize_witness :
  within_capacity
    (snd (put (fun s => s) 0 13 [] false false
              (arbiter_of (Some 3%Z) (fun _ => idle_item) [10; 11; 12])))
  /\ within_capacity
       (snd (kill_cursor (fun s => s) 0
               (arbiter_of (Some 3%Z) (fun _ => idle_item) [10; 11; 12]))).
Proof.
  destruct (@put_keeps_registry_within_maxsize
              (fun s => s) 0 13 [] false false
              (arbiter_of (Some 3%Z) (fun _ => idle_item) [10; 11; 12]))
    as (H1 & H2 & _).
  - intros m [= <-]. vm_compute. discriminate.
  - intros s. split; [reflexivity | lia].
  - split; assumption.
Defined.

(** *** Waiting *)

Lemma sleeps_after_sleeps (env : police -> police) :
  forall (k : nat) (s : police), sleeps (after_sleeps k env s) = sleeps s + k.
Proof.
  induction k as [| k IH]; intros s; cbn [after_sleeps]; [lia |].
  rewrite IH. unfold asyncio_sleep. fields. lia.
Qed.

(** A [wait_for_*] loop with no timeout polls until there is a slot. *)
Lemma wait_for_slot_polls (qualifies : police -> bool)
      (env : police -> police) :
  forall (k fuel : nat) (w : float) (s : police),
    k < fuel ->
    (forall j, j < k -> has_slot qualifies (after_sleeps j env s) = false) ->
    has_slot qualifies (after_sleeps k env s) = true ->
    wait_for_slot qualifies fuel env None w s
    = Some (Return tt, after_sleeps k env s).
Proof.
  induction k as [| k IH]; intros fuel w s Hfuel Hwait Hslot;
    (destruct fuel as [| fuel]; [lia |]); cbn [wait_for_slot after_sleeps].
  - cbn [after_sleeps] in Hslot. unfold has_slot in Hslot.
    destruct (maxsize s) as [m |]; [| reflexivity].
    destruct (len (_registry s) <? m)%Z; [reflexivity |].
    cbn [orb] in Hslot. now rewrite Hslot.
  - pose proof (Hwait 0 ltac:(lia)) as H0. cbn [after_sleeps] in H0.
    unfold has_slot in H0.
    destruct (maxsize s) as [m |]; [| discriminate].
    apply orb_false_iff in H0 as [H1 H2]. rewrite H1, H2.
    apply IH; [lia | | exact Hslot].
    intros j Hj. apply (Hwait (S j)). lia.
Qed.

(** X22.  With no timeout, the two [wait_for_*_slot] calls never raise:
    they sleep 1 ms at a time as long as [maxsize] is set and reached and
    no registered item qualifies, and return at the first poll at which
    [maxsize] is [None], there is room in the registry, or a registered
    item that is in the container qualifies, one that is not saturated
    for the first call and one that is idle for the second.  The other
    tasks apart, they leave the arbiter as it is. *)
Theorem wait_for_slot_returns_at_first_slot :
  forall (k fuel : nat) (env : police -> police) (s : police),
    k < fuel ->
    ((forall j, j < k ->
                has_slot any_not_saturated_available (after_sleeps j env s)
                = false) ->
     has_slot any_not_saturated_available (after_sleeps k env s) = true ->
     wait_for_unallocated_or_available_slot fuel env None s
     = Some (Return tt, after_sleeps k env s))
    /\ ((forall j, j < k ->
                   has_slot any_idle_available (after_sleeps j env s) = false) ->
        has_slot any_idle_available (after_sleeps k env s) = true ->
        wait_for_idle_or_available_slot fuel env None s
        = Some (Return tt, after_sleeps k env s))
    /\ sleeps (after_sleeps k env s) = sleeps s + k
    /\ after_sleeps 0 env s = s.
Proof.
  intros k fuel env s Hfuel.
  unfold wait_for_unallocated_or_available_slot,
         wait_for_idle_or_available_slot.
  split; [| split; [| split]].
  - now apply wait_for_slot_polls.
  - now apply wait_for_slot_polls.
  - apply sleeps_after_sleeps.
  - reflexivity.
Qed.

(** The one connection of a full pool is borrowed and saturated; it
    comes back, idle, during the first sleep. *)
Lemma wait_for_slot_returns_at_first_slot_witness :
  wait_for_unallocated_or_available_slot 2 item_comes_back None full_pool
  = Some (Return tt, after_sleeps 1 item_comes_back full_pool)
  /\ wait_for_idle_or_available_slot 2 item_comes_back None full_pool
     = Some (Return tt, after_sleeps 1 item_comes_back full_pool)
  /\ sleeps (after_sleeps 1 item_comes_back full_pool) = 1.
Proof.
  destruct (@wait_for_slot_returns_at_first_slot
              1 2 item_comes_back full_pool) as (H1 & H2 & H3 & _).
  - lia.
  - split; [| split; [| exact H3]].
    + apply H1; [| reflexivity].
      intros j Hj. assert (j = 0) as -> by lia. reflexivity.
    + apply H2; [| reflexivity].
      intros j Hj. assert (j = 0) as -> by lia. reflexivity.
Defined.

(** The first sleep after which the wait clock has reached the
    timeout, as [first_expiry] finds it. *)
Lemma first_expiry_spec :
  forall (fuel : nat) (tm w : float) (n : nat),
    first_expiry fuel tm w = Some n ->
    0 < n <= fuel
    /\ expired tm (clock_after n w) = true
    /\ (forall i, 0 < i < n -> expired tm (clock_after i w) = false).
Proof.
  induction fuel as [| fuel IH]; intros tm w n; cbn [first_expiry];
    [discriminate |].
  destruct (expired tm (w + quantum)) eqn:E.
  - intros [= <-]. split; [lia |]. split; [exact E |]. intros i Hi. lia.
  - destruct (first_expiry fuel tm (w + quantum)) as [n' |] eqn:E';
      [| discriminate].
    intros [= <-]. destruct (IH _ _ _ E') as (Hn & Hlate & Hearly).
    split; [lia |]. split; [exact Hlate |].
    intros [| [| j]] Hi; [lia | exact E |].
    cbn [clock_after]. apply (Hearly (S j)). lia.
Qed.

(** A blocking [get] with a timeout, when there is nothing to take: it
    gives up at the first sleep after which the wait clock has reached
    the timeout. *)
Lemma get_loop_times_out (env : police -> police) (t : task) (tm : float)
      (nso nio : bool) :
  private t env ->
  (forall s0, nothing_available s0 -> nothing_available (env s0)) ->
  forall (n fuel : nat) (w : float) (s : police),
    ctx_cursor s t = None ->
    ctx_wait_clock s t = Some w ->
    nothing_available s ->
    (forall i, 0 < i < n -> expired tm (clock_after i w) = false) ->
    expired tm (clock_after n w) = true ->
    0 < n <= fuel ->
    exists s',
      get_loop fuel env t true (Some tm) nso nio s
      = Some (Raise UnavailableTraffic, s')
      /\ sleeps s' = sleeps s + n
      /\ ctx_wait_clock s' t = None
      /\ ctx_cursor s' t = None
      /\ nothing_available s'.
Proof.
  intros Hpriv Henv.
  induction n as [| r IH]; intros fuel w s Hcur Hclock Hna Hearly Hlate Hfuel;
    [lia |].
  destruct fuel as [| fuel]; [lia |].
  cbn [get_loop]. rewrite Hcur.
  pose proof (Henv s Hna) as Hna'.
  destruct Hna as [Hc Hfull]. rewrite Hc.
  assert (Hroom : match maxsize s with
                  | Some m => (len (_registry s) <? m)%Z
                  | None => false
                  end = false).
  { destruct (maxsize s) as [m |]; [| reflexivity].
    apply Z.ltb_ge. now apply Hfull. }
  rewrite Hroom.
  change (len (@nil (nat * ref)) =? 0)%Z with true.
  change (0 <? len (@nil (nat * ref)))%Z with false.
  cbn [andb].
  destruct (Hpriv s) as [Hpc Hpw].
  assert (Hclock2 : ctx_wait_clock (asyncio_sleep env s) t = Some w)
    by (unfold asyncio_sleep; fields; congruence).
  rewrite Hclock2. unfold_monad. fields.
  change (tm <=? w + quantum)%float with (expired tm (w + quantum)).
  destruct r as [| r].
  - cbn [clock_after] in Hlate. rewrite Hlate.
    eexists. split; [reflexivity |]. unfold asyncio_sleep. fields.
    rewrite Nat.eqb_refl. repeat split; try lia; try congruence.
    all: apply Hna'.
  - pose proof (Hearly 1 ltac:(lia)) as H1. cbn [clock_after] in H1.
    rewrite H1.
    destruct (IH fuel (w + quantum)%float
                 (set_ctx_wait_clock
                    (fun t' => if Nat.eqb t' t then Some (w + quantum)%float
                               else ctx_wait_clock (asyncio_sleep env s) t')
                    (asyncio_sleep env s)))
      as (s' & Hrun & Hsl & Hcl & Hcu & Hn).
    + unfold asyncio_sleep. fields. congruence.
    + fields. now rewrite Nat.eqb_refl.
    + exact Hna'.
    + intros i Hi. apply (Hearly (S i)). lia.
    + exact Hlate.
    + lia.
    + exists s'. split; [exact Hrun |].
      split; [rewrite Hsl; unfold asyncio_sleep; fields; lia |].
      repeat split; try assumption; apply Hn.
Qed.

(** X23.  [get] honours its timeout, on a clock of floats.  A blocking
    [get] with a timeout, by a task that holds nothing, on an arbiter
    whose container is empty and stays so while the registry is full,
    takes one sleep of 1 ms after the other and raises
    [UnavailableTraffic] right after the first sleep at which the wait
    clock has reached the timeout, not before and not later; it always
    sleeps once.  The wait clock of the task is reset.  The clock is the
    sum of as many [0.001] as there were sleeps, in binary64, rounded at
    each step: it is below [2.0] after 2000 sleeps, and a timeout of two
    seconds takes 2001 of them. *)
Theorem get_gives_up_when_timeout_is_reached :
  forall (n fuel : nat) (env : police -> police) (t : task) (tm : float)
         (nso nio : bool) (s : police),
    private t env ->
    (forall s0, nothing_available s0 -> nothing_available (env s0)) ->
    ctx_cursor s t = None ->
    nothing_available s ->
    0 < n <= fuel ->
    expired tm (clock_after n 0) = true ->
    (forall i, 0 < i < n -> expired tm (clock_after i 0) = false) ->
    exists s',
      get fuel env t true (Some tm) nso nio s
      = Some (Raise UnavailableTraffic, s')
      /\ sleeps s' = sleeps s + n
      /\ ctx_wait_clock s' t = None
      /\ ctx_cursor s' t = None.
Proof.
  intros n fuel env t tm nso nio s Hpriv Henv Hcur Hna Hn Hlate Hearly.
  unfold get.
  destruct (@get_loop_times_out env t tm nso nio Hpriv Henv n fuel 0%float
              (snd (_set_wait_clock t (Some 0%float) s)))
    as (s' & Hrun & Hsl & Hcl & Hcu & _).
  - exact Hcur.
  - unfold_monad. fields. now rewrite Nat.eqb_refl.
  - exact Hna.
  - exact Hearly.
  - exact Hlate.
  - exact Hn.
  - exists s'. repeat split; assumption.
Qed.

(** A timeout of two seconds on a full pool whose connection is
    borrowed: 2001 sleeps. *)
Lemma get_gives_up_when_timeout_is_reached_witness :
  exists s',
    get 2001 (fun s => s) 0 true (Some 2%float) false false full_pool
    = Some (Raise UnavailableTraffic, s')
    /\ sleeps s' = 2001
    /\ ctx_wait_clock s' 0 = None
    /\ ctx_cursor s' 0 = None.
Proof.
  assert (E : first_expiry 2001 2 0 = Some 2001) by (vm_compute; reflexivity).
  destruct (first_expiry_spec _ _ _ E) as (Hn & Hlate & Hearly).
  apply (@get_gives_up_when_timeout_is_reached
           2001 2001 (fun s => s) 0 2%float false false full_pool).
  - intros s. split; reflexivity.
  - intros s0 H. exact H.
  - reflexivity.
  - split; [reflexivity |]. intros m [= <-]. vm_compute. discriminate.
  - exact Hn.
  - exact Hlate.
  - exact Hearly.
Defined.

(** A blocking [locate] with a timeout, of an item that is not in the
    container. *)
Lemma locate_loop_times_out (env : police -> police) (t : task) (k : nat)
      (c : ref) (tm : float) :
  private t env ->
  (forall s0, Dict.mem Nat.eqb k (_container s0) = false ->
              Dict.mem Nat.eqb k (_container (env s0)) = false) ->
  forall (n fuel : nat) (w : float) (s : police),
    ctx_cursor s t = None ->
    ctx_wait_clock s t = Some w ->
    Dict.mem Nat.eqb k (_container s) = false ->
    (forall i, 0 < i < n -> expired tm (clock_after i w) = false) ->
    expired tm (clock_after n w) = true ->
    0 < n <= fuel ->
    exists s' : police,
      locate_loop fuel env t k c true (Some tm) s
      = Some (Raise TimeoutError, s')
      /\ sleeps s' = sleeps s + n
      /\ ctx_wait_clock s' t = Some (clock_after n w)
      /\ ctx_cursor s' t = None.
Proof.
  intros Hpriv Henv.
  induction n as [| r IH]; intros fuel w s Hcur Hclock Hout Hearly Hlate Hfuel;
    [lia |].
  destruct fuel as [| fuel]; [lia |].
  cbn [locate_loop]. rewrite Hcur, Hout. cbn [negb].
  destruct (Hpriv s) as [Hpc Hpw].
  assert (Hclock2 : ctx_wait_clock (asyncio_sleep env s) t = Some w)
    by (unfold asyncio_sleep; fields; congruence).
  rewrite Hclock2. unfold_monad. fields.
  change (tm <=? w + quantum)%float with (expired tm (w + quantum)).
  destruct r as [| r].
  - cbn [clock_after] in Hlate. rewrite Hlate.
    eexists. split; [reflexivity |].
    unfold asyncio_sleep. fields.
    rewrite Nat.eqb_refl. repeat split; try lia; try congruence.
  - pose proof (Hearly 1 ltac:(lia)) as H1. cbn [clock_after] in H1.
    rewrite H1.
    destruct (IH fuel (w + quantum)%float
                 (set_ctx_wait_clock
                    (fun t' => if Nat.eqb t' t then Some (w + quantum)%float
                               else ctx_wait_clock (asyncio_sleep env s) t')
                    (asyncio_sleep env s)))
      as (s' & Hrun & Hsl & Hcl & Hcu).
    + unfold asyncio_sleep. fields. congruence.
    + fields. now rewrite Nat.eqb_refl.
    + unfold asyncio_sleep. fields. now apply Henv.
    + intros i Hi. apply (Hearly (S i)). lia.
    + exact Hlate.
    + lia.
    + exists s'. split; [exact Hrun |].
      split; [rewrite Hsl; unfold asyncio_sleep; fields; lia |].
      split; assumption.
Qed.

(** X24.  [locate] honours its timeout, on a clock of floats, and keeps
    the wait clock when it gives up.  A blocking [locate] with a
    timeout, by a task that holds nothing and whose wait clock is not
    set, of an indicator bound to an item that is not in the container
    and does not come back, raises [TimeoutError] right after the first
    sleep at which the wait clock, the binary64 sum of as many [0.001]
    as there were sleeps, has reached the timeout.  The wait clock of
    the task is left at that sum, not reset, and [locate] starts from
    the clock it finds: called by a task whose wait clock reaches the
    timeout with one more [0.001], as after such a [TimeoutError], it
    gives up after a single sleep. *)
Theorem locate_times_out_and_keeps_wait_clock :
  forall (n fuel : nat) (env : police -> police) (t : task)
         (i : MappableTraffic) (x : ref) (tm : float) (s : police),
    private t env ->
    (forall s0, Dict.mem Nat.eqb (id x) (_container s0) = false ->
                Dict.mem Nat.eqb (id x) (_container (env s0)) = false) ->
    Dict.get key_eqb (key_of i) (_map s) = Some x ->
    ctx_cursor s t = None ->
    Dict.mem Nat.eqb (id x) (_container s) = false ->
    0 < n <= fuel ->
    (ctx_wait_clock s t = None ->
     expired tm (clock_after n 0) = true ->
     (forall j, 0 < j < n -> expired tm (clock_after j 0) = false) ->
     exists s' : police,
       locate fuel env t (inl i) true (Some tm) s
       = Some (Raise TimeoutError, s')
       /\ sleeps s' = sleeps s + n
       /\ ctx_wait_clock s' t = Some (clock_after n 0)
       /\ ctx_cursor s' t = None)
    /\ (forall w : float,
           ctx_wait_clock s t = Some w ->
           expired tm (w + quantum) = true ->
           exists s' : police,
             locate fuel env t (inl i) true (Some tm) s
             = Some (Raise TimeoutError, s')
             /\ sleeps s' = sleeps s + 1
             /\ ctx_wait_clock s' t = Some (w + quantum)%float
             /\ ctx_cursor s' t = None).
Proof.
  intros n fuel env t i x tm s Hpriv Henv Hmap Hcur Hout Hn.
  split.
  - intros Hclock Hlate Hearly. unfold locate. rewrite Hclock.
    unfold_monad. fields. rewrite Hmap.
    destruct (@locate_loop_times_out env t (id x) x tm Hpriv Henv n fuel
                0%float (set_ctx_wait_clock
                           (fun t' => if Nat.eqb t' t then Some 0%float
                                      else ctx_wait_clock s t') s))
      as (s' & Hrun & Hrest).
    + exact Hcur.
    + fields. now rewrite Nat.eqb_refl.
    + exact Hout.
    + exact Hearly.
    + exact Hlate.
    + exact Hn.
    + exists s'. split; [exact Hrun | exact Hrest].
  - intros w Hclock Hlate. unfold locate. rewrite Hclock, Hmap.
    apply (@locate_loop_times_out env t (id x) x tm Hpriv Henv 1 fuel w).
    + exact Hcur.
    + exact Hclock.
    + exact Hout.
    + intros j Hj. lia.
    + exact Hlate.
    + lia.
Qed.

(** Task 1 looks for the promise 77, bound to the item that task 0
    holds, with a timeout of 2.5 ms: three sleeps.  It asks again, and
    gives up after one sleep. *)
#[local] Set Warnings "-inexact-float".
Lemma locate_times_out_and_keeps_wait_clock_witness :
  (exists s' : police,
      locate 3 (fun s => s) 1 (inl (Promise 77)) true (Some 0.0025%float)
             promise_on_held_item
      = Some (Raise TimeoutError, s')
      /\ sleeps s' = 3
      /\ ctx_wait_clock s' 1 = Some (clock_after 3 0)
      /\ ctx_cursor s' 1 = None)
  /\ (exists s' : police,
         locate 1 (fun s => s) 1 (inl (Promise 77)) true
                (Some 0.0025%float) after_locate_timeout
         = Some (Raise TimeoutError, s')
         /\ sleeps s' = 3 + 1
         /\ ctx_wait_clock s' 1 = Some (clock_after 3 0 + quantum)%float
         /\ ctx_cursor s' 1 = None).
Proof.
  split.
  - destruct (@locate_times_out_and_keeps_wait_clock
                3 3 (fun s => s) 1 (Promise 77) 12 0.0025%float
                promise_on_held_item) as [H _].
    + intros s. split; reflexivity.
    + intros s0 H. exact H.
    + reflexivity.
    + reflexivity.
    + reflexivity.
    + lia.
    + apply H; [reflexivity | reflexivity |].
      intros j Hj. assert (j = 1 \/ j = 2) as [-> | ->] by lia; reflexivity.
  - destruct (@locate_times_out_and_keeps_wait_clock
                1 1 (fun s => s) 1 (Promise 77) 12 0.0025%float
                after_locate_timeout) as [_ H].
    + intros s. split; reflexivity.
    + intros s0 H. exact H.
    + reflexivity.
    + reflexivity.
    + reflexivity.
    + lia.
    + apply (H (clock_after 3 0)); reflexivity.
Defined.
#[local] Set Warnings "inexact-float".

(** *** Calls that undo each other *)

(** Memorizing a list of indicators for a registered item, in full. *)
Lemma memorize_all_run (t : task) (conn : ref) (inds : list MappableTraffic) :
  forall s : police,
    Dict.mem Nat.eqb (id conn) (_registry s) = true ->
    for_each (fun i => memorize t i (Some conn)) inds s
    = (Return tt,
       set_map_types
         (fold_left (fun mt i => Dict.set key_eqb (key_of i) (type_of i) mt)
                    inds (_map_types s))
         (set_map
            (fold_left (fun m i => Dict.set key_eqb (key_of i) conn m)
                       inds (_map s))
            s)).
Proof.
  induction inds as [| i inds IH]; intros s Hreg; cbn [for_each fold_left].
  - destruct s; reflexivity.
  - unfold bind at 1. rewrite memorize_registered by assumption.
    rewrite IH by exact Hreg. reflexivity.
Qed.

(** X25.  Keeping a new item for oneself and releasing it comes to
    putting it as available.  On an arbiter that is not shut down, with
    [concurrency] off and room left, [put(x, immediately_unavailable=True)]
    of a new item by a task that holds nothing registers the item last,
    memorizes the indicators and makes the item the task's own, out of
    the container; after [release] the registry, the container, with
    the item at its head, and both maps are what [put(x)] alone would
    have made them, and the task holds nothing. *)
Theorem put_unavailable_then_release_is_put_available :
  forall (env : police -> police) (t : task) (x : ref)
         (indicators : list MappableTraffic) (block : bool) (s : police),
    _shutdown s = false ->
    concurrency s = false ->
    ctx_cursor s t = None ->
    Dict.mem Nat.eqb (id x) (_registry s) = false ->
    Dict.mem Nat.eqb (id x) (_container s) = false ->
    NoDup (Dict.keys (_container s)) ->
    (forall m, maxsize s = Some m -> (len (_registry s) < m)%Z) ->
    exists s1 s2 s3,
      put env t x indicators block true s = (Return tt, s1)
      /\ ctx_cursor s1 t = Some (id x, x)
      /\ _container s1 = _container s
      /\ _registry s1 = _registry s ++ [(id x, x)]
      /\ release t s1 = (Return tt, s2)
      /\ put env t x indicators block false s = (Return tt, s3)
      /\ _registry s2 = _registry s3
      /\ _container s2 = (id x, x) :: _container s
      /\ _container s3 = (id x, x) :: _container s
      /\ _map s2 = _map s3
      /\ _map_types s2 = _map_types s3
      /\ ctx_cursor s2 t = None
      /\ ctx_cursor s3 t = None.
Proof.
  intros env t x inds block s Hsh Hconc Hcur Hnew Hout Hnd Hroom.
  assert (Hset : Dict.set Nat.eqb (id x) x (_registry s)
                 = _registry s ++ [(id x, x)]).
  { apply (DictFacts.set_fresh Nat.eqb Nat.eqb_eq).
    now apply (DictFacts.mem_false Nat.eqb Nat.eqb_eq). }
  assert (Hgate : forall iu,
             put env t x inds block iu s = put_body t x inds iu s).
  { intros iu. rewrite put_running by assumption. unfold bind at 1.
    destruct (maxsize s) as [m |]; [| reflexivity].
    specialize (Hroom m eq_refl).
    assert (E : (m <=? len (_registry s))%Z = false) by (apply Z.leb_gt; lia).
    now rewrite E. }
  assert (Hknown : Dict.mem Nat.eqb (id x) (_registry s ++ [(id x, x)])
                   = true).
  { apply (DictFacts.mem_true Nat.eqb Nat.eqb_eq).
    rewrite keys_app. apply in_or_app. right. now left. }
  eexists. eexists. eexists.
  split.
  { rewrite Hgate. unfold put_body. unfold_monad.
    rewrite Hnew. cbn [andb negb]. fields. rewrite Hset, Hconc.
    rewrite memorize_all_run by (fields; exact Hknown).
    reflexivity. }
  fields. rewrite Nat.eqb_refl.
  split; [reflexivity |]. split; [reflexivity |]. split; [reflexivity |].
  split.
  { unfold release. unfold_monad. fields. rewrite Nat.eqb_refl.
    cbv beta iota. fields. rewrite Hconc. cbn [negb]. fields. reflexivity. }
  split.
  { rewrite Hgate. unfold put_body. unfold_monad.
    rewrite Hnew. cbn [andb negb]. fields. rewrite Hset.
    rewrite memorize_all_run by (fields; exact Hknown).
    reflexivity. }
  fields. rewrite Nat.eqb_refl, Hcur, push_front_fresh by assumption.
  repeat split.
Qed.

(** A pool of two gets a first item, with the promise 77. *)
Lemma put_unavailable_then_release_is_put_available_witness :
  exists s1 s2 s3,
    put (fun s => s) 0 10 [Promise 77] false true
        (__init__ (Some 2%Z) false (fun _ => idle_item))
    = (Return tt, s1)
    /\ ctx_cursor s1 0 = Some (10, 10)
    /\ _container s1 = []
    /\ _registry s1 = [(10, 10)]
    /\ release 0 s1 = (Return tt, s2)
    /\ put (fun s => s) 0 10 [Promise 77] false false
           (__init__ (Some 2%Z) false (fun _ => idle_item))
       = (Return tt, s3)
    /\ _registry s2 = _registry s3
    /\ _container s2 = [(10, 10)]
    /\ _container s3 = [(10, 10)]
    /\ _map s2 = _map s3
    /\ _map_types s2 = _map_types s3
    /\ ctx_cursor s2 0 = None
    /\ ctx_cursor s3 0 = None.
Proof.
  apply (@put_unavailable_then_release_is_put_available
           (fun s => s) 0 10 [Promise 77] false
           (__init__ (Some 2%Z) false (fun _ => idle_item))).
  - reflexivity.
  - reflexivity.
  - reflexivity.
  - reflexivity.
  - reflexivity.
  - constructor.
  - intros m [= <-]. vm_compute. reflexivity.
Defined.

(** X26.  [forget] undoes [memorize] when the indicator was new: on an
    arbiter whose maps agree, memorizing an indicator that is in no map
    for a registered item and forgetting it leaves the arbiter exactly
    as it was.  When the indicator was bound before, to whatever item,
    the two calls leave it unbound: the earlier binding does not come
    back. *)
Theorem memorize_then_forget_restores_maps :
  forall (t : task) (i : MappableTraffic) (x : ref) (s : police),
    maps_agree s ->
    Dict.mem Nat.eqb (id x) (_registry s) = true ->
    (Dict.mem key_eqb (key_of i) (_map s) = false ->
     forget i (snd (memorize t i (Some x) s)) = (Return tt, s))
    /\ (NoDup (Dict.keys (_map s)) ->
        fst (forget i (snd (memorize t i (Some x) s))) = Return tt
        /\ Dict.get key_eqb (key_of i)
                    (_map (snd (forget i (snd (memorize t i (Some x) s)))))
           = None).
Proof.
  intros t i x s Hag Hreg. rewrite memorize_registered by assumption.
  cbn [snd]. split.
  - intros Hnew. pose proof Hnew as Hnew'.
    rewrite (@mem_agree _ _ (key_of i) _ _ Hag) in Hnew'.
    apply (DictFacts.mem_false key_eqb key_eqb_eq) in Hnew, Hnew'.
    unfold forget. unfold_monad. fields. unfold Dict.mem, Dict.del.
    rewrite !(DictFacts.get_set_same key_eqb key_eqb_eq). cbn [negb]. fields.
    rewrite !(DictFacts.get_set_same key_eqb key_eqb_eq).
    rewrite !(DictFacts.set_fresh key_eqb key_eqb_eq) by assumption.
    rewrite !(DictFacts.remove_middle key_eqb key_eqb_eq) by assumption.
    fields.
    rewrite !(DictFacts.get_middle key_eqb key_eqb_eq) by assumption.
    rewrite !(DictFacts.remove_middle key_eqb key_eqb_eq) by assumption.
    rewrite !app_nil_r. destruct s; reflexivity.
  - intros Hnd.
    match goal with
    | |- context [forget i ?s1] =>
      destruct (@forget_spec i s1) as (s' & Hrun & _ & Hgone)
    end.
    + unfold maps_agree. fields. now apply keys_set_agree.
    + fields. now apply (DictFacts.set_nodup key_eqb key_eqb_eq).
    + rewrite Hrun. split; [reflexivity | exact Hgone].
Qed.

(** The promise 77 is new, and is bound to item 10 for a while. *)
Lemma memorize_then_forget_restores_maps_witness :
  forget (Promise 77)
         (snd (memorize 0 (Promise 77) (Some 10)
                        (arbiter_of None (fun _ => used_item) [10; 11])))
  = (Return tt, arbiter_of None (fun _ => used_item) [10; 11]).
Proof.
  destruct (@memorize_then_forget_restores_maps
              0 (Promise 77) 10
              (arbiter_of None (fun _ => used_item) [10; 11])) as [H _].
  - reflexivity.
  - reflexivity.
  - apply H. reflexivity.
Defined.
